(** * Transcript segmentation, highlight resolution and speaking rate

    A shallow embedding of the three pieces of logic of the application that
    carry invariants:

    - the class [SpeechTracker] (services/speechService.ts): turns final speech
      recognition results into timed transcript segments;
    - [renderSegment] (components/TranscriptView.tsx): cuts the text of a
      segment into runs along the boundaries of the highlights;
    - the [stats] computation of [SpeakingSpeedView]: words per minute per
      segment and over the whole transcript.

    Conventions of the embedding.

    - A JavaScript string is the list of its UTF-16 code units.
    - Character offsets and millisecond clock readings are integers ([Z]).
    - A JavaScript number is an IEEE 754 binary64 value: a rational ([Q]),
      an infinity or [NaN] (type [num]).  Division and multiplication give
      the exact result rounded to the nearest double, a tie going to the even
      significand, with gradual underflow and with overflow to an infinity
      ([roundDouble]).  The sign of a zero is not modelled.
    - The times of a segment are rationals.  The tracker's quotient by 1000
      and the difference of two times are taken exactly; what is stated of
      them is their order or sign, which rounding keeps, or holds of every
      duration.
    - Arrays that are shared by reference live in a store ([gmap]) and are
      named by their location. *)

From Stdlib Require Import ZArith QArith Qround Qpower Lia Lqa List String Ascii.
From Stdlib Require Import Sorted.
From Stdlib Require Qcanon.
From stdpp Require Import base option list gmap.

Local Open Scope Z_scope.

(** ** JavaScript strings *)

Definition jsstring := list N.

(** Literals for the examples: the code units of an ASCII string. *)
Definition units (s : string) : jsstring :=
  List.map N_of_ascii (list_ascii_of_string s).

(** WhiteSpace and LineTerminator code points of ECMAScript; they are the
    characters removed by [String.prototype.trim] and matched by the regular
    expression class [\s]. *)
Definition isWhiteSpace (c : N) : bool :=
  ((9 <=? c) && (c <=? 13)            (* TAB, LF, VT, FF, CR *)
   || (c =? 32)                       (* SPACE *)
   || (c =? 160)                      (* NO-BREAK SPACE *)
   || (c =? 5760)                     (* U+1680 *)
   || ((8192 <=? c) && (c <=? 8202))  (* U+2000 .. U+200A *)
   || (c =? 8232) || (c =? 8233)      (* U+2028, U+2029 *)
   || (c =? 8239)                     (* U+202F *)
   || (c =? 8287)                     (* U+205F *)
   || (c =? 12288)                    (* U+3000 *)
   || (c =? 65279))%N.                (* U+FEFF *)

Fixpoint trimStart (s : jsstring) : jsstring :=
  match s with
  | [] => []
  | c :: rest => if isWhiteSpace c then trimStart rest else s
  end.

Definition trimEnd (s : jsstring) : jsstring := rev (trimStart (rev s)).

(** [s.trim()] *)
Definition trim (s : jsstring) : jsstring := trimEnd (trimStart s).

(** The truthiness of a string: the empty string is the only falsy one. *)
Definition truthy (s : jsstring) : bool :=
  match s with [] => false | _ => true end.

(** [s.split(/\s+/)].  The scan keeps the piece being read in [cur]
    (reversed); [in_sep] tells that the previous character belonged to a
    separator, so that a maximal run of white space splits once.  At the end
    of the string the piece in progress is always pushed: the empty string
    splits into one empty piece, and white space at either end of the string
    gives an empty piece there. *)
Fixpoint split_ws_from (in_sep : bool) (cur : jsstring) (s : jsstring)
  : list jsstring :=
  match s with
  | [] => [rev cur]
  | c :: rest =>
      if isWhiteSpace c
      then if in_sep then split_ws_from true cur rest
           else rev cur :: split_ws_from true [] rest
      else split_ws_from false (c :: cur) rest
  end.

Definition split_ws (s : jsstring) : list jsstring := split_ws_from false [] s.

(** [s.substring(a, b)]: both indices are clamped to [0, s.length] and
    swapped when they come in the wrong order. *)
Definition substring (s : jsstring) (a b : Z) : jsstring :=
  let len := Z.of_nat (length s) in
  let a' := Z.max 0 (Z.min a len) in
  let b' := Z.max 0 (Z.min b len) in
  let from := Z.min a' b' in
  let to := Z.max a' b' in
  take (Z.to_nat (to - from)) (drop (Z.to_nat from) s).

(** ** JavaScript numbers *)

(** The values of the type Number.  [Fin q] stands for the double whose
    value is [q]; the operations below return doubles when they are given
    doubles. *)
Inductive num : Type :=
| Fin (q : Q)
| PosInf
| NegInf
| NaN.

Definition num_of_nat (n : nat) : num := Fin (inject_Z (Z.of_nat n)).

Definition Qzero (q : Q) : bool := Qeq_bool q 0%Q.
Definition Qpos (q : Q) : bool := negb (Qle_bool q 0%Q).

Definition flip_inf (x : num) : num :=
  match x with PosInf => NegInf | NegInf => PosInf | _ => x end.

(** *** Rounding to binary64 *)

Definition pow2 (e : Z) : Q := Qpower 2 e.

(** The exponent [e] with [2^e <= q < 2^(e+1)], for a positive [q]. *)
Definition floorLog2 (q : Q) : Z :=
  let e0 := Z.log2 (Qnum q) - Z.log2 (Zpos (Qden q)) in
  if Qle_bool (pow2 e0) q then e0 else e0 - 1.

(** The integer nearest to [x], a tie going to the even one. *)
Definition roundEven (x : Q) : Z :=
  let f := Qfloor x in
  match Qcompare (x - inject_Z f) (1 # 2) with
  | Lt => f
  | Gt => f + 1
  | Eq => if Z.even f then f else f + 1
  end.

(** The exponent of the unit in the last place of the doubles around a
    positive [q]: the significand has 53 bits, and below [2^-1022] the
    subnormal doubles are [2^-1074] apart. *)
Definition ulp (q : Q) : Z := Z.max (floorLog2 q - 52) (-1074).

(** The multiple of [2^u] nearest to [q]. *)
Definition nearestMultiple (q : Q) (u : Z) : Q :=
  Qred (inject_Z (roundEven (q / pow2 u)) * pow2 u).

(** The double nearest to a positive [q]; [None] on overflow, which is when
    the rounded value reaches [2^1024]. *)
Definition roundPositive (q : Q) : option Q :=
  let v := nearestMultiple q (ulp q) in
  if Qle_bool (pow2 1024) v then None else Some v.

(** The value of an operation whose exact result is [q]. *)
Definition roundDouble (q : Q) : num :=
  match Qcompare q 0 with
  | Eq => Fin 0
  | Gt => match roundPositive q with Some v => Fin v | None => PosInf end
  | Lt =>
      match roundPositive (- q) with Some v => Fin (- v) | None => NegInf end
  end.

(** *** Operations *)

(** [x / y] *)
Definition num_div (x y : num) : num :=
  match x, y with
  | NaN, _ | _, NaN => NaN
  | Fin a, Fin b =>
      if Qzero b
      then if Qzero a then NaN else if Qpos a then PosInf else NegInf
      else roundDouble (a / b)
  | Fin _, _ => Fin 0%Q
  | _, Fin b => if Qzero b || Qpos b then x else flip_inf x
  | _, _ => NaN
  end.

(** [x * y] *)
Definition num_mul (x y : num) : num :=
  match x, y with
  | NaN, _ | _, NaN => NaN
  | Fin a, Fin b => roundDouble (a * b)
  | Fin a, _ => if Qzero a then NaN else if Qpos a then y else flip_inf y
  | _, Fin b => if Qzero b then NaN else if Qpos b then x else flip_inf x
  | PosInf, _ => y
  | NegInf, _ => flip_inf y
  end.

(** [Math.round(x)]: the nearest integer, a tie going up.  The result is
    exact: the integer nearest to a double is a double. *)
Definition num_round (x : num) : num :=
  match x with
  | Fin q => Fin (inject_Z (Qfloor (q + (1 # 2))%Q))
  | _ => x
  end.

(** [Math.floor(x)] *)
Definition num_floor (x : num) : num :=
  match x with
  | Fin q => Fin (inject_Z (Qfloor q))
  | _ => x
  end.

(** The integer part of a rational. *)
Definition Qtrunc (q : Q) : Z :=
  if Qle_bool 0 q then Qfloor q else Qceiling q.

(** [x % y]: the remainder has the sign of [x]; it is a double, so nothing
    is rounded. *)
Definition num_rem (x y : num) : num :=
  match x, y with
  | Fin a, Fin b =>
      if Qzero b then NaN
      else Fin (Qred (a - b * inject_Z (Qtrunc (a / b))))
  | Fin _, PosInf | Fin _, NegInf => x
  | _, _ => NaN
  end.

(** [x > 0]; every comparison with [NaN] is false. *)
Definition num_gt0 (x : num) : bool :=
  match x with
  | Fin q => Qpos q
  | PosInf => true
  | _ => false
  end.

(** A JavaScript number that is a finite integer. *)
Definition integral (x : num) : Prop := exists k : Z, x = Fin (inject_Z k).

(** A JavaScript number that is a finite integer and not negative, or the
    positive infinity. *)
Definition rate (x : num) : Prop :=
  x = PosInf \/ exists k : Z, 0 <= k /\ x = Fin (inject_Z k).

(** ** Shared types (types.ts) *)

Module Types.

Record TranscriptSegment : Type := {
  startTime : Q;       (* in seconds *)
  endTime : Q;         (* in seconds *)
  text : jsstring;
}.

(** The fields of a note that the transcript view reads. *)
Record Note : Type := {
  content : string;
  transcriptSegmentIndex : option nat;
  highlightStart : option Z;
  highlightEnd : option Z;
  color : option string;
}.

End Types.

Import Types.

(** ** Speaking-rate analysis (components/SpeakingSpeedView.tsx) *)

Module SpeakingSpeedView.

(** [seg.text.trim().split(/\s+/).length] *)
Definition wordCount (text : jsstring) : nat := length (split_ws (trim text)).

(** [duration > 0 ? Math.round((words / duration) * 60) : 0] *)
Definition wpmOf (words : nat) (duration : num) : num :=
  if num_gt0 duration
  then num_round (num_mul (num_div (num_of_nat words) duration) (Fin 60%Q))
  else Fin 0%Q.

(** One element of [segmentStats]: the segment with its rate. *)
Record SegmentStat : Type := {
  seg : TranscriptSegment;
  seg_wpm : num;
}.

Record Stats : Type := {
  wpm : num;
  totalWords : nat;
  duration : Q;
  segments : list SegmentStat;
}.

(** The body of the callback of [transcript.map]: it returns the element of
    the new array and adds the words of the segment to the running total,
    which is threaded here as the first component. *)
Definition segmentStat (totalWords : nat) (seg : TranscriptSegment)
  : nat * SegmentStat :=
  let words := wordCount (text seg) in
  let duration := (endTime seg - startTime seg)%Q in
  let totalWords := (totalWords + words)%nat in
  let wpm := wpmOf words (Fin duration) in
  (totalWords, {| seg := seg; seg_wpm := wpm |}).

Fixpoint mapSegments (totalWords : nat) (transcript : list TranscriptSegment)
  : nat * list SegmentStat :=
  match transcript with
  | [] => (totalWords, [])
  | seg :: rest =>
      let '(totalWords, st) := segmentStat totalWords seg in
      let '(totalWords, sts) := mapSegments totalWords rest in
      (totalWords, st :: sts)
  end.

Definition stats (transcript : list TranscriptSegment) : Stats :=
  match transcript with
  | [] => {| wpm := Fin 0%Q; totalWords := 0; duration := 0%Q; segments := [] |}
  | first :: _ =>
      let '(totalWords, segmentStats) := mapSegments 0 transcript in
      let startTime := startTime first in
      let endTime :=
        endTime (default first (transcript !! (length transcript - 1)%nat)) in
      let totalDuration := (endTime - startTime)%Q in
      let globalWpm := wpmOf totalWords (Fin totalDuration) in
      {| wpm := globalWpm; totalWords := totalWords;
         duration := totalDuration; segments := segmentStats |}
  end.

(** The count that the description of the analyzer asks for: the number of
    maximal runs of characters that are not white space.  [in_token] tells
    that the previous character belonged to a token. *)
Fixpoint tokens_from (in_token : bool) (s : jsstring) : nat :=
  match s with
  | [] => 0
  | c :: rest =>
      if isWhiteSpace c then tokens_from false rest
      else ((if in_token then 0 else 1) + tokens_from true rest)%nat
  end.

Definition whitespace_tokens (s : jsstring) : nat := tokens_from false s.

(** Whether a scan that is inside a token ([in_token]) is still inside one
    after reading [s]. *)
Fixpoint ends_in_token (in_token : bool) (s : jsstring) : bool :=
  match s with
  | [] => in_token
  | c :: rest => ends_in_token (negb (isWhiteSpace c)) rest
  end.

End SpeakingSpeedView.

(** ** Live segmentation (services/speechService.ts) *)

Module SpeechTracker.

(** Calls made on the browser's recognizer. *)
Inductive RecognizerCall : Type := RecStart | RecStop.

(** The tracker object together with the part of the world it acts on.
    [segments] is a reference: the array itself is in [arrays], so that the
    array handed out by [stop] and the one the tracker keeps pushing to can be
    told the same.  [recognition] tells whether the browser offers speech
    recognition, that is whether [this.recognition] is defined.  [calls] is
    the trace of the calls made on the recognizer, oldest first. *)
Record State : Type := {
  recognition : bool;
  isListening : bool;
  segments : nat;
  startTime : Z;                 (* Date.now() at start, in milliseconds *)
  currentSegmentStart : Q;       (* in seconds *)
  arrays : gmap nat (list TranscriptSegment);
  calls : list RecognizerCall;
}.

(** One entry of [event.results]; [transcript] is [results[i][0].transcript]
    and [now] is what [Date.now()] answers when the entry is handled. *)
Record SpeechResult : Type := {
  isFinal : bool;
  transcript : jsstring;
  now : Z;
}.

Record ResultEvent : Type := {
  resultIndex : nat;
  results : list SpeechResult;
}.

(** [(Date.now() - this.startTime) / 1000] *)
Definition elapsedSeconds (now startTime : Z) : Q := (now - startTime) # 1000.

(** The constructor; the field initialiser [segments = []] allocates the
    first array. *)
Definition new (supported : bool) : State :=
  {| recognition := supported; isListening := false; segments := 0%nat;
     startTime := 0; currentSegmentStart := 0%Q;
     arrays := {[ 0%nat := [] ]}; calls := [] |}.

(** [this.segments.push(seg)] *)
Definition push (seg : TranscriptSegment) (s : State) : State :=
  {| recognition := recognition s; isListening := isListening s;
     segments := segments s; startTime := startTime s;
     currentSegmentStart := currentSegmentStart s;
     arrays := alter (fun a => a ++ [seg]) (segments s) (arrays s);
     calls := calls s |}.

Definition set_currentSegmentStart (q : Q) (s : State) : State :=
  {| recognition := recognition s; isListening := isListening s;
     segments := segments s; startTime := startTime s;
     currentSegmentStart := q; arrays := arrays s; calls := calls s |}.

Definition set_isListening (b : bool) (s : State) : State :=
  {| recognition := recognition s; isListening := b;
     segments := segments s; startTime := startTime s;
     currentSegmentStart := currentSegmentStart s;
     arrays := arrays s; calls := calls s |}.

(** A call on the recognizer.  An exception it may throw is caught at every
    call site of [start], so the call only leaves its mark in the trace. *)
Definition call (c : RecognizerCall) (s : State) : State :=
  {| recognition := recognition s; isListening := isListening s;
     segments := segments s; startTime := startTime s;
     currentSegmentStart := currentSegmentStart s;
     arrays := arrays s; calls := calls s ++ [c] |}.

(** The body of the loop of [onresult] for one entry of [event.results]. *)
Definition handleResult (s : State) (r : SpeechResult) : State :=
  if isFinal r then
    let text := transcript r in
    let endTime := elapsedSeconds (now r) (startTime s) in
    if truthy (trim text) then
      set_currentSegmentStart endTime
        (push {| Types.startTime := currentSegmentStart s;
                 Types.endTime := endTime;
                 Types.text := trim text |} s)
    else s
  else s.

(** [for (let i = event.resultIndex; i < event.results.length; ++i)] *)
Definition onresult (event : ResultEvent) (s : State) : State :=
  fold_left handleResult (drop (resultIndex event) (results event)) s.

(** [console.warn] only. *)
Definition onerror (s : State) : State := s.

Definition onend (s : State) : State :=
  if isListening s then call RecStart s else s.

Definition start (now : Z) (s : State) : State :=
  if recognition s then
    let fresh_array := fresh (dom (arrays s)) in
    call RecStart
      {| recognition := recognition s; isListening := true;
         segments := fresh_array; startTime := now;
         currentSegmentStart := 0%Q;
         arrays := <[ fresh_array := [] ]> (arrays s);
         calls := calls s |}
  else s.

(** [stop] returns the reference held in [this.segments]. *)
Definition stop (s : State) : nat * State :=
  if recognition s
  then (segments s, call RecStop (set_isListening false s))
  else (segments s, s).

Definition isSupported (s : State) : bool := recognition s.

(** What a holder of the reference [l] reads. *)
Definition read (l : nat) (s : State) : list TranscriptSegment :=
  default [] (arrays s !! l).

(** The callbacks of the recognizer.  They are installed by the constructor
    only when the recognizer exists, so nothing is ever delivered to a
    tracker without one. *)
Inductive Callback : Type :=
| OnResult (event : ResultEvent)
| OnError
| OnEnd.

Definition deliver (s : State) (c : Callback) : State :=
  if recognition s then
    match c with
    | OnResult event => onresult event s
    | OnError => onerror s
    | OnEnd => onend s
    end
  else s.

Definition deliverAll (cs : list Callback) (s : State) : State :=
  fold_left deliver cs s.

(** The clock readings taken while the callbacks [cs] are handled, in the
    order in which they are taken. *)
Definition readings (c : Callback) : list Z :=
  match c with
  | OnResult event =>
      now <$> List.filter isFinal (drop (resultIndex event) (results event))
  | _ => []
  end.

Definition allReadings (cs : list Callback) : list Z := concat (readings <$> cs).

(** The order of a transcript: starts never go back. *)
Definition nondecreasingStarts (segs : list TranscriptSegment) : Prop :=
  forall i j a b, (i <= j)%nat -> segs !! i = Some a -> segs !! j = Some b ->
                  (Types.startTime a <= Types.startTime b)%Q.

(** What holds of a session while the clock has not been read after [lo]:
    every segment of the working list ends where or after it starts and no
    later than the cursor, the starts are in order, and the cursor is not
    ahead of the time elapsed at [lo]. *)
Definition sessionInv (lo : Z) (s : State) : Prop :=
  exists segs,
    arrays s !! segments s = Some segs /\
    Forall (fun g => (Types.startTime g <= Types.endTime g)%Q /\
                     (Types.endTime g <= currentSegmentStart s)%Q) segs /\
    nondecreasingStarts segs /\
    (currentSegmentStart s <= elapsedSeconds lo (startTime s))%Q.

End SpeechTracker.

(** ** Highlight resolution (components/TranscriptView.tsx) *)

Module TranscriptView.

(** One element pushed by the loop of [renderSegment]: the text of the span,
    the note that colours it when there is one, and the bounds [start] and
    [end] of the iteration that pushed it. *)
Record Run : Type := {
  run_start : Z;
  run_end : Z;
  partText : jsstring;
  activeNote : option Note;
}.

(** [Math.max(0, Math.min(x, text.length))] *)
Definition clamp (len x : Z) : Z := Z.max 0 (Z.min x len).

(** [points.add(x)] on a [Set], kept as the list of its elements in the
    order of their insertion. *)
Definition set_add (x : Z) (points : list Z) : list Z :=
  if bool_decide (x ∈ points) then points else points ++ [x].

(** The body of the [forEach] that collects the boundaries. *)
Definition addNotePoints (len : Z) (points : list Z) (n : Note) : list Z :=
  let points :=
    match highlightStart n with
    | Some a => set_add (clamp len a) points
    | None => points
    end in
  match highlightEnd n with
  | Some b => set_add (clamp len b) points
  | None => points
  end.

Definition boundaryPoints (len : Z) (segmentNotes : list Note) : list Z :=
  fold_left (addNotePoints len) segmentNotes (set_add len (set_add 0 [])).

(** [Array.from(points).sort((a, b) => a - b)] *)
Fixpoint insertSorted (x : Z) (l : list Z) : list Z :=
  match l with
  | [] => [x]
  | y :: l' => if x <=? y then x :: l else y :: insertSorted x l'
  end.

Definition sortNumeric (l : list Z) : list Z := foldr insertSorted [] l.

(** [start + (end - start) / 2] *)
Definition midpoint (start end_ : Z) : Q :=
  (inject_Z start + inject_Z (end_ - start) / 2)%Q.

(** The predicate given to [find]. *)
Definition coversMid (mid : Q) (n : Note) : bool :=
  match highlightStart n, highlightEnd n with
  | Some a, Some b => Qle_bool (inject_Z a) mid && Qle_bool mid (inject_Z b)
  | _, _ => false
  end.

(** [segmentNotes.slice().reverse().find(...)] *)
Definition findActiveNote (segmentNotes : list Note) (mid : Q) : option Note :=
  List.find (coversMid mid) (rev segmentNotes).

(** The loop over the consecutive pairs of [sortedPoints]. *)
Fixpoint sliceRuns (text : jsstring) (segmentNotes : list Note)
  (sortedPoints : list Z) : list Run :=
  match sortedPoints with
  | start :: ((end_ :: _) as rest) =>
      let partText := substring text start end_ in
      if truthy partText then
        let mid := midpoint start end_ in
        {| run_start := start; run_end := end_; partText := partText;
           activeNote := findActiveNote segmentNotes mid |}
        :: sliceRuns text segmentNotes rest
      else sliceRuns text segmentNotes rest
  | _ => []
  end.

(** The element pushed for the pair of neighbouring points [(a, b)]. *)
Definition runBetween (text : jsstring) (segmentNotes : list Note) (a b : Z)
  : Run :=
  {| run_start := a; run_end := b; partText := substring text a b;
     activeNote := findActiveNote segmentNotes (midpoint a b) |}.

Definition notesOfSegment (notes : list Note) (index : nat) : list Note :=
  List.filter (fun n => bool_decide (transcriptSegmentIndex n = Some index)) notes.

(** [renderSegment]; the component's [notes] are a parameter.  Without notes
    for the segment the whole text is returned as one plain span. *)
Definition renderSegment (notes : list Note) (segment : TranscriptSegment)
  (index : nat) : list Run :=
  let segmentNotes := notesOfSegment notes index in
  let text := text segment in
  if (length segmentNotes =? 0)%nat then
    [ {| run_start := 0; run_end := Z.of_nat (length text);
         partText := text; activeNote := None |} ]
  else
    let points := boundaryPoints (Z.of_nat (length text)) segmentNotes in
    let sortedPoints := sortNumeric points in
    sliceRuns text segmentNotes sortedPoints.

(** The text that the spans show, read in order. *)
Definition shownText (runs : list Run) : jsstring := concat (partText <$> runs).

(** A note that covers the midpoint of a run, as [find] tests it. *)
Definition covers (n : Note) (r : Run) : Prop :=
  coversMid (midpoint (run_start r) (run_end r)) n = true.

(** A note whose clamped start lies after its clamped end. *)
Definition malformed (len : Z) (n : Note) : Prop :=
  exists a b, highlightStart n = Some a /\ highlightEnd n = Some b /\
              clamp len b < clamp len a.

(** Every position of a text of length [len] lies in exactly one run. *)
Definition tiles (len : Z) (runs : list Run) : Prop :=
  forall p, 0 <= p < len ->
    exists i r,
      runs !! i = Some r /\ run_start r <= p < run_end r /\
      forall j r', runs !! j = Some r' ->
                   run_start r' <= p < run_end r' -> j = i.

(** The clamped range of a note spans the whole run. *)
Definition spans (len : Z) (n : Note) (r : Run) : Prop :=
  exists a b, highlightStart n = Some a /\ highlightEnd n = Some b /\
              clamp len a <= run_start r /\ run_end r <= clamp len b.

End TranscriptView.

(** ** Examples *)

Module Examples.

Import TranscriptView.
Import SpeechTracker.

Definition pause_transcript : list TranscriptSegment :=
  [ {| Types.startTime := 0; endTime := 2; text := units "one two three" |};
    {| Types.startTime := 10; endTime := 12; text := units "four five" |} ].

Definition word_result (w : string) (t : Z) : SpeechResult :=
  {| isFinal := true; transcript := units w; now := t |}.

Definition demo_callbacks : list Callback :=
  [ OnResult {| resultIndex := 0; results := [ word_result "hello there" 2500 ] |};
    OnEnd;
    OnResult {| resultIndex := 1;
                results := [ word_result "hello there" 2500;
                             word_result "  " 3000;
                             word_result " world " 4000 ] |} ].

Definition demo_session : State := start 1000 (new true).

Definition blank_event : ResultEvent :=
  {| resultIndex := 0; results := [ word_result " " 2000; word_result "" 2100 ] |}.

(** One browser event that carries three final results, the second of them
    blank, and the same event without the blank one. *)
Definition mixed_event : ResultEvent :=
  {| resultIndex := 0;
     results := [ word_result "hello" 2000; word_result "  " 2500;
                  word_result "world" 3000 ] |}.

Definition spoken_event : ResultEvent :=
  {| resultIndex := 0;
     results := [ word_result "hello" 2000; word_result "world" 3000 ] |}.

(** A segment of one word that lasts [2^-1074] seconds, the smallest
    positive double (5e-324). *)
Definition tiny_segment : TranscriptSegment :=
  {| Types.startTime := 0; endTime := pow2 (-1074); text := units "a" |}.

(** The session of the counterexample: started at the instant 0 and stopped
    before any result came; then the recognizer delivers the final result of
    the last utterance. *)
Definition stopped_session : nat * State := stop (start 0 (new true)).

Definition late_result : ResultEvent :=
  {| resultIndex := 0; results := [ word_result "thank you" 5000 ] |}.

Definition after_late_result : State :=
  deliver (snd stopped_session) (OnResult late_result).

Definition highlight (a b : Z) : Note :=
  {| content := "note"; transcriptSegmentIndex := Some 0%nat;
     highlightStart := Some a; highlightEnd := Some b; color := None |}.

Definition first_note : Note := highlight 0 5.
Definition second_note : Note := highlight 3 8.

(** Its start lies after its end. *)
Definition inverted_note : Note := highlight 6 2.

Definition eight_chars : TranscriptSegment :=
  {| Types.startTime := 0; Types.endTime := 2; Types.text := units "abcdefgh" |}.

(** The run where [first_note] and [second_note] overlap. *)
Definition overlap_run : Run :=
  {| run_start := 3; run_end := 5; partText := units "de";
     activeNote := Some second_note |}.

End Examples.

Import Examples.

(** ** Sessions of the tracker *)

Module Sessions.

Import SpeechTracker.

(** Each segment starts where the one before it ended, and the first one
    starts at 0. *)
Definition abutting (segs : list TranscriptSegment) : Prop :=
  (forall g, head segs = Some g -> Types.startTime g = 0%Q) /\
  (forall i a b, segs !! i = Some a -> segs !! S i = Some b ->
                 Types.startTime b = Types.endTime a).

(** The end of the last segment, 0 when there is none. *)
Definition cursorAfter (segs : list TranscriptSegment) : Q :=
  match last segs with
  | Some g => Types.endTime g
  | None => 0%Q
  end.

(** The entries of a list of results that yield a segment: the final ones
    whose text holds more than white space. *)
Definition yieldsSegment (r : SpeechResult) : bool :=
  isFinal r && truthy (trim (transcript r)).

Definition spokenResults (rs : list SpeechResult) : list jsstring :=
  (fun r => trim (transcript r)) <$> List.filter yieldsSegment rs.

Definition spoken (c : Callback) : list jsstring :=
  match c with
  | OnResult event => spokenResults (drop (resultIndex event) (results event))
  | _ => []
  end.

Definition allSpoken (cs : list Callback) : list jsstring :=
  concat (spoken <$> cs).

Definition isEnd (c : Callback) : bool :=
  match c with OnEnd => true | _ => false end.

Definition isResult (c : Callback) : bool :=
  match c with OnResult _ => true | _ => false end.

(** Two states of the world that differ at most in the trace of the calls
    made on the recognizer. *)
Definition sameButCalls (s s' : State) : Prop :=
  recognition s = recognition s' /\ isListening s = isListening s' /\
  segments s = segments s' /\ startTime s = startTime s' /\
  currentSegmentStart s = currentSegmentStart s' /\ arrays s = arrays s'.

(** A property of the working list and of the cursor holds in a state. *)
Definition holdsIn (P : list TranscriptSegment -> Q -> Prop) (s : State)
  : Prop :=
  exists segs, arrays s !! segments s = Some segs /\
               P segs (currentSegmentStart s).

End Sessions.

(** ** Pace categories (components/SpeakingSpeedView.tsx) *)

Module Pace.

(** [x < k] for a finite [k]; every comparison with [NaN] is false. *)
Definition num_lt (x : num) (k : Q) : bool :=
  match x with
  | Fin q => negb (Qle_bool k q)
  | NegInf => true
  | _ => false
  end.

Record Category : Type := {
  label : string;
  color : string;
}.

(** [getSpeedCategory]; the descriptive sentence of each category is left
    out. *)
Definition getSpeedCategory (wpm : num) : Category :=
  if num_lt wpm 110 then {| label := "Slow"; color := "text-yellow-400" |}
  else if num_lt wpm 130 then {| label := "Moderate"; color := "text-blue-400" |}
  else if num_lt wpm 160
       then {| label := "Conversational"; color := "text-green-400" |}
  else {| label := "Fast"; color := "text-red-400" |}.

(** The table of the categories, read on an integer rate. *)
Definition labelOfRate (k : Z) : string :=
  if k <=? 109 then "Slow"
  else if k <=? 129 then "Moderate"
  else if k <=? 159 then "Conversational"
  else "Fast".

(** What the component shows: a spinner while the transcript is empty,
    otherwise the analysis, of which the main card is kept here, the global
    rate ([stats.wpm]) and the label of its category. *)
Inductive View : Type :=
| Analyzing
| Analysis (wpm : num) (pace : string).

Definition render (transcript : list TranscriptSegment) : View :=
  let stats := SpeakingSpeedView.stats transcript in
  let category := getSpeedCategory (SpeakingSpeedView.wpm stats) in
  if (length transcript =? 0)%nat then Analyzing
  else Analysis (SpeakingSpeedView.wpm stats) (label category).

End Pace.

(** ** Selections in the transcript (components/TranscriptView.tsx) *)

Module Selection.

Import TranscriptView.

(** A text node of the document: its identity and its text. *)
Record TextNode : Type := {
  node : nat;
  textContent : jsstring;
}.

(** The loop of [getRelativeOffset].  The container is given by the text
    nodes that the tree walker yields, in the order of the document;
    [offset] is the sum of the lengths of the nodes already passed. *)
Fixpoint walkTextNodes (nodes : list TextNode) (targetNode : nat)
  (targetOffset offset : Z) : Z :=
  match nodes with
  | [] => offset
  | currentNode :: rest =>
      if (node currentNode =? targetNode)%nat then offset + targetOffset
      else walkTextNodes rest targetNode targetOffset
             (offset + Z.of_nat (length (textContent currentNode)))
  end.

Definition getRelativeOffset (container : list TextNode) (targetNode : nat)
  (targetOffset : Z) : Z :=
  walkTextNodes container targetNode targetOffset 0.

(** The text nodes of the container of a segment as the view renders it: one
    node for each span of [renderSegment], numbered from [first] on in the
    order of the spans, and the node of the space that follows them. *)
Fixpoint spanNodes (first : nat) (runs : list Run) : list TextNode :=
  match runs with
  | [] => []
  | r :: rest =>
      {| node := first; textContent := partText r |} :: spanNodes (S first) rest
  end.

Definition segmentTextNodes (runs : list Run) : list TextNode :=
  spanNodes 0 runs ++ [ {| node := length runs; textContent := units " " |} ].

(** [Math.min(anchorOffset, focusOffset)] and
    [Math.max(anchorOffset, focusOffset)] of [handleMouseUp]. *)
Definition selectionRange (anchorOffset focusOffset : Z) : Z * Z :=
  (Z.min anchorOffset focusOffset, Z.max anchorOffset focusOffset).

(** The total length of the texts of some nodes. *)
Definition textLength (nodes : list TextNode) : Z :=
  Z.of_nat (length (concat (textContent <$> nodes))).

(** The note that [onAddHighlight] receives for a selection. *)
Definition highlightNote (index : nat) (content : string) (range : Z * Z)
  (color : string) : Note :=
  {| Types.content := content; transcriptSegmentIndex := Some index;
     highlightStart := Some (fst range); highlightEnd := Some (snd range);
     Types.color := Some color |}.

End Selection.

(** ** Local persistence (services/storageService.ts) *)

Module User.
Record t : Type := { id : string; email : string; name : string }.
End User.

Module StoredUser.
Record t : Type := {
  id : string;
  email : string;
  name : string;
  password : option string;
}.
End StoredUser.

Module Project.
Record t : Type := {
  id : string;
  userId : string;
  name : string;
  createdAt : Z;
  videoFile : option string;     (* the file, named; never persisted *)
  videoUrl : option string;
  duration : option Q;
  isTranscribing : bool;
  transcript : list TranscriptSegment;
}.
End Project.

Module StoredNote.
Inductive NoteType : Type := ORIGINAL | VIDEO | AUDIO.

(** A note with all its fields; [fields] holds those that the transcript
    view reads. *)
Record t : Type := {
  id : string;
  projectId : string;
  type : NoteType;
  timestamp : Q;
  createdAt : Z;
  fields : Note;
}.
End StoredNote.

Module Storage.

(** The four keys of [localStorage] that the service uses.  A key holds the
    value whose JSON text the service wrote under it; [None] is a key that
    was never written or was removed. *)
Record LocalStorage : Type := {
  USERS : option (list StoredUser.t);
  PROJECTS : option (list Project.t);
  NOTES : option (list StoredNote.t);
  CURRENT_USER : option User.t;
}.

Definition set_USERS (v : list StoredUser.t) (ls : LocalStorage) : LocalStorage :=
  {| USERS := Some v; PROJECTS := PROJECTS ls; NOTES := NOTES ls;
     CURRENT_USER := CURRENT_USER ls |}.

Definition set_PROJECTS (v : list Project.t) (ls : LocalStorage) : LocalStorage :=
  {| USERS := USERS ls; PROJECTS := Some v; NOTES := NOTES ls;
     CURRENT_USER := CURRENT_USER ls |}.

Definition set_NOTES (v : list StoredNote.t) (ls : LocalStorage) : LocalStorage :=
  {| USERS := USERS ls; PROJECTS := PROJECTS ls; NOTES := Some v;
     CURRENT_USER := CURRENT_USER ls |}.

Definition set_CURRENT_USER (v : option User.t) (ls : LocalStorage)
  : LocalStorage :=
  {| USERS := USERS ls; PROJECTS := PROJECTS ls; NOTES := NOTES ls;
     CURRENT_USER := v |}.

(** [data ? JSON.parse(data) : []] *)
Definition getStoredUsers (ls : LocalStorage) : list StoredUser.t :=
  default [] (USERS ls).

Definition allProjects (ls : LocalStorage) : list Project.t :=
  default [] (PROJECTS ls).

Definition allNotes (ls : LocalStorage) : list StoredNote.t :=
  default [] (NOTES ls).

(** [const { password: _, ...userToReturn } = user] *)
Definition withoutPassword (u : StoredUser.t) : User.t :=
  {| User.id := StoredUser.id u; User.email := StoredUser.email u;
     User.name := StoredUser.name u |}.

(** [email.split('@')[0]]: what stands before the first [@], the whole
    string when there is none. *)
Fixpoint beforeAt (email : string) : string :=
  match email with
  | EmptyString => EmptyString
  | String c rest =>
      if Ascii.eqb c "@"%char then EmptyString else String c (beforeAt rest)
  end.

(** A thrown [Error] is the left case, with its message. *)
Definition registerUser (uuid email password : string) (ls : LocalStorage)
  : string + (User.t * LocalStorage) :=
  let users := getStoredUsers ls in
  match List.find (fun u => String.eqb (StoredUser.email u) email) users with
  | Some _ => inl "User already exists"%string
  | None =>
      let name := beforeAt email in
      let newUser :=
        {| StoredUser.id := uuid; StoredUser.email := email;
           StoredUser.name := name; StoredUser.password := Some password |} in
      inr (withoutPassword newUser, set_USERS (users ++ [newUser]) ls)
  end.

Definition loginUser (email password : string) (ls : LocalStorage)
  : string + (User.t * LocalStorage) :=
  let users := getStoredUsers ls in
  match List.find (fun u => String.eqb (StoredUser.email u) email) users with
  | None => inl "User not found"%string
  | Some user =>
      if bool_decide (StoredUser.password user = Some password)
      then let userToReturn := withoutPassword user in
           inr (userToReturn, set_CURRENT_USER (Some userToReturn) ls)
      else inl "Invalid password"%string
  end.

Definition getCurrentUser (ls : LocalStorage) : option User.t := CURRENT_USER ls.

Definition logoutUser (ls : LocalStorage) : LocalStorage :=
  set_CURRENT_USER None ls.

Definition guestId : string := "default-guest-user".

Definition initializeGuestSession (ls : LocalStorage) : User.t * LocalStorage :=
  let users := getStoredUsers ls in
  match List.find (fun u => String.eqb (StoredUser.id u) guestId) users with
  | Some guest =>
      let userToReturn := withoutPassword guest in
      (userToReturn, set_CURRENT_USER (Some userToReturn) ls)
  | None =>
      let guest :=
        {| StoredUser.id := guestId;
           StoredUser.email := "guest@commclimb.local";
           StoredUser.name := "Guest";
           StoredUser.password := Some ""%string |} in
      let userToReturn := withoutPassword guest in
      (userToReturn,
       set_CURRENT_USER (Some userToReturn) (set_USERS (users ++ [guest]) ls))
  end.

Definition getProjects (userId : string) (ls : LocalStorage) : list Project.t :=
  List.filter (fun p => String.eqb (Project.userId p) userId) (allProjects ls).

(** [allProjects.findIndex(p => p.id === id)] *)
Fixpoint findIndex (id : string) (ps : list Project.t) : option nat :=
  match ps with
  | [] => None
  | p :: rest =>
      if String.eqb (Project.id p) id then Some 0%nat
      else S <$> findIndex id rest
  end.

(** [{ ...project, videoFile: undefined, videoUrl: undefined }] *)
Definition storedProject (project : Project.t) : Project.t :=
  {| Project.id := Project.id project;
     Project.userId := Project.userId project;
     Project.name := Project.name project;
     Project.createdAt := Project.createdAt project;
     Project.videoFile := None;
     Project.videoUrl := None;
     Project.duration := Project.duration project;
     Project.isTranscribing := Project.isTranscribing project;
     Project.transcript := Project.transcript project |}.

Definition saveProject (project : Project.t) (ls : LocalStorage) : LocalStorage :=
  let allProjects := allProjects ls in
  match findIndex (Project.id project) allProjects with
  | Some existingIndex =>
      set_PROJECTS (<[existingIndex := storedProject project]> allProjects) ls
  | None => set_PROJECTS (allProjects ++ [storedProject project]) ls
  end.

Definition deleteProject (projectId : string) (ls : LocalStorage) : LocalStorage :=
  let ls :=
    set_PROJECTS
      (List.filter (fun p => negb (String.eqb (Project.id p) projectId))
                   (allProjects ls)) ls in
  set_NOTES
    (List.filter (fun n => negb (String.eqb (StoredNote.projectId n) projectId))
                 (allNotes ls)) ls.

(** [sort((a, b) => a.timestamp - b.timestamp)]: a stable sort. *)
Fixpoint insertByTimestamp (x : StoredNote.t) (l : list StoredNote.t)
  : list StoredNote.t :=
  match l with
  | [] => [x]
  | y :: l' =>
      if Qle_bool (StoredNote.timestamp x) (StoredNote.timestamp y)
      then x :: l else y :: insertByTimestamp x l'
  end.

Definition sortByTimestamp (l : list StoredNote.t) : list StoredNote.t :=
  foldr insertByTimestamp [] l.

Definition getNotes (projectId : string) (ls : LocalStorage) : list StoredNote.t :=
  sortByTimestamp
    (List.filter (fun n => String.eqb (StoredNote.projectId n) projectId)
                 (allNotes ls)).

Definition saveNote (note : StoredNote.t) (ls : LocalStorage) : LocalStorage :=
  set_NOTES (allNotes ls ++ [note]) ls.

Definition deleteNote (noteId : string) (ls : LocalStorage) : LocalStorage :=
  set_NOTES
    (List.filter (fun n => negb (String.eqb (StoredNote.id n) noteId))
                 (allNotes ls)) ls.

(** No stored project carries a file or a blob URL. *)
Definition withoutBlobs (ls : LocalStorage) : Prop :=
  Forall (fun p => Project.videoFile p = None /\ Project.videoUrl p = None)
         (allProjects ls).

(** The identifiers of the stored projects are pairwise distinct. *)
Definition distinctProjects (ls : LocalStorage) : Prop :=
  NoDup (Project.id <$> allProjects ls).

(** The e-mail addresses of the stored users are pairwise distinct. *)
Definition distinctEmails (ls : LocalStorage) : Prop :=
  NoDup (StoredUser.email <$> getStoredUsers ls).

Definition empty : LocalStorage :=
  {| USERS := None; PROJECTS := None; NOTES := None; CURRENT_USER := None |}.

(** The calls that write projects and notes, to speak of their sequences. *)
Inductive Command : Type :=
| SaveProject (project : Project.t)
| DeleteProject (projectId : string)
| SaveNote (note : StoredNote.t)
| DeleteNote (noteId : string).

Definition execute (ls : LocalStorage) (c : Command) : LocalStorage :=
  match c with
  | SaveProject project => saveProject project ls
  | DeleteProject projectId => deleteProject projectId ls
  | SaveNote note => saveNote note ls
  | DeleteNote noteId => deleteNote noteId ls
  end.

Definition executeAll (cs : list Command) (ls : LocalStorage) : LocalStorage :=
  fold_left execute cs ls.

(** The order of the notes that [getNotes] returns. *)
Definition byTimestamp (a b : StoredNote.t) : Prop :=
  (StoredNote.timestamp a <= StoredNote.timestamp b)%Q.

End Storage.

(** ** Examples of stored data *)

Module StoredExamples.

Import Storage.

Definition talk : Project.t :=
  {| Project.id := "p1"; Project.userId := guestId; Project.name := "Talk";
     Project.createdAt := 1700000000000;
     Project.videoFile := Some "recording.webm"%string;
     Project.videoUrl := Some "blob:1"%string;
     Project.duration := Some 12%Q; Project.isTranscribing := false;
     Project.transcript := pause_transcript |}.

Definition remark (id projectId : string) (at_ : Q) : StoredNote.t :=
  {| StoredNote.id := id; StoredNote.projectId := projectId;
     StoredNote.type := StoredNote.ORIGINAL; StoredNote.timestamp := at_;
     StoredNote.createdAt := 1700000000500;
     StoredNote.fields :=
       {| content := "remark"; transcriptSegmentIndex := None;
          highlightStart := None; highlightEnd := None; color := None |} |}.

Definition with_notes : LocalStorage :=
  executeAll [ SaveProject talk;
               SaveNote (remark "n1" "p1" 7);
               SaveNote (remark "n2" "p2" 1);
               SaveNote (remark "n3" "p1" 3) ] empty.

End StoredExamples.

Import StoredExamples.

(** ** The clock of the recorder (components/VideoRecorder.tsx) *)

Module VideoRecorder.

(** The decimal digits of a number, most significant first. *)
Fixpoint digitUnits (d : Decimal.uint) : jsstring :=
  match d with
  | Decimal.Nil => []
  | Decimal.D0 r => 48%N :: digitUnits r
  | Decimal.D1 r => 49%N :: digitUnits r
  | Decimal.D2 r => 50%N :: digitUnits r
  | Decimal.D3 r => 51%N :: digitUnits r
  | Decimal.D4 r => 52%N :: digitUnits r
  | Decimal.D5 r => 53%N :: digitUnits r
  | Decimal.D6 r => 54%N :: digitUnits r
  | Decimal.D7 r => 55%N :: digitUnits r
  | Decimal.D8 r => 56%N :: digitUnits r
  | Decimal.D9 r => 57%N :: digitUnits r
  end.

(** The decimal notation of an integer. *)
Definition decimal (n : Z) : jsstring :=
  if n <? 0 then 45%N :: digitUnits (N.to_uint (Z.abs_N n))
  else digitUnits (N.to_uint (Z.to_N n)).

(** [x.toString()] where the embedding covers it: the integers below
    [2^53] in absolute value, which are written with all their digits, the
    infinities and [NaN].  It goes no further ([None]): a number with a
    fraction is written with the shortest digits that give it back, and from
    [1e21] on the notation has an exponent. *)
Definition toString (x : num) : option jsstring :=
  match x with
  | Fin q =>
      let n := Qfloor q in
      if Qeq_bool q (inject_Z n) && (Z.abs n <? 2 ^ 53)
      then Some (decimal n)
      else None
  | PosInf => Some (units "Infinity")
  | NegInf => Some (units "-Infinity")
  | NaN => Some (units "NaN")
  end.

(** [s.padStart(2, '0')] *)
Definition padStart2 (s : jsstring) : jsstring :=
  replicate (2 - length s) 48%N ++ s.

(** [formatTime]: [Math.floor(seconds / 60)], [seconds % 60] and the
    template with the colon; [None] where [toString] is not covered. *)
Definition formatTime (seconds : num) : option jsstring :=
  let m := num_floor (num_div seconds (Fin 60)) in
  let s := num_rem seconds (Fin 60) in
  ms ← toString m;
  ss ← toString s;
  Some (ms ++ [58%N] ++ padStart2 ss).

End VideoRecorder.

(** * Properties *)

(** ** Strings *)

Section StringFacts.

Import SpeakingSpeedView.

Lemma trimStart_head (s : jsstring) (c : N) (r : jsstring) :
  trimStart s = c :: r -> isWhiteSpace c = false.
Proof.
  induction s as [|d s IH]; simpl; [discriminate|].
  destruct (isWhiteSpace d) eqn:Hd; [exact IH|].
  intros [= <- _]. exact Hd.
Qed.

Lemma trimStart_snoc (s : jsstring) (c : N) :
  isWhiteSpace c = false -> trimStart (s ++ [c]) = trimStart s ++ [c].
Proof.
  intros Hc. induction s as [|d s IH]; simpl.
  - now rewrite Hc.
  - destruct (isWhiteSpace d); [exact IH|reflexivity].
Qed.

(** A trimmed string that is not empty starts and ends with a character that
    is not white space. *)
Lemma trim_ends (s : jsstring) (c : N) (r : jsstring) :
  trim s = c :: r ->
  isWhiteSpace c = false /\
  (r = [] \/ exists r' d, r = r' ++ [d] /\ isWhiteSpace d = false).
Proof.
  unfold trim, trimEnd. intros H.
  destruct (trimStart s) as [|c0 u] eqn:Hu; [discriminate|].
  pose proof (trimStart_head _ _ _ Hu) as Hc0.
  simpl rev in H. rewrite (trimStart_snoc _ _ Hc0) in H.
  rewrite rev_app_distr in H. simpl in H. injection H as <- Hr.
  split; [exact Hc0|].
  destruct (trimStart (rev u)) as [|d v] eqn:Hv; simpl in Hr.
  - now left.
  - right. exists (rev v), d. split; [now symmetry|].
    exact (trimStart_head _ _ _ Hv).
Qed.

Lemma ends_in_token_snoc (b : bool) (s : jsstring) (d : N) :
  ends_in_token b (s ++ [d]) = negb (isWhiteSpace d).
Proof. revert b. induction s as [|c s IH]; intros b; simpl; [reflexivity|apply IH]. Qed.

(** The pieces of [split] are one more than the separators met, the tokens
    one more than the separators that are followed by a token. *)
Lemma split_ws_from_length (in_sep : bool) (cur s : jsstring) :
  length (split_ws_from in_sep cur s) =
  (tokens_from (negb in_sep) s
   + (if in_sep then 0 else 1)
   + (if ends_in_token (negb in_sep) s then 0 else 1))%nat.
Proof.
  revert in_sep cur. induction s as [|c s IH]; intros in_sep cur; simpl.
  - destruct in_sep; reflexivity.
  - destruct (isWhiteSpace c) eqn:Hc; simpl.
    + destruct in_sep; simpl; [rewrite IH|rewrite IH]; simpl; lia.
    + rewrite IH. destruct in_sep; simpl; lia.
Qed.

(** On a text with at least one word the length of the split is the number
    of words. *)
Lemma wordCount_tokens (text : jsstring) :
  trim text <> [] -> wordCount text = whitespace_tokens (trim text).
Proof.
  intros Hne. unfold wordCount, whitespace_tokens, split_ws.
  destruct (trim text) as [|c r] eqn:Ht; [congruence|].
  destruct (trim_ends _ _ _ Ht) as [Hc Hr].
  simpl. rewrite Hc. rewrite split_ws_from_length. simpl.
  assert (ends_in_token true r = true) as ->.
  { destruct Hr as [->|(r' & d & -> & Hd)]; [reflexivity|].
    rewrite ends_in_token_snoc, Hd. reflexivity. }
  lia.
Qed.

End StringFacts.

(** ** Rounding to binary64 *)

Section RoundingFacts.

Lemma pow2_pos (e : Z) : (0 < pow2 e)%Q.
Proof. apply Qpower_0_lt. reflexivity. Qed.

Lemma pow2_plus (a b : Z) : (pow2 (a + b) == pow2 a * pow2 b)%Q.
Proof. apply Qpower_plus. discriminate. Qed.

Lemma pow2_le (a b : Z) : a <= b -> (pow2 a <= pow2 b)%Q.
Proof. intros H. apply Qpower_le_compat_l; [exact H|discriminate]. Qed.

Lemma pow2_lt_inv (a b : Z) : (pow2 a < pow2 b)%Q -> a < b.
Proof. intros H. apply (Qpower_lt_compat_l_inv 2); [exact H|reflexivity]. Qed.

Lemma pow2_inject (a : Z) : 0 <= a -> (inject_Z (2 ^ a) == pow2 a)%Q.
Proof. intros H. unfold pow2. now rewrite Zpower_Qpower. Qed.

(** A positive integer lies between the powers of two that its binary
    logarithm names. *)
Lemma log2_bounds (n : Z) :
  0 < n ->
  (pow2 (Z.log2 n) <= inject_Z n)%Q /\ (inject_Z n < pow2 (Z.log2 n + 1))%Q.
Proof.
  intros H. pose proof (Z.log2_nonneg n) as Hl.
  destruct (Z.log2_spec n H) as [H1 H2]. split.
  - rewrite <- pow2_inject by exact Hl. now rewrite <- Zle_Qle.
  - rewrite <- pow2_inject by lia. rewrite <- Zlt_Qlt.
    now rewrite <- Z.add_1_r in H2.
Qed.

Lemma Q_as_fraction (q : Q) :
  (q * inject_Z (Zpos (Qden q)) == inject_Z (Qnum q))%Q.
Proof.
  destruct q as [n d]. unfold Qeq. simpl. rewrite Pos.mul_1_r. ring.
Qed.

Lemma floorLog2_spec (q : Q) :
  (0 < q)%Q ->
  (pow2 (floorLog2 q) <= q)%Q /\ (q < pow2 (floorLog2 q + 1))%Q.
Proof.
  intros Hq.
  assert (0 < Qnum q) as Hn.
  { destruct q as [n d]. unfold Qlt in Hq. simpl in *. lia. }
  destruct (log2_bounds (Qnum q) Hn) as [N1 N2].
  destruct (log2_bounds (Zpos (Qden q)) eq_refl) as [D1 D2].
  pose proof (Q_as_fraction q) as F.
  set (a := Z.log2 (Qnum q)) in *. set (b := Z.log2 (Zpos (Qden q))) in *.
  set (d := inject_Z (Zpos (Qden q))) in *.
  assert (0 < d)%Q as Hd by reflexivity.
  assert (q < pow2 (a - b + 1))%Q as Up.
  { apply Qmult_lt_r with d; [exact Hd|]. rewrite F.
    eapply Qlt_le_trans; [exact N2|].
    replace (a + 1) with ((a - b + 1) + b) by lia. rewrite pow2_plus.
    apply Qmult_le_l; [apply pow2_pos|exact D1]. }
  assert (pow2 (a - b - 1) < q)%Q as Low.
  { apply Qmult_lt_r with d; [exact Hd|]. rewrite F.
    eapply Qlt_le_trans; [|exact N1].
    replace a with ((a - b - 1) + (b + 1)) at 2 by lia. rewrite pow2_plus.
    apply Qmult_lt_l; [apply pow2_pos|exact D2]. }
  unfold floorLog2. fold a b.
  destruct (Qle_bool (pow2 (a - b)) q) eqn:E.
  - apply Qle_bool_iff in E. split; [exact E|exact Up].
  - split; [now apply Qlt_le_weak|].
    replace (a - b - 1 + 1) with (a - b) by lia.
    apply Qnot_le_lt. intros L. apply Qle_bool_iff in L. congruence.
Qed.

Lemma roundEven_floor (x : Q) :
  Qfloor x <= roundEven x <= Qfloor x + 1.
Proof.
  unfold roundEven.
  destruct (Qcompare _ _); [destruct (Z.even _)| |]; lia.
Qed.

(** The nearest integer is within one half. *)
Lemma roundEven_near (x : Q) :
  (x - (1 # 2) <= inject_Z (roundEven x))%Q /\
  (inject_Z (roundEven x) <= x + (1 # 2))%Q.
Proof.
  pose proof (Qfloor_le x) as L. pose proof (Qlt_floor x) as U.
  rewrite inject_Z_plus in U. change (inject_Z 1) with 1%Q in U.
  unfold roundEven.
  destruct (Qcompare_spec (x - inject_Z (Qfloor x)) (1 # 2)) as [E|E|E];
    [destruct (Z.even _)| |];
    rewrite ?inject_Z_plus; change (inject_Z 1) with 1%Q;
    generalize dependent (inject_Z (Qfloor x)); intros f; intros; split; lra.
Qed.

Lemma roundEven_ge (k : Z) (x : Q) : (inject_Z k <= x)%Q -> k <= roundEven x.
Proof.
  intros H. apply Qfloor_resp_le in H. rewrite Qfloor_Z in H.
  pose proof (roundEven_floor x). lia.
Qed.

Lemma roundEven_nonneg (x : Q) : (0 <= x)%Q -> 0 <= roundEven x.
Proof. intros H. now apply roundEven_ge. Qed.

Lemma pow2_nonzero (e : Z) : ~ (pow2 e == 0)%Q.
Proof. pose proof (pow2_pos e). lra. Qed.

Lemma ulp_cases (q : Q) :
  ulp q = floorLog2 q - 52 /\ -1074 <= floorLog2 q - 52 \/
  ulp q = -1074 /\ floorLog2 q - 52 <= -1074.
Proof. unfold ulp. lia. Qed.

(** The spacing of the doubles around a positive [q]. *)
Lemma ulp_bound (q : Q) :
  (0 < q)%Q -> (pow2 (ulp q) <= q * pow2 (-52) + pow2 (-1074))%Q.
Proof.
  intros Hq. destruct (floorLog2_spec q Hq) as [L _].
  pose proof (pow2_pos (-52)). pose proof (pow2_pos (-1074)).
  destruct (ulp_cases q) as [[-> _]|[-> _]].
  - replace (floorLog2 q - 52) with (floorLog2 q + -52) by lia.
    rewrite pow2_plus.
    assert (pow2 (floorLog2 q) * pow2 (-52) <= q * pow2 (-52))%Q
      by (apply Qmult_le_compat_r; [exact L|now apply Qlt_le_weak]).
    lra.
  - assert (0 <= q * pow2 (-52))%Q by (apply Qmult_le_0_compat; lra). lra.
Qed.

Lemma ulp_normal (q : Q) :
  (pow2 (-1022) <= q)%Q -> (pow2 (ulp q) <= q * pow2 (-52))%Q.
Proof.
  intros Hn. assert (0 < q)%Q as Hq.
  { eapply Qlt_le_trans; [apply pow2_pos|exact Hn]. }
  destruct (floorLog2_spec q Hq) as [L U].
  assert (-1022 < floorLog2 q + 1).
  { apply pow2_lt_inv. eapply Qle_lt_trans; eassumption. }
  unfold ulp. rewrite Z.max_l by lia.
  replace (floorLog2 q - 52) with (floorLog2 q + -52) by lia.
  rewrite pow2_plus. apply Qmult_le_compat_r; [exact L|].
  apply Qlt_le_weak, pow2_pos.
Qed.

Lemma nearestMultiple_eq (q : Q) (u : Z) :
  (nearestMultiple q u == inject_Z (roundEven (q / pow2 u)) * pow2 u)%Q.
Proof. apply Qred_correct. Qed.

(** The nearest multiple is within half the spacing. *)
Lemma nearestMultiple_near (q : Q) (u : Z) :
  (q - pow2 u * (1 # 2) <= nearestMultiple q u)%Q /\
  (nearestMultiple q u <= q + pow2 u * (1 # 2))%Q.
Proof.
  rewrite nearestMultiple_eq.
  destruct (roundEven_near (q / pow2 u)) as [L U].
  pose proof (pow2_pos u) as Hp.
  apply (Qmult_le_compat_r _ _ (pow2 u)) in L; [|lra].
  apply (Qmult_le_compat_r _ _ (pow2 u)) in U; [|lra].
  assert (q - pow2 u * (1 # 2) == (q / pow2 u - (1 # 2)) * pow2 u)%Q as E1
    by (field; apply pow2_nonzero).
  assert (q + pow2 u * (1 # 2) == (q / pow2 u + (1 # 2)) * pow2 u)%Q as E2
    by (field; apply pow2_nonzero).
  rewrite E1, E2. split; assumption.
Qed.

Lemma nearestMultiple_nonneg (q : Q) (u : Z) :
  (0 <= q)%Q -> (0 <= nearestMultiple q u)%Q.
Proof.
  intros Hq. rewrite nearestMultiple_eq.
  apply Qmult_le_0_compat; [|apply Qlt_le_weak, pow2_pos].
  change 0%Q with (inject_Z 0). rewrite <- Zle_Qle.
  apply roundEven_nonneg. apply Qle_shift_div_l; [apply pow2_pos|lra].
Qed.

Lemma roundPositive_spec (q : Q) :
  (0 <= q)%Q ->
  match roundPositive q with
  | Some v => (0 <= v)%Q /\ (v < pow2 1024)%Q /\
              (q - pow2 (ulp q) * (1 # 2) <= v)%Q /\
              (v <= q + pow2 (ulp q) * (1 # 2))%Q
  | None => (pow2 1024 <= q + pow2 (ulp q) * (1 # 2))%Q
  end.
Proof.
  intros Hq. unfold roundPositive.
  destruct (nearestMultiple_near q (ulp q)) as [L U]. cbv zeta.
  pose proof (nearestMultiple_nonneg q (ulp q) Hq) as N.
  destruct (Qle_bool (pow2 1024) (nearestMultiple q (ulp q))) eqn:E.
  - apply Qle_bool_iff in E. lra.
  - split_and!; try assumption.
    apply Qnot_le_lt. intros H. apply Qle_bool_iff in H. congruence.
Qed.

Lemma roundDouble_zero (q : Q) : (q == 0)%Q -> roundDouble q = Fin 0.
Proof. intros H. unfold roundDouble. apply Qeq_alt in H. now rewrite H. Qed.

Lemma roundDouble_positive (q : Q) :
  (0 < q)%Q ->
  roundDouble q =
  match roundPositive q with Some v => Fin v | None => PosInf end.
Proof. intros H. unfold roundDouble. apply Qgt_alt in H. now rewrite H. Qed.

(** Rounding keeps the sign. *)
Lemma roundDouble_nonneg (q : Q) :
  (0 <= q)%Q ->
  roundDouble q = PosInf \/ exists v, roundDouble q = Fin v /\ (0 <= v)%Q.
Proof.
  intros H. destruct (Qlt_le_dec 0 q) as [Hq|Hq].
  - rewrite (roundDouble_positive q Hq).
    pose proof (roundPositive_spec q H) as S.
    destruct (roundPositive q) as [v|]; [|now left].
    right. exists v. split; [reflexivity|apply S].
  - right. exists 0%Q. split; [|discriminate].
    apply roundDouble_zero. lra.
Qed.

Lemma half_ulp_bound (q : Q) :
  (0 < q)%Q ->
  (pow2 (ulp q) * (1 # 2) <= q * pow2 (-53) + pow2 (-1075))%Q.
Proof.
  intros Hq. pose proof (ulp_bound q Hq) as H.
  assert (pow2 (-53) == pow2 (-52) * (1 # 2))%Q as -> by reflexivity.
  assert (pow2 (-1075) == pow2 (-1074) * (1 # 2))%Q as -> by reflexivity.
  lra.
Qed.

Lemma half_ulp_normal (q : Q) :
  (pow2 (-1022) <= q)%Q -> (pow2 (ulp q) * (1 # 2) <= q * pow2 (-53))%Q.
Proof.
  intros Hq. pose proof (ulp_normal q Hq) as H.
  assert (pow2 (-53) == pow2 (-52) * (1 # 2))%Q as -> by reflexivity.
  lra.
Qed.

(** No overflow up to [2^1023]; the result is off by at most half the
    spacing. *)
Lemma roundDouble_finite (q : Q) :
  (0 <= q)%Q -> (q <= pow2 1023)%Q ->
  exists v, roundDouble q = Fin v /\ (0 <= v)%Q /\
            (q - (q * pow2 (-53) + pow2 (-1075)) <= v)%Q /\
            (v <= q + (q * pow2 (-53) + pow2 (-1075)))%Q.
Proof.
  intros H0 Hq. destruct (Qlt_le_dec 0 q) as [Hp|Hp].
  - rewrite (roundDouble_positive q Hp).
    pose proof (roundPositive_spec q H0) as S.
    pose proof (half_ulp_bound q Hp) as Hu.
    destruct (roundPositive q) as [v|].
    + exists v. destruct S as (S0 & _ & S1 & S2).
      split; [reflexivity|]. split; [exact S0|]. split; lra.
    + exfalso.
      assert (q * pow2 (-53) <= pow2 1023 * pow2 (-53))%Q
        by (apply Qmult_le_compat_r; [exact Hq|apply Qlt_le_weak, pow2_pos]).
      assert (pow2 1023 + (pow2 1023 * pow2 (-53) + pow2 (-1075)) < pow2 1024)%Q
        by (vm_compute; reflexivity).
      lra.
  - exists 0%Q. split; [apply roundDouble_zero; lra|].
    assert (0 <= q * pow2 (-53))%Q
      by (apply Qmult_le_0_compat; [exact H0|apply Qlt_le_weak, pow2_pos]).
    pose proof (pow2_pos (-1075)).
    split; [discriminate|]. split; lra.
Qed.

(** In the range of the normal doubles the relative error is at most
    [2^-53]. *)
Lemma roundDouble_normal (q : Q) :
  (pow2 (-1022) <= q)%Q -> (q <= pow2 1023)%Q ->
  exists v, roundDouble q = Fin v /\
            (q - q * pow2 (-53) <= v)%Q /\ (v <= q + q * pow2 (-53))%Q.
Proof.
  intros Hn Hq. assert (0 < q)%Q as Hp.
  { eapply Qlt_le_trans; [apply pow2_pos|exact Hn]. }
  destruct (roundDouble_finite q ltac:(lra) Hq) as (v & E & _).
  exists v. split; [exact E|].
  rewrite (roundDouble_positive q Hp) in E.
  pose proof (roundPositive_spec q ltac:(lra)) as S.
  pose proof (half_ulp_normal q Hn) as Hu.
  destruct (roundPositive q) as [v'|]; [|discriminate].
  injection E as ->. destruct S as (_ & _ & S1 & S2). split; lra.
Qed.

Lemma pow2_opp_inject (u : Z) :
  u <= 0 -> (pow2 u * inject_Z (2 ^ (- u)) == 1)%Q.
Proof.
  intros H. rewrite pow2_inject by lia. rewrite <- pow2_plus.
  now replace (u + - u) with 0 by lia.
Qed.

(** Rounding does not cross an integer that is a multiple of the spacing. *)
Lemma nearestMultiple_ge_int (q : Q) (u k : Z) :
  u <= 0 -> (inject_Z k <= q)%Q -> (inject_Z k <= nearestMultiple q u)%Q.
Proof.
  intros Hu Hk. rewrite nearestMultiple_eq.
  pose proof (pow2_pos u) as Hp. pose proof (pow2_opp_inject u Hu) as E.
  assert (k * 2 ^ (- u) <= roundEven (q / pow2 u)) as Hm.
  { apply roundEven_ge. rewrite inject_Z_mult.
    apply Qle_shift_div_l; [exact Hp|].
    rewrite <- Qmult_assoc, (Qmult_comm (inject_Z (2 ^ (- u)))), E. lra. }
  rewrite Zle_Qle, inject_Z_mult in Hm.
  apply (Qmult_le_compat_r _ _ (pow2 u)) in Hm; [|lra].
  eapply Qle_trans; [|exact Hm].
  rewrite <- Qmult_assoc, (Qmult_comm (inject_Z (2 ^ (- u)))), E. lra.
Qed.

Lemma Qfloor_between (v : Q) (k : Z) :
  (inject_Z k <= v)%Q -> (v < inject_Z k + 1)%Q -> Qfloor v = k.
Proof.
  intros L U. pose proof (Qfloor_le v) as F.
  apply Qfloor_resp_le in L. rewrite Qfloor_Z in L.
  assert (inject_Z (Qfloor v) < inject_Z (k + 1))%Q as H
    by (rewrite inject_Z_plus; change (inject_Z 1) with 1%Q; lra).
  rewrite <- Zlt_Qlt in H. lia.
Qed.

End RoundingFacts.

(** ** Speaking rate *)

Section RateFacts.

Import SpeakingSpeedView.

Lemma Qpos_not_zero (q : Q) : Qpos q = true -> Qzero q = false.
Proof.
  unfold Qpos, Qzero. intros H.
  destruct (Qeq_bool q 0) eqn:E; [|reflexivity].
  apply Qeq_bool_iff in E.
  destruct (Qle_bool q 0) eqn:L; [discriminate|].
  assert (Qle_bool q 0 = true) as L'; [|congruence].
  apply Qle_bool_iff. rewrite E. apply Qle_refl.
Qed.

Lemma Qpos_lt (q : Q) : Qpos q = true <-> (0 < q)%Q.
Proof.
  unfold Qpos. rewrite negb_true_iff. split.
  - intros H. apply Qnot_le_lt. intros L. apply Qle_bool_iff in L. congruence.
  - intros H. destruct (Qle_bool q 0) eqn:E; [|reflexivity].
    apply Qle_bool_iff in E. exfalso. exact (Qlt_not_le _ _ H E).
Qed.

Lemma Qle_0_not_pos (q : Q) : (q <= 0)%Q -> Qpos q = false.
Proof.
  intros H. unfold Qpos. apply Qle_bool_iff in H. now rewrite H.
Qed.

(** Under the guard the divisor is never a zero. *)
Lemma guarded_divisor (duration : num) :
  num_gt0 duration = true ->
  duration = PosInf \/ exists d, duration = Fin d /\ ~ (d == 0)%Q.
Proof.
  destruct duration as [d| | |]; simpl; try discriminate.
  - intros H. right. exists d. split; [reflexivity|].
    apply Qpos_lt in H. lra.
  - now left.
Qed.

(** The quotient of the words by a positive duration. *)
Lemma wpmOf_guarded (words : nat) (d : Q) :
  (0 < d)%Q ->
  wpmOf words (Fin d) =
  num_round
    (num_mul (roundDouble (inject_Z (Z.of_nat words) / d)) (Fin 60)) /\
  (0 <= inject_Z (Z.of_nat words) / d)%Q.
Proof.
  intros Hd. pose proof (proj2 (Qpos_lt d) Hd) as Hp. split.
  - unfold wpmOf, num_gt0, num_of_nat, num_div.
    now rewrite Hp, (Qpos_not_zero _ Hp).
  - apply Qle_shift_div_l; [exact Hd|]. rewrite Qmult_0_l.
    change 0%Q with (inject_Z 0). rewrite <- Zle_Qle. lia.
Qed.

Lemma Qfloor_half_nonneg (x : Q) : (0 <= x)%Q -> 0 <= Qfloor (x + (1 # 2)).
Proof.
  intros Hx. change 0 with (Qfloor 0). apply Qfloor_resp_le. lra.
Qed.

(** Scaling to the minute and rounding keep a value that is not negative
    among the rates. *)
Lemma per_minute_rate (x : num) :
  (x = PosInf \/ exists v, x = Fin v /\ (0 <= v)%Q) ->
  rate (num_round (num_mul x (Fin 60))).
Proof.
  intros [->|(v & -> & Hv)]; [now left|].
  cbn [num_mul].
  destruct (roundDouble_nonneg (v * 60)) as [->|(y & -> & Hy)]; [lra|now left|].
  right. eexists. split; [|reflexivity]. now apply Qfloor_half_nonneg.
Qed.

Lemma wpmOf_rate (words : nat) (duration : num) :
  rate (wpmOf words duration).
Proof.
  destruct (num_gt0 duration) eqn:G.
  2:{ unfold wpmOf. rewrite G. right. exists 0. split; [lia|reflexivity]. }
  destruct duration as [d| | |]; try discriminate.
  - apply Qpos_lt in G. destruct (wpmOf_guarded words d G) as [-> Hx].
    apply per_minute_rate, roundDouble_nonneg, Hx.
  - right. exists 0. split; [lia|reflexivity].
Qed.

(** The quotient stays far from the overflow threshold when the duration is
    not absurdly small. *)
Lemma quotient_bounded (words : nat) (d : Q) :
  Z.of_nat words < 2 ^ 53 -> (pow2 (-900) <= d)%Q ->
  (inject_Z (Z.of_nat words) / d <= pow2 953)%Q.
Proof.
  intros Hw Hd. pose proof (pow2_pos (-900)).
  apply Qle_shift_div_r; [lra|].
  apply Qle_trans with (pow2 953 * pow2 (-900))%Q.
  - rewrite <- pow2_plus. rewrite <- pow2_inject by lia.
    rewrite <- Zle_Qle. simpl (953 + -900). lia.
  - apply Qmult_le_l; [apply pow2_pos|exact Hd].
Qed.

Lemma per_minute_finite (x : Q) :
  (0 <= x)%Q -> (x <= pow2 953)%Q ->
  exists k, 0 <= k /\
            num_round (num_mul (roundDouble x) (Fin 60)) = Fin (inject_Z k).
Proof.
  intros H0 Hx.
  destruct (roundDouble_finite x H0) as (v & -> & Hv & _ & Hu).
  { eapply Qle_trans; [exact Hx|]. now apply pow2_le. }
  cbn [num_mul].
  assert (x * pow2 (-53) <= pow2 953 * pow2 (-53))%Q
    by (apply Qmult_le_compat_r; [exact Hx|apply Qlt_le_weak, pow2_pos]).
  assert ((pow2 953 + (pow2 953 * pow2 (-53) + pow2 (-1075))) * 60
          <= pow2 1023)%Q by (vm_compute; discriminate).
  destruct (roundDouble_finite (v * 60)) as (y & -> & Hy & _); [lra|lra|].
  eexists. split; [|reflexivity]. now apply Qfloor_half_nonneg.
Qed.

Lemma wpmOf_finite (words : nat) (d : Q) :
  Z.of_nat words < 2 ^ 53 -> (pow2 (-900) <= d)%Q ->
  exists k, 0 <= k /\ wpmOf words (Fin d) = Fin (inject_Z k).
Proof.
  intros Hw Hd. assert (0 < d)%Q as Hp.
  { eapply Qlt_le_trans; [apply pow2_pos|exact Hd]. }
  destruct (wpmOf_guarded words d Hp) as [-> Hx].
  apply per_minute_finite; [exact Hx|now apply quotient_bounded].
Qed.

Lemma pow2_53 : pow2 (-53) = 1 # 9007199254740992.
Proof. reflexivity. Qed.

Lemma pow2_51 : pow2 (-51) = 1 # 2251799813685248.
Proof. reflexivity. Qed.

(** The two roundings of the scaled quotient add up to a relative error of
    at most [2^-51]. *)
Lemma per_minute_error (x : Q) :
  (pow2 (-900) <= x)%Q -> (x <= pow2 953)%Q ->
  exists y, num_mul (roundDouble x) (Fin 60) = Fin y /\
            (x * 60 - x * 60 * pow2 (-51) <= y)%Q /\
            (y <= x * 60 + x * 60 * pow2 (-51))%Q.
Proof.
  intros Hl Hu. pose proof (pow2_pos (-900)) as Hp.
  destruct (roundDouble_normal x) as (v & -> & V1 & V2).
  { eapply Qle_trans; [|exact Hl]. now apply pow2_le. }
  { eapply Qle_trans; [exact Hu|]. now apply pow2_le. }
  cbn [num_mul]. rewrite pow2_53 in V1, V2.
  assert (pow2 (-1022) <= pow2 (-900) * (1 # 2) * 60)%Q
    by (vm_compute; discriminate).
  assert (pow2 953 * 2 * 60 <= pow2 1023)%Q by (vm_compute; discriminate).
  destruct (roundDouble_normal (v * 60)) as (y & -> & Y1 & Y2); [lra|lra|].
  rewrite pow2_53 in Y1, Y2. rewrite pow2_51.
  exists y. split; [reflexivity|]. split; lra.
Qed.

Lemma mapSegments_spec (n : nat) (transcript : list TranscriptSegment) :
  mapSegments n transcript =
  ((n + sum_list ((fun seg => wordCount (text seg)) <$> transcript))%nat,
   (fun seg => {| seg := seg;
                  seg_wpm := wpmOf (wordCount (text seg))
                               (Fin (endTime seg - Types.startTime seg)%Q) |})
     <$> transcript).
Proof.
  revert n. induction transcript as [|g t IH]; intros n; simpl.
  - f_equal. lia.
  - rewrite IH. simpl. now rewrite Nat.add_assoc.
Qed.

Lemma stats_wpm (transcript : list TranscriptSegment) :
  wpm (stats transcript) =
  wpmOf (totalWords (stats transcript)) (Fin (duration (stats transcript))).
Proof.
  destruct transcript as [|g t]; [reflexivity|].
  unfold stats. rewrite mapSegments_spec. reflexivity.
Qed.

Lemma stats_segments (transcript : list TranscriptSegment) :
  segments (stats transcript) =
  (fun seg => {| seg := seg;
                 seg_wpm := wpmOf (wordCount (text seg))
                              (Fin (endTime seg - Types.startTime seg)%Q) |})
    <$> transcript.
Proof.
  destruct transcript as [|g t]; [reflexivity|].
  unfold stats. rewrite mapSegments_spec. reflexivity.
Qed.

End RateFacts.

Section RateTheorems.

Import SpeakingSpeedView.

(** C3.  The word count of a segment is the length of the split of its
    trimmed text.  On a text with at least one word this is the number of
    white-space delimited tokens ([wordCount_tokens]); on a text that is empty
    or all white space the split still yields one (empty) piece, so the
    segment counts one word although it holds no token. *)
Theorem wordCount_blank (text : jsstring) :
  trim text = [] ->
  wordCount text = 1%nat /\ whitespace_tokens (trim text) = 0%nat.
Proof.
  intros H. unfold wordCount. rewrite H. split; reflexivity.
Qed.

Lemma wordCount_blank_witness :
  trim (units "   ") = [] /\
  wordCount (units "   ") = 1%nat /\
  wordCount (units "") = 1%nat.
Proof.
  split; [reflexivity|]. split.
  - apply (wordCount_blank (units "   ")). reflexivity.
  - apply (wordCount_blank (units "")). reflexivity.
Defined.

(** C7, as the rates are computed.  The rate of a segment and the rate of
    the transcript are computed under a guard on the duration: a duration
    that is not strictly positive (zero, negative or [NaN]) gives the rate 0,
    and under the guard the divisor is never a zero.  Every rate is an
    integer that is not negative or the positive infinity, so never [NaN] and
    never negative.  The infinity comes only from the overflow of the
    quotient: with fewer than [2^53] words and a duration of at least
    [2^-900] seconds the rate is finite.  For instance 10 words in 0 seconds
    give 0 and 150 words in 60 seconds give 150. *)
Theorem wpm_zero_duration_guard
  (transcript : list TranscriptSegment) (words : nat) (duration : num) :
  (num_gt0 duration = false -> wpmOf words duration = Fin 0) /\
  (num_gt0 duration = true ->
   duration = PosInf \/ exists d, duration = Fin d /\ ~ (d == 0)%Q) /\
  rate (wpmOf words duration) /\
  (forall d, duration = Fin d ->
             Z.of_nat words < 2 ^ 53 -> (pow2 (-900) <= d)%Q ->
             integral (wpmOf words duration)) /\
  Forall (fun st =>
            rate (seg_wpm st) /\
            ((endTime (seg st) - Types.startTime (seg st) <= 0)%Q ->
             seg_wpm st = Fin 0) /\
            (Z.of_nat (wordCount (text (seg st))) < 2 ^ 53 ->
             (pow2 (-900) <= endTime (seg st) - Types.startTime (seg st))%Q ->
             integral (seg_wpm st)))
         (segments (stats transcript)) /\
  rate (wpm (stats transcript)) /\
  ((SpeakingSpeedView.duration (stats transcript) <= 0)%Q ->
   wpm (stats transcript) = Fin 0) /\
  (Z.of_nat (totalWords (stats transcript)) < 2 ^ 53 ->
   (pow2 (-900) <= SpeakingSpeedView.duration (stats transcript))%Q ->
   integral (wpm (stats transcript))) /\
  wpmOf 10 (Fin 0) = Fin 0 /\
  wpmOf 150 (Fin 60) = Fin 150.
Proof.
  assert (forall w d, Z.of_nat w < 2 ^ 53 -> (pow2 (-900) <= d)%Q ->
                      integral (wpmOf w (Fin d))) as Hfin.
  { intros w d Hw Hd.
    destruct (wpmOf_finite w d Hw Hd) as (k & _ & ->). now exists k. }
  split_and!.
  - intros G. unfold wpmOf. now rewrite G.
  - apply guarded_divisor.
  - apply wpmOf_rate.
  - intros d ->. apply Hfin.
  - rewrite stats_segments. apply Forall_fmap, Forall_forall.
    intros g _. simpl. split_and!; [apply wpmOf_rate| |apply Hfin].
    intros Hd. unfold wpmOf. simpl. now rewrite (Qle_0_not_pos _ Hd).
  - rewrite stats_wpm. apply wpmOf_rate.
  - intros Hd. rewrite stats_wpm. unfold wpmOf. simpl.
    now rewrite (Qle_0_not_pos _ Hd).
  - rewrite stats_wpm. apply Hfin.
  - reflexivity.
  - reflexivity.
Qed.

Lemma wpm_zero_duration_guard_witness :
  num_gt0 (Fin 0) = false /\ wpmOf 10 (Fin 0) = Fin 0 /\
  num_gt0 NaN = false /\ wpmOf 10 NaN = Fin 0.
Proof.
  split; [reflexivity|]. split.
  - apply (proj1 (wpm_zero_duration_guard [] 10 (Fin 0))). reflexivity.
  - split; [reflexivity|].
    apply (proj1 (wpm_zero_duration_guard [] 10 NaN)). reflexivity.
Defined.

(** C7 does not hold as stated: the duration of [tiny_segment] is positive,
    so the guard lets it through, and the quotient of its one word by its
    duration, [2^1074], is beyond the largest double.  The rate of the
    segment and the rate of the transcript made of it are [Infinity]. *)
Lemma tiny_duration_overflows :
  (0 < endTime tiny_segment - Types.startTime tiny_segment)%Q /\
  num_div (num_of_nat (wordCount (text tiny_segment)))
          (Fin (endTime tiny_segment - Types.startTime tiny_segment))
  = PosInf /\
  wpmOf (wordCount (text tiny_segment))
        (Fin (endTime tiny_segment - Types.startTime tiny_segment))
  = PosInf /\
  seg_wpm <$> segments (stats [tiny_segment]) = [PosInf] /\
  wpm (stats [tiny_segment]) = PosInf /\
  ~ integral (wpm (stats [tiny_segment])).
Proof.
  split_and!; try (vm_compute; reflexivity).
  intros [k H]. vm_compute in H. discriminate H.
Qed.



End RateTheorems.

(** ** Live segmentation *)

Section TrackerFacts.

Import SpeechTracker.

Lemma elapsedSeconds_mono (a b t : Z) :
  a <= b -> (elapsedSeconds a t <= elapsedSeconds b t)%Q.
Proof. intros H. unfold elapsedSeconds, Qle. simpl. lia. Qed.

Lemma handleResult_blank (s : State) (r : SpeechResult) :
  isFinal r = false \/ trim (transcript r) = [] -> handleResult s r = s.
Proof.
  unfold handleResult. intros [->| ->]; [reflexivity|].
  now destruct (isFinal r).
Qed.

Lemma handleResult_word (s : State) (r : SpeechResult) :
  isFinal r = true -> trim (transcript r) <> [] ->
  handleResult s r =
  set_currentSegmentStart (elapsedSeconds (now r) (startTime s))
    (push {| Types.startTime := currentSegmentStart s;
             Types.endTime := elapsedSeconds (now r) (startTime s);
             Types.text := trim (transcript r) |} s).
Proof.
  unfold handleResult. intros -> H.
  destruct (trim (transcript r)); [congruence|reflexivity].
Qed.

Lemma fold_handleResult_blank (rs : list SpeechResult) (s : State) :
  Forall (fun r => isFinal r = false \/ trim (transcript r) = []) rs ->
  fold_left handleResult rs s = s.
Proof.
  induction 1 as [|r rs Hr _ IH]; simpl; [reflexivity|].
  now rewrite (handleResult_blank s r Hr).
Qed.

Lemma nondecreasingStarts_snoc (segs : list TranscriptSegment) (g : TranscriptSegment) :
  nondecreasingStarts segs ->
  Forall (fun a => (Types.startTime a <= Types.startTime g)%Q) segs ->
  nondecreasingStarts (segs ++ [g]).
Proof.
  intros Hs Hall i j a b Hij Ha Hb.
  apply lookup_snoc_Some in Hb as [[Hj Hb]|[Hj <-]].
  - apply lookup_snoc_Some in Ha as [[_ Ha]|[Hi _]]; [|lia].
    exact (Hs i j a b Hij Ha Hb).
  - apply lookup_snoc_Some in Ha as [[_ Ha]|[_ <-]]; [|apply Qle_refl].
    rewrite Forall_forall in Hall. apply Hall.
    apply list_elem_of_lookup. eauto.
Qed.

(** One entry of the results keeps the invariant and moves the bound on the
    clock to its own reading. *)
Lemma handleResult_inv (lo : Z) (s : State) (r : SpeechResult) :
  sessionInv lo s -> lo <= now r ->
  sessionInv (now r) (handleResult s r).
Proof.
  intros (segs & Hl & Hall & Hord & Hcur) Hlo.
  pose proof (elapsedSeconds_mono _ _ (startTime s) Hlo) as Hmono.
  assert (currentSegmentStart s <= elapsedSeconds (now r) (startTime s))%Q
    as Hcur' by (eapply Qle_trans; eassumption).
  destruct (isFinal r) eqn:Hf.
  2:{ rewrite handleResult_blank by now left. now exists segs. }
  destruct (trim (transcript r)) as [|c w] eqn:Ht.
  { rewrite handleResult_blank by now right. now exists segs. }
  rewrite handleResult_word by (rewrite ?Ht; done).
  eexists. split; [|split; [|split]].
  - simpl. rewrite lookup_alter_eq, Hl. reflexivity.
  - simpl. apply Forall_app. split.
    + eapply Forall_impl; [exact Hall|]. simpl. intros g [H1 H2].
      split; [exact H1|]. eapply Qle_trans; eassumption.
    + constructor; [|constructor]. simpl. split; [exact Hcur'|apply Qle_refl].
  - apply nondecreasingStarts_snoc; [exact Hord|].
    eapply Forall_impl; [exact Hall|]. simpl. intros g [H1 H2].
    eapply Qle_trans; eassumption.
  - simpl. apply Qle_refl.
Qed.

Lemma sessionInv_later (lo lo' : Z) (s : State) :
  lo <= lo' -> sessionInv lo s -> sessionInv lo' s.
Proof.
  intros Hlo (segs & Hl & Hall & Hord & Hcur).
  exists segs. repeat split; try assumption.
  eapply Qle_trans; [exact Hcur|]. now apply elapsedSeconds_mono.
Qed.

Lemma fold_handleResult_inv (rs : list SpeechResult) :
  forall (lo : Z) (s : State) (more : list Z),
    Sorted Z.le (lo :: (now <$> List.filter isFinal rs) ++ more) ->
    sessionInv lo s ->
    exists lo', sessionInv lo' (fold_left handleResult rs s) /\
                Sorted Z.le (lo' :: more).
Proof.
  induction rs as [|r rs IH]; intros lo s more Hs Hinv; simpl in *.
  - eauto.
  - destruct (isFinal r) eqn:Hf; simpl in Hs.
    + apply Sorted_inv in Hs as [Hs Hhd]. apply HdRel_inv in Hhd.
      apply (IH (now r)); [exact Hs|]. now apply (handleResult_inv lo).
    + rewrite handleResult_blank by now left. now apply (IH lo).
Qed.

Lemma deliver_inv (c : Callback) (lo : Z) (s : State) (more : list Z) :
  Sorted Z.le (lo :: readings c ++ more) ->
  sessionInv lo s ->
  exists lo', sessionInv lo' (deliver s c) /\ Sorted Z.le (lo' :: more).
Proof.
  intros Hs Hinv. unfold deliver.
  destruct (recognition s).
  2:{ exists lo. split; [exact Hinv|].
      clear Hinv. induction (readings c) as [|x l IH]; [exact Hs|].
      apply IH. simpl in Hs.
      apply Sorted_inv in Hs as [Hs Hhd]. apply HdRel_inv in Hhd.
      destruct (l ++ more) as [|y k] eqn:E.
      - constructor; constructor.
      - apply Sorted_inv in Hs as [Hs Hhd']. apply HdRel_inv in Hhd'.
        constructor; [exact Hs|]. constructor. lia. }
  destruct c as [event| |]; simpl in Hs.
  - now apply (fold_handleResult_inv _ lo).
  - now exists lo.
  - exists lo. split; [|exact Hs]. unfold onend.
    destruct (isListening s); [|exact Hinv].
    destruct Hinv as (segs & ?). now exists segs.
Qed.

Lemma deliverAll_inv (cs : list Callback) :
  forall (lo : Z) (s : State),
    Sorted Z.le (lo :: allReadings cs) ->
    sessionInv lo s ->
    exists lo', sessionInv lo' (deliverAll cs s).
Proof.
  induction cs as [|c cs IH]; intros lo s Hs Hinv; simpl.
  - eauto.
  - unfold allReadings in Hs. simpl in Hs.
    destruct (deliver_inv c lo s _ Hs Hinv) as (lo' & Hinv' & Hs').
    exact (IH lo' _ Hs' Hinv').
Qed.

Lemma start_inv (t0 : Z) (s : State) :
  recognition s = true -> sessionInv t0 (start t0 s).
Proof.
  intros Hr. unfold start. rewrite Hr.
  exists []. simpl. split; [apply lookup_insert_eq|].
  split; [constructor|]. split.
  - intros i j a b _ Ha. rewrite lookup_nil in Ha. discriminate.
  - unfold elapsedSeconds, Qle. simpl. lia.
Qed.

End TrackerFacts.

Section TrackerTheorems.

Import SpeechTracker.

Lemma stop_read (s : State) :
  read (fst (stop s)) (snd (stop s)) = read (segments s) s.
Proof. unfold stop. now destruct (recognition s). Qed.

(** C5.  Take a session started at the instant [t0] and any callbacks of the
    recognizer delivered to it, the clock readings taken while they are
    handled being in non-decreasing order from [t0] on.  In the list of
    segments that [stop] then returns the starts are in non-decreasing order
    and every segment starts no later than it ends. *)
Theorem emitted_segments_ordered (s0 : State) (t0 : Z) (cs : list Callback) :
  recognition s0 = true ->
  Sorted Z.le (t0 :: allReadings cs) ->
  let out := stop (deliverAll cs (start t0 s0)) in
  nondecreasingStarts (read (fst out) (snd out)) /\
  Forall (fun g => (Types.startTime g <= Types.endTime g)%Q)
         (read (fst out) (snd out)).
Proof.
  intros Hr Hs. cbv zeta. rewrite stop_read.
  destruct (deliverAll_inv cs t0 (start t0 s0) Hs (start_inv t0 s0 Hr))
    as (lo & segs & Hl & Hall & Hord & _).
  unfold read. rewrite Hl. simpl. split; [exact Hord|].
  eapply Forall_impl; [exact Hall|]. now intros g [H _].
Qed.

(** C6.  A result whose text trims to the empty string is discarded
    wherever it stands among the results that one browser event delivers,
    spoken ones before and after it included.  [reached] is the tracker when
    the loop of [onresult] comes to the blank result: handling it changes
    nothing, no segment is appended and the cursor stays.  The event as a
    whole, and whatever is delivered after it, is handled as if the blank
    result had never been in it, so the next segment starts where it would
    have started.  When all the results handled are blank the event leaves
    the tracker as it was. *)
Theorem blank_result_discarded
  (s : State) (event : ResultEvent) (before after : list SpeechResult)
  (r : SpeechResult) (cs : list Callback) :
  results event = before ++ r :: after ->
  (resultIndex event <= length before)%nat ->
  trim (transcript r) = [] ->
  let reached :=
    fold_left handleResult (drop (resultIndex event) before) s in
  let without :=
    {| resultIndex := resultIndex event; results := before ++ after |} in
  handleResult reached r = reached /\
  read (segments reached) (handleResult reached r)
  = read (segments reached) reached /\
  currentSegmentStart (handleResult reached r) = currentSegmentStart reached /\
  onresult event s = fold_left handleResult after reached /\
  onresult event s = onresult without s /\
  deliver s (OnResult event) = deliver s (OnResult without) /\
  deliverAll (OnResult event :: cs) s
  = deliverAll (OnResult without :: cs) s /\
  (Forall (fun r' => trim (transcript r') = [])
          (drop (resultIndex event) before ++ after) ->
   deliver s (OnResult event) = s /\
   deliverAll (OnResult event :: cs) s = deliverAll cs s).
Proof.
  intros Hres Hidx Hr. cbv zeta.
  set (reached := fold_left handleResult (drop (resultIndex event) before) s).
  assert (handleResult reached r = reached) as E
    by (apply handleResult_blank; now right).
  assert (onresult event s = fold_left handleResult after reached) as E1.
  { unfold onresult. rewrite Hres, drop_app_le by exact Hidx.
    rewrite fold_left_app. cbn [fold_left]. fold reached. now rewrite E. }
  assert (onresult event s
          = onresult {| resultIndex := resultIndex event;
                        results := before ++ after |} s) as E2.
  { rewrite E1. unfold onresult. cbn [resultIndex results].
    rewrite drop_app_le by exact Hidx. now rewrite fold_left_app. }
  assert (deliver s (OnResult event)
          = deliver s (OnResult {| resultIndex := resultIndex event;
                                   results := before ++ after |})) as E3.
  { unfold deliver. now rewrite E2. }
  split_and!; try assumption; try (now rewrite E).
  - cbn [deliverAll fold_left]. now rewrite E3.
  - intros Hall.
    assert (deliver s (OnResult event) = s) as E4.
    { rewrite E3. unfold deliver, onresult. cbn [resultIndex results].
      destruct (recognition s); [|reflexivity].
      rewrite drop_app_le by exact Hidx.
      apply fold_handleResult_blank.
      eapply Forall_impl; [exact Hall|]. simpl. now right. }
    split; [exact E4|]. cbn [deliverAll fold_left]. now rewrite E4.
Qed.

(** C1, as the tracker is written.  [stop] hands out the reference to the
    working list and marks the session as not listening.  From then on an
    end or error event and a result event without a word change nothing, and
    no restart is asked of the recognizer.  A final result with a word that is
    delivered after [stop] is handled as during the session: its segment is
    appended to the working list, which is the array that [stop] returned, and
    the cursor moves to its end. *)
Theorem stop_then_late_events (s : State) :
  recognition s = true ->
  is_Some (arrays s !! segments s) ->
  let l := fst (stop s) in
  let s' := snd (stop s) in
  l = segments s' /\
  read l s' = read (segments s) s /\
  isListening s' = false /\
  deliver s' OnEnd = s' /\
  deliver s' OnError = s' /\
  (forall event,
      Forall (fun r => isFinal r = false \/ trim (transcript r) = [])
             (drop (resultIndex event) (results event)) ->
      deliver s' (OnResult event) = s') /\
  (forall r,
      isFinal r = true -> trim (transcript r) <> [] ->
      let s'' := deliver s' (OnResult {| resultIndex := 0; results := [r] |}) in
      read l s'' =
        read l s' ++
        [ {| Types.startTime := currentSegmentStart s;
             Types.endTime := elapsedSeconds (now r) (startTime s);
             Types.text := trim (transcript r) |} ] /\
      currentSegmentStart s'' = elapsedSeconds (now r) (startTime s)).
Proof.
  intros Hr [segs Hsegs]. cbv zeta. unfold stop. rewrite Hr. simpl.
  split_and!; try reflexivity.
  - unfold deliver. simpl. now rewrite Hr.
  - unfold deliver. simpl. now rewrite Hr.
  - intros event H. unfold deliver, onresult. simpl. rewrite Hr.
    now apply fold_handleResult_blank.
  - intros r Hf Ht. unfold deliver, onresult. simpl. rewrite Hr. simpl.
    rewrite handleResult_word by assumption. split; [|reflexivity].
    unfold read. simpl. rewrite lookup_alter_eq, Hsegs. reflexivity.
Qed.

End TrackerTheorems.

Section TrackerExamples.

Import SpeechTracker.

Lemma emitted_segments_ordered_witness :
  recognition (new true) = true /\
  Sorted Z.le (1000 :: allReadings demo_callbacks) /\
  read (fst (stop (deliverAll demo_callbacks demo_session)))
       (snd (stop (deliverAll demo_callbacks demo_session))) =
    [ {| Types.startTime := 0; Types.endTime := 1500 # 1000;
         Types.text := units "hello there" |};
      {| Types.startTime := 1500 # 1000; Types.endTime := 3000 # 1000;
         Types.text := units "world" |} ] /\
  nondecreasingStarts
    (read (fst (stop (deliverAll demo_callbacks demo_session)))
          (snd (stop (deliverAll demo_callbacks demo_session)))).
Proof.
  assert (Sorted Z.le (1000 :: allReadings demo_callbacks)) as Hs.
  { vm_compute allReadings. repeat (constructor; try lia). }
  split; [reflexivity|]. split; [exact Hs|]. split; [vm_compute; reflexivity|].
  apply (emitted_segments_ordered (new true) 1000 demo_callbacks eq_refl Hs).
Defined.

Lemma blank_result_discarded_witness :
  results mixed_event
  = [ word_result "hello" 2000 ] ++ word_result "  " 2500
      :: [ word_result "world" 3000 ] /\
  trim (transcript (word_result "  " 2500)) = [] /\
  deliver demo_session (OnResult mixed_event)
  = deliver demo_session (OnResult spoken_event) /\
  read (segments demo_session) (deliver demo_session (OnResult mixed_event))
  = [ {| Types.startTime := 0; Types.endTime := 1000 # 1000;
         Types.text := units "hello" |};
      {| Types.startTime := 1000 # 1000; Types.endTime := 2000 # 1000;
         Types.text := units "world" |} ] /\
  deliver demo_session (OnResult blank_event) = demo_session.
Proof.
  split; [reflexivity|]. split; [reflexivity|]. split; [|split].
  - apply (blank_result_discarded demo_session mixed_event
             [ word_result "hello" 2000 ] [ word_result "world" 3000 ]
             (word_result "  " 2500) []); [reflexivity|simpl; lia|reflexivity].
  - vm_compute. reflexivity.
  - apply (blank_result_discarded demo_session blank_event
             [] [ word_result "" 2100 ] (word_result " " 2000) []);
      [reflexivity|simpl; lia|reflexivity|].
    simpl. repeat constructor.
Defined.

(** C1 does not hold as stated: the result that arrives after [stop] is
    appended to the list that [stop] returned, and the cursor moves. *)
Lemma late_result_is_appended :
  isListening (snd stopped_session) = false /\
  read (fst stopped_session) (snd stopped_session) = [] /\
  read (fst stopped_session) after_late_result =
    [ {| Types.startTime := 0; Types.endTime := 5000 # 1000;
         Types.text := units "thank you" |} ] /\
  currentSegmentStart (snd stopped_session) = 0%Q /\
  currentSegmentStart after_late_result = 5000 # 1000 /\
  after_late_result <> snd stopped_session.
Proof.
  split_and!; try (vm_compute; reflexivity).
  intros H. apply (f_equal currentSegmentStart) in H.
  vm_compute in H. discriminate H.
Qed.

Lemma stop_then_late_events_witness :
  recognition demo_session = true /\
  is_Some (arrays demo_session !! segments demo_session) /\
  isListening (snd (stop demo_session)) = false /\
  deliver (snd (stop demo_session)) OnEnd = snd (stop demo_session).
Proof.
  assert (is_Some (arrays demo_session !! segments demo_session)) as H.
  { exists []. vm_compute. reflexivity. }
  split; [reflexivity|]. split; [exact H|].
  pose proof (stop_then_late_events demo_session eq_refl H) as T.
  cbv zeta in T. destruct T as (_ & _ & T1 & T2 & _).
  split; [exact T1|exact T2].
Defined.

End TrackerExamples.

(** ** Highlight resolution *)

Section SortFacts.

Import TranscriptView.

Lemma elem_of_insertSorted (x y : Z) (l : list Z) :
  y ∈ insertSorted x l <-> y = x \/ y ∈ l.
Proof.
  induction l as [|z l IH]; simpl.
  - rewrite list_elem_of_singleton. split; [now left|].
    intros [?|H]; [assumption|]. now apply elem_of_nil in H.
  - destruct (x <=? z); rewrite !elem_of_cons; [tauto|].
    rewrite IH. tauto.
Qed.

Lemma insertSorted_length (x : Z) (l : list Z) :
  length (insertSorted x l) = S (length l).
Proof.
  induction l as [|z l IH]; simpl; [reflexivity|].
  destruct (x <=? z); simpl; [reflexivity|]. now rewrite IH.
Qed.

Lemma insertSorted_strict (x : Z) (l : list Z) :
  StronglySorted Z.lt l -> x ∉ l -> StronglySorted Z.lt (insertSorted x l).
Proof.
  induction l as [|z l IH]; simpl; intros Hs Hx.
  - repeat constructor.
  - apply StronglySorted_inv in Hs as [Hs Hz].
    apply not_elem_of_cons in Hx as [Hxz Hx].
    destruct (x <=? z) eqn:E.
    + apply Z.leb_le in E. constructor.
      * constructor; assumption.
      * constructor; [lia|]. eapply Forall_impl; [exact Hz|]. simpl. lia.
    + apply Z.leb_gt in E. constructor; [now apply IH|].
      apply Forall_forall. intros y Hy.
      apply elem_of_insertSorted in Hy as [->|Hy]; [exact E|].
      rewrite Forall_forall in Hz. now apply Hz.
Qed.

Lemma elem_of_sortNumeric (y : Z) (l : list Z) : y ∈ sortNumeric l <-> y ∈ l.
Proof.
  induction l as [|x l IH]; simpl; [reflexivity|].
  rewrite elem_of_insertSorted, elem_of_cons, IH. reflexivity.
Qed.

Lemma sortNumeric_length (l : list Z) : length (sortNumeric l) = length l.
Proof.
  induction l as [|x l IH]; simpl; [reflexivity|].
  now rewrite insertSorted_length, IH.
Qed.

(** A list without repetition is sorted into a strictly increasing one. *)
Lemma sortNumeric_strict (l : list Z) :
  NoDup l -> StronglySorted Z.lt (sortNumeric l).
Proof.
  induction 1 as [|x l Hx _ IH]; simpl; [constructor|].
  apply insertSorted_strict; [exact IH|]. now rewrite elem_of_sortNumeric.
Qed.

Lemma sorted_lookup_lt (l : list Z) (i j : nat) (x y : Z) :
  StronglySorted Z.lt l -> (i < j)%nat ->
  l !! i = Some x -> l !! j = Some y -> x < y.
Proof.
  intros Hs. revert i j. induction Hs as [|z l Hs IH Hz]; intros i j Hij Hi Hj.
  - rewrite lookup_nil in Hi. discriminate.
  - destruct j as [|j]; [lia|]. simpl in Hj. destruct i as [|i]; simpl in Hi.
    + injection Hi as <-. rewrite Forall_forall in Hz. apply Hz.
      apply list_elem_of_lookup. eauto.
    + apply (IH i j); [lia|assumption..].
Qed.

Lemma sorted_lookup_le (l : list Z) (i j : nat) (x y : Z) :
  StronglySorted Z.lt l -> (i <= j)%nat ->
  l !! i = Some x -> l !! j = Some y -> x <= y.
Proof.
  intros Hs Hij Hi Hj. destruct (decide (i = j)) as [->|Hne].
  - rewrite Hi in Hj. injection Hj as <-. lia.
  - pose proof (sorted_lookup_lt l i j x y Hs ltac:(lia) Hi Hj). lia.
Qed.

(** No point of a sorted list lies strictly between two neighbours. *)
Lemma sorted_no_point_between (l : list Z) (i : nat) (x y p : Z) :
  StronglySorted Z.lt l -> l !! i = Some x -> l !! S i = Some y ->
  p ∈ l -> p <= x \/ y <= p.
Proof.
  intros Hs Hi Hsi Hp. apply list_elem_of_lookup in Hp as [k Hk].
  destruct (decide (k <= i)%nat).
  - left. exact (sorted_lookup_le l k i p x Hs ltac:(lia) Hk Hi).
  - right. exact (sorted_lookup_le l (S i) k y p Hs ltac:(lia) Hsi Hk).
Qed.

(** Every position from the first point up to the last one lies between two
    neighbours. *)
Lemma sorted_locate (l : list Z) (a b p : Z) :
  head l = Some a -> last l = Some b -> a <= p < b ->
  exists i x y, l !! i = Some x /\ l !! S i = Some y /\ x <= p < y.
Proof.
  revert a. induction l as [|z l IH]; intros a Hh Hl Hp; [discriminate|].
  injection Hh as ->. destruct l as [|z' l].
  - injection Hl as ->. lia.
  - destruct (decide (p < z')).
    + exists 0%nat, a, z'. repeat split; [lia..].
    + destruct (IH z' eq_refl Hl ltac:(lia)) as (i & x & y & Hi & Hsi & Hxy).
      exists (S i), x, y. repeat split; [assumption..|lia|lia].
Qed.

Lemma elem_of_set_add (x y : Z) (points : list Z) :
  y ∈ set_add x points <-> y = x \/ y ∈ points.
Proof.
  unfold set_add. case_bool_decide as H.
  - split; [tauto|]. now intros [->|?].
  - rewrite elem_of_app, list_elem_of_singleton. tauto.
Qed.

Lemma set_add_NoDup (x : Z) (points : list Z) :
  NoDup points -> NoDup (set_add x points).
Proof.
  intros H. unfold set_add. case_bool_decide as Hx; [exact H|].
  apply NoDup_app. split; [exact H|]. split; [|apply NoDup_singleton].
  intros y Hy Hy'. apply list_elem_of_singleton in Hy' as ->. contradiction.
Qed.

Lemma set_add_length (x : Z) (points : list Z) :
  (length (set_add x points) <= S (length points))%nat.
Proof.
  unfold set_add. case_bool_decide; [lia|].
  rewrite length_app. simpl. lia.
Qed.

Lemma clamp_range (len x : Z) : 0 <= len -> 0 <= clamp len x <= len.
Proof. unfold clamp. lia. Qed.

End SortFacts.

Section BoundaryFacts.

Import TranscriptView.

Variable len : Z.
Hypothesis len_nonneg : 0 <= len.

Lemma elem_of_addNotePoints (y : Z) (points : list Z) (n : Note) :
  y ∈ addNotePoints len points n <->
  y ∈ points \/
  (exists a, highlightStart n = Some a /\ y = clamp len a) \/
  (exists b, highlightEnd n = Some b /\ y = clamp len b).
Proof.
  unfold addNotePoints.
  destruct (highlightStart n) as [a|], (highlightEnd n) as [b|];
    rewrite ?elem_of_set_add; split.
  - intros [->|[->|H]]; eauto.
  - intros [H|[(a' & [= <-] & ->)|(b' & [= <-] & ->)]]; auto.
  - intros [->|H]; eauto.
  - intros [H|[(a' & [= <-] & ->)|(b' & [=] & _)]]; auto.
  - intros [->|H]; eauto.
  - intros [H|[(a' & [=] & _)|(b' & [= <-] & ->)]]; auto.
  - auto.
  - intros [H|[(a' & [=] & _)|(b' & [=] & _)]]; auto.
Qed.

Lemma addNotePoints_NoDup (points : list Z) (n : Note) :
  NoDup points -> NoDup (addNotePoints len points n).
Proof.
  intros H. unfold addNotePoints.
  destruct (highlightStart n), (highlightEnd n);
    repeat apply set_add_NoDup; exact H.
Qed.

Lemma addNotePoints_length (points : list Z) (n : Note) :
  (length (addNotePoints len points n) <= 2 + length points)%nat.
Proof.
  unfold addNotePoints.
  destruct (highlightStart n) as [a|], (highlightEnd n) as [b|].
  - pose proof (set_add_length (clamp len b) (set_add (clamp len a) points)).
    pose proof (set_add_length (clamp len a) points). lia.
  - pose proof (set_add_length (clamp len a) points). lia.
  - pose proof (set_add_length (clamp len b) points). lia.
  - lia.
Qed.

Lemma fold_addNotePoints_elem (sn : list Note) (points : list Z) (y : Z) :
  y ∈ fold_left (addNotePoints len) sn points <->
  y ∈ points \/
  exists n, n ∈ sn /\
    ((exists a, highlightStart n = Some a /\ y = clamp len a) \/
     (exists b, highlightEnd n = Some b /\ y = clamp len b)).
Proof.
  revert points. induction sn as [|m sn IH]; intros points; simpl.
  - split; [now left|]. intros [H|(n & H & _)]; [exact H|].
    now apply elem_of_nil in H.
  - rewrite IH, elem_of_addNotePoints. split.
    + intros [[H|H]|(n & Hn & H)].
      * now left.
      * right. exists m. split; [apply elem_of_cons; now left|exact H].
      * right. exists n. split; [apply elem_of_cons; now right|exact H].
    + intros [H|(n & Hn & H)]; [now left; left|].
      apply elem_of_cons in Hn as [->|Hn]; [now left; right|].
      right. now exists n.
Qed.

Lemma fold_addNotePoints_NoDup (sn : list Note) (points : list Z) :
  NoDup points -> NoDup (fold_left (addNotePoints len) sn points).
Proof.
  revert points. induction sn as [|m sn IH]; intros points H; simpl; [exact H|].
  now apply IH, addNotePoints_NoDup.
Qed.

Lemma fold_addNotePoints_length (sn : list Note) (points : list Z) :
  (length (fold_left (addNotePoints len) sn points)
   <= 2 * length sn + length points)%nat.
Proof.
  revert points. induction sn as [|m sn IH]; intros points; simpl; [lia|].
  pose proof (IH (addNotePoints len points m)).
  pose proof (addNotePoints_length points m). lia.
Qed.

Lemma elem_of_boundaryPoints (sn : list Note) (y : Z) :
  y ∈ boundaryPoints len sn <->
  y = 0 \/ y = len \/
  exists n, n ∈ sn /\
    ((exists a, highlightStart n = Some a /\ y = clamp len a) \/
     (exists b, highlightEnd n = Some b /\ y = clamp len b)).
Proof.
  unfold boundaryPoints.
  rewrite fold_addNotePoints_elem, !elem_of_set_add, elem_of_nil. tauto.
Qed.

Lemma boundaryPoints_range (sn : list Note) (y : Z) :
  y ∈ boundaryPoints len sn -> 0 <= y <= len.
Proof.
  rewrite elem_of_boundaryPoints.
  intros [->|[->|(n & _ & [(a & _ & ->)|(b & _ & ->)])]];
    try apply clamp_range; lia.
Qed.

Lemma boundaryPoints_NoDup (sn : list Note) : NoDup (boundaryPoints len sn).
Proof.
  apply fold_addNotePoints_NoDup. repeat apply set_add_NoDup. constructor.
Qed.

Lemma boundaryPoints_length (sn : list Note) :
  (length (boundaryPoints len sn) <= 2 * length sn + 2)%nat.
Proof.
  unfold boundaryPoints.
  pose proof (fold_addNotePoints_length sn (set_add len (set_add 0 []))).
  pose proof (set_add_length len (set_add 0 [])).
  pose proof (set_add_length 0 []). simpl in *. lia.
Qed.

(** The points that [renderSegment] walks through: strictly increasing, from
    0 to the length of the text. *)
Lemma sortedPoints_strict (sn : list Note) :
  StronglySorted Z.lt (sortNumeric (boundaryPoints len sn)).
Proof. apply sortNumeric_strict, boundaryPoints_NoDup. Qed.

Lemma sortedPoints_range (sn : list Note) (y : Z) :
  y ∈ sortNumeric (boundaryPoints len sn) -> 0 <= y <= len.
Proof. rewrite elem_of_sortNumeric. apply boundaryPoints_range. Qed.

Lemma sortedPoints_head (sn : list Note) :
  head (sortNumeric (boundaryPoints len sn)) = Some 0.
Proof.
  pose proof (sortedPoints_strict sn) as Hs.
  pose proof (sortedPoints_range sn) as Hr.
  assert (0 ∈ sortNumeric (boundaryPoints len sn)) as H0.
  { rewrite elem_of_sortNumeric, elem_of_boundaryPoints. now left. }
  destruct (sortNumeric (boundaryPoints len sn)) as [|z l].
  - now apply elem_of_nil in H0.
  - simpl. f_equal. apply elem_of_cons in H0 as [->|H0]; [reflexivity|].
    apply StronglySorted_inv in Hs as [_ Hz]. rewrite Forall_forall in Hz.
    specialize (Hz 0 H0). specialize (Hr z ltac:(apply elem_of_cons; now left)). lia.
Qed.

Lemma sortedPoints_last (sn : list Note) :
  last (sortNumeric (boundaryPoints len sn)) = Some len.
Proof.
  pose proof (sortedPoints_strict sn) as Hs.
  pose proof (sortedPoints_range sn) as Hr.
  assert (len ∈ sortNumeric (boundaryPoints len sn)) as Hl.
  { rewrite elem_of_sortNumeric, elem_of_boundaryPoints. now right; left. }
  destruct (last (sortNumeric (boundaryPoints len sn))) as [z|] eqn:E.
  2:{ apply last_None in E. rewrite E in Hl. now apply elem_of_nil in Hl. }
  f_equal. rewrite last_lookup in E.
  apply list_elem_of_lookup in Hl as [k Hk].
  assert (k <= Nat.pred (length (sortNumeric (boundaryPoints len sn))))%nat.
  { apply lookup_lt_Some in Hk. lia. }
  pose proof (sorted_lookup_le _ _ _ _ _ Hs H Hk E).
  assert (z ∈ sortNumeric (boundaryPoints len sn)) as Hz.
  { apply list_elem_of_lookup. eauto. }
  specialize (Hr z Hz). lia.
Qed.

End BoundaryFacts.

Section SliceFacts.

Import TranscriptView.

Variable text : jsstring.
Variable sn : list Note.

Let len : Z := Z.of_nat (length text).

Lemma substring_slice (a b : Z) :
  0 <= a <= b -> b <= len ->
  substring text a b = take (Z.to_nat (b - a)) (drop (Z.to_nat a) text).
Proof.
  intros Ha Hb. unfold substring. cbv zeta. fold len.
  replace (Z.max 0 (Z.min a len)) with a by lia.
  replace (Z.max 0 (Z.min b len)) with b by lia.
  replace (Z.min a b) with a by lia.
  replace (Z.max a b) with b by lia. reflexivity.
Qed.

Lemma substring_length (a b : Z) :
  0 <= a <= b -> b <= len -> Z.of_nat (length (substring text a b)) = b - a.
Proof.
  intros Ha Hb. rewrite substring_slice by assumption.
  rewrite length_take, length_drop. unfold len in Hb. lia.
Qed.

Lemma substring_truthy (a b : Z) :
  0 <= a < b -> b <= len -> truthy (substring text a b) = true.
Proof.
  intros Ha Hb. pose proof (substring_length a b ltac:(lia) Hb) as H.
  destruct (substring text a b); [simpl in H; lia|reflexivity].
Qed.

Lemma substring_app (a b c : Z) :
  0 <= a <= b -> b <= c <= len ->
  substring text a b ++ substring text b c = substring text a c.
Proof.
  intros Ha Hb. rewrite !substring_slice by lia.
  replace (Z.to_nat b) with (Z.to_nat a + Z.to_nat (b - a))%nat by lia.
  rewrite <- drop_drop, take_take_drop. f_equal. lia.
Qed.

Lemma substring_all : substring text 0 len = text.
Proof.
  rewrite substring_slice by (unfold len; lia).
  rewrite Z.sub_0_r. simpl. rewrite drop_0. apply take_ge.
  unfold len. lia.
Qed.

Lemma sliceRuns_step (a b : Z) (l : list Z) :
  sliceRuns text sn (a :: b :: l) =
  if truthy (substring text a b)
  then runBetween text sn a b :: sliceRuns text sn (b :: l)
  else sliceRuns text sn (b :: l).
Proof. reflexivity. Qed.

Lemma sliceRuns_lookup (sp : list Z) (i : nat) :
  StronglySorted Z.lt sp -> (forall y, y ∈ sp -> 0 <= y <= len) ->
  sliceRuns text sn sp !! i =
  match sp !! i, sp !! S i with
  | Some a, Some b => Some (runBetween text sn a b)
  | _, _ => None
  end.
Proof.
  intros sp_strict. revert i.
  induction sp_strict as [|a l Hs IH Ha]; intros i Hr.
  - simpl. now rewrite !lookup_nil.
  - destruct l as [|b l].
    + destruct i as [|[|i]]; reflexivity.
    + rewrite sliceRuns_step.
      assert (a < b) as Hab.
      { apply Forall_inv in Ha. exact Ha. }
      assert (0 <= a) as Ha0 by (apply Hr, elem_of_cons; now left).
      assert (b <= len) as Hbl.
      { apply Hr. apply elem_of_cons. right. apply elem_of_cons. now left. }
      rewrite substring_truthy by lia.
      destruct i as [|i]; [reflexivity|].
      change ((a :: b :: l) !! S i) with ((b :: l) !! i).
      change ((a :: b :: l) !! S (S i)) with ((b :: l) !! S i).
      rewrite <- IH; [reflexivity|].
      intros y Hy. apply Hr. apply elem_of_cons. now right.
Qed.

Lemma sliceRuns_length (sp : list Z) :
  StronglySorted Z.lt sp -> (forall y, y ∈ sp -> 0 <= y <= len) ->
  length (sliceRuns text sn sp) = Nat.pred (length sp).
Proof.
  induction 1 as [|a l Hs IH Ha]; intros Hr.
  - reflexivity.
  - destruct l as [|b l]; [reflexivity|]. rewrite sliceRuns_step.
    assert (a < b) as Hab by (apply Forall_inv in Ha; exact Ha).
    assert (0 <= a) as Ha0 by (apply Hr, elem_of_cons; now left).
    assert (b <= len) as Hbl.
    { apply Hr. apply elem_of_cons. right. apply elem_of_cons. now left. }
    rewrite substring_truthy by lia. cbn [length].
    rewrite IH; [reflexivity|].
    intros y Hy. apply Hr. apply elem_of_cons. now right.
Qed.

Lemma sliceRuns_shownText (sp : list Z) (a b : Z) :
  StronglySorted Z.lt sp -> (forall y, y ∈ sp -> 0 <= y <= len) ->
  head sp = Some a -> last sp = Some b ->
  shownText (sliceRuns text sn sp) = substring text a b.
Proof.
  intros sp_strict. revert a.
  induction sp_strict as [|z l Hs IH Hz]; intros a Hr Hh Hl.
  - discriminate.
  - injection Hh as ->.
    assert (0 <= a <= len) as Ha0 by (apply Hr, elem_of_cons; now left).
    destruct l as [|c l].
    + injection Hl as ->. simpl. rewrite substring_slice by lia.
      now rewrite Z.sub_diag.
    + rewrite sliceRuns_step.
      assert (a < c) as Hac by (apply Forall_inv in Hz; exact Hz).
      assert (0 <= c <= len) as Hc.
      { apply Hr. apply elem_of_cons. right. apply elem_of_cons. now left. }
      assert (forall y, y ∈ c :: l -> 0 <= y <= len) as Hr'.
      { intros y Hy. apply Hr. apply elem_of_cons. now right. }
      assert (c <= b <= len) as Hb.
      { change (last (a :: c :: l)) with (last (c :: l)) in Hl.
        split.
        - rewrite last_lookup in Hl.
          apply (sorted_lookup_le (c :: l) 0 (Nat.pred (length (c :: l))) c b);
            [exact Hs|lia|reflexivity|exact Hl].
        - apply Hr'. rewrite last_lookup in Hl.
          apply list_elem_of_lookup. eauto. }
      rewrite substring_truthy by lia.
      unfold shownText. rewrite fmap_cons. cbn [concat runBetween partText].
      fold (shownText (sliceRuns text sn (c :: l))).
      rewrite (IH c Hr' eq_refl Hl). apply substring_app; lia.
Qed.

(** What [find] returns on the reversed list: the last element of the list
    that passes the test. *)
Lemma find_rev_Some {A : Type} (f : A -> bool) (l : list A) (x : A) :
  List.find f (rev l) = Some x ->
  exists earlier later,
    l = earlier ++ x :: later /\ f x = true /\
    Forall (fun y => f y = false) later.
Proof.
  induction l as [|y l IH] using rev_ind; [discriminate|].
  rewrite rev_app_distr. simpl. destruct (f y) eqn:Hy.
  - intros [= ->]. exists l, []. split; [reflexivity|]. split; [exact Hy|constructor].
  - intros H. destruct (IH H) as (l1 & l2 & -> & Hx & Hall).
    exists l1, (l2 ++ [y]). split; [now rewrite <- app_assoc|].
    split; [exact Hx|]. apply Forall_app. split; [exact Hall|].
    now constructor.
Qed.

Lemma find_rev_None {A : Type} (f : A -> bool) (l : list A) :
  List.find f (rev l) = None -> Forall (fun y => f y = false) l.
Proof.
  intros H. apply Forall_forall. intros y Hy.
  apply list_elem_of_In in Hy. apply in_rev in Hy.
  exact (find_none f _ H y Hy).
Qed.

(** Every run carries the note that [find] gives at its midpoint. *)
Lemma sliceRuns_active (sp : list Z) (r : Run) :
  r ∈ sliceRuns text sn sp ->
  activeNote r = findActiveNote sn (midpoint (run_start r) (run_end r)).
Proof.
  induction sp as [|a l IH]; simpl; [now rewrite elem_of_nil|].
  destruct l as [|b l]; [now rewrite elem_of_nil|].
  fold (sliceRuns text sn (b :: l)) in *.
  destruct (truthy (substring text a b)); [|exact IH].
  rewrite elem_of_cons. intros [->|H]; [reflexivity|now apply IH].
Qed.

End SliceFacts.

Section ResolverFacts.

Import TranscriptView.

Lemma coversMid_iff (s e : Z) (n : Note) :
  coversMid (midpoint s e) n = true <->
  exists a b, highlightStart n = Some a /\ highlightEnd n = Some b /\
              2 * a <= s + e <= 2 * b.
Proof.
  unfold coversMid.
  destruct (highlightStart n) as [a|], (highlightEnd n) as [b|].
  - rewrite andb_true_iff, !Qle_bool_iff.
    assert ((inject_Z a <= midpoint s e)%Q <-> 2 * a <= s + e) as ->.
    { unfold midpoint, Qle. cbn -[Z.mul Z.add Z.sub]. lia. }
    assert ((midpoint s e <= inject_Z b)%Q <-> s + e <= 2 * b) as ->.
    { unfold midpoint, Qle. cbn -[Z.mul Z.add Z.sub]. lia. }
    split.
    + intros [H1 H2]. exists a, b. auto.
    + intros (a' & b' & [= <-] & [= <-] & H). exact H.
  - split; [discriminate|]. intros (a' & b' & _ & [=] & _).
  - split; [discriminate|]. intros (a' & b' & [=] & _).
  - split; [discriminate|]. intros (a' & b' & [=] & _).
Qed.

Variable notes : list Note.
Variable segment : TranscriptSegment.
Variable index : nat.

Let sn : list Note := notesOfSegment notes index.
Let len : Z := Z.of_nat (length (text segment)).
Let sp : list Z := sortNumeric (boundaryPoints len sn).

Let len_nonneg : 0 <= len.
Proof. unfold len. lia. Qed.

Lemma renderSegment_cases :
  (sn = [] /\
   renderSegment notes segment index =
     [ {| run_start := 0; run_end := len; partText := text segment;
          activeNote := None |} ]) \/
  (sn <> [] /\ renderSegment notes segment index = sliceRuns (text segment) sn sp).
Proof.
  unfold renderSegment. fold sn. destruct sn as [|n l] eqn:E.
  - left. split; reflexivity.
  - right. split; [discriminate|]. simpl. subst sp len. rewrite <- E. reflexivity.
Qed.

(** In the list cut along the sorted points, a run is the pair of two
    neighbouring points. *)
Lemma sliced_run (i : nat) (r : Run) :
  sliceRuns (text segment) sn sp !! i = Some r <->
  exists a b, sp !! i = Some a /\ sp !! S i = Some b /\
              r = runBetween (text segment) sn a b.
Proof.
  rewrite sliceRuns_lookup;
    [|apply sortedPoints_strict|apply sortedPoints_range, len_nonneg].
  fold len sp. destruct (sp !! i) as [a|], (sp !! S i) as [b|]; split.
  - intros [= <-]. eauto.
  - intros (a' & b' & [= <-] & [= <-] & ->). reflexivity.
  - discriminate.
  - intros (a' & b' & _ & [=] & _).
  - discriminate.
  - intros (a' & b' & [=] & _).
  - discriminate.
  - intros (a' & b' & [=] & _).
Qed.

Lemma neighbours_range (i : nat) (a b : Z) :
  sp !! i = Some a -> sp !! S i = Some b -> 0 <= a /\ a < b /\ b <= len.
Proof.
  intros Ha Hb.
  pose proof (sorted_lookup_lt sp i (S i) a b (sortedPoints_strict len sn)
                ltac:(lia) Ha Hb).
  assert (a ∈ sp) as Ha' by (apply list_elem_of_lookup; eauto).
  assert (b ∈ sp) as Hb' by (apply list_elem_of_lookup; eauto).
  apply (sortedPoints_range len len_nonneg) in Ha', Hb'. lia.
Qed.

Lemma render_shownText :
  shownText (renderSegment notes segment index) = text segment.
Proof.
  destruct renderSegment_cases as [[_ ->]|[_ ->]].
  - unfold shownText. simpl. apply app_nil_r.
  - rewrite (sliceRuns_shownText _ _ sp 0 len).
    + apply substring_all.
    + apply sortedPoints_strict.
    + apply sortedPoints_range, len_nonneg.
    + apply sortedPoints_head, len_nonneg.
    + apply sortedPoints_last, len_nonneg.
Qed.

Lemma render_runs_slices (r : Run) :
  r ∈ renderSegment notes segment index ->
  0 <= run_start r <= run_end r /\ run_end r <= len /\
  partText r = substring (text segment) (run_start r) (run_end r).
Proof.
  destruct renderSegment_cases as [[_ ->]|[_ ->]].
  - rewrite list_elem_of_singleton. intros ->. simpl.
    fold len. rewrite substring_all. split; [lia|]. split; [lia|reflexivity].
  - intros Hr. apply list_elem_of_lookup in Hr as [i Hi].
    apply sliced_run in Hi as (a & b & Ha & Hb & ->). simpl.
    pose proof (neighbours_range i a b Ha Hb). split; [lia|]. split; [lia|reflexivity].
Qed.

Lemma render_tiles : tiles len (renderSegment notes segment index).
Proof.
  intros p Hp. destruct renderSegment_cases as [[_ ->]|[_ ->]].
  - eexists 0%nat, _. split; [reflexivity|]. simpl. split; [lia|].
    intros [|j] r' Hj _; [reflexivity|]. simpl in Hj.
    rewrite lookup_nil in Hj. discriminate.
  - destruct (sorted_locate sp 0 len p) as (i & x & y & Hi & Hsi & Hxy).
    { apply sortedPoints_head, len_nonneg. }
    { apply sortedPoints_last, len_nonneg. }
    { exact Hp. }
    exists i, (runBetween (text segment) sn x y).
    split; [apply sliced_run; eauto|]. split; [exact Hxy|].
    intros j r' Hj Hr'. apply sliced_run in Hj as (a & b & Ha & Hb & ->).
    simpl in Hr'. pose proof (sortedPoints_strict len sn) as Hs. fold sp in Hs.
    destruct (lt_eq_lt_dec j i) as [[Hlt|Heq]|Hgt]; [|exact Heq|].
    + pose proof (sorted_lookup_le sp (S j) i b x Hs ltac:(lia) Hb Hi). lia.
    + pose proof (sorted_lookup_le sp (S i) j y a Hs ltac:(lia) Hsi Ha). lia.
Qed.

Lemma render_count :
  (length (renderSegment notes segment index) <= 2 * length sn + 1)%nat.
Proof.
  destruct renderSegment_cases as [[_ ->]|[_ ->]]; [simpl; lia|].
  rewrite sliceRuns_length;
    [|apply sortedPoints_strict|apply sortedPoints_range, len_nonneg].
  unfold sp. rewrite sortNumeric_length.
  pose proof (boundaryPoints_length len sn). lia.
Qed.

(** The note of a run is the last note of the segment that covers the
    midpoint of the run. *)
Lemma render_active (r : Run) :
  r ∈ renderSegment notes segment index ->
  activeNote r = findActiveNote sn (midpoint (run_start r) (run_end r)) \/
  (sn = [] /\ activeNote r = None).
Proof.
  destruct renderSegment_cases as [[E ->]|[_ ->]].
  - rewrite list_elem_of_singleton. intros ->. now right.
  - intros H. left. exact (sliceRuns_active _ _ _ _ H).
Qed.

Lemma active_is_last_cover (r : Run) (w : Note) :
  r ∈ renderSegment notes segment index ->
  activeNote r = Some w ->
  exists earlier later,
    sn = earlier ++ w :: later /\ covers w r /\
    Forall (fun m => ~ covers m r) later.
Proof.
  intros Hr Hw. destruct (render_active r Hr) as [E|[_ E]]; [|congruence].
  rewrite Hw in E. symmetry in E. apply find_rev_Some in E
    as (l1 & l2 & E & Hc & Hall).
  exists l1, l2. split; [exact E|]. split; [exact Hc|].
  eapply Forall_impl; [exact Hall|]. simpl. unfold covers. congruence.
Qed.

Lemma cover_has_winner (r : Run) (n : Note) :
  r ∈ renderSegment notes segment index ->
  n ∈ sn -> covers n r -> exists w, activeNote r = Some w.
Proof.
  intros Hr Hn Hc. destruct (render_active r Hr) as [E|[E _]].
  - destruct (activeNote r) as [w|]; [eauto|].
    symmetry in E. apply find_rev_None in E. rewrite Forall_forall in E.
    specialize (E n Hn). unfold covers in Hc. congruence.
  - rewrite E in Hn. now apply elem_of_nil in Hn.
Qed.

(** For a note of the segment, covering the midpoint of a run and spanning
    the whole run are the same. *)
Lemma covers_iff_spans (r : Run) (n : Note) :
  r ∈ renderSegment notes segment index -> n ∈ sn ->
  covers n r <-> spans len n r.
Proof.
  intros Hr Hn. destruct renderSegment_cases as [[E _]|[_ Hrun]].
  { rewrite E in Hn. now apply elem_of_nil in Hn. }
  rewrite Hrun in Hr. apply list_elem_of_lookup in Hr as [i Hi].
  apply sliced_run in Hi as (s & e & Hs & He & ->).
  pose proof (neighbours_range i s e Hs He) as Hse.
  unfold covers, spans. simpl. rewrite coversMid_iff.
  split; intros (a & b & Ha & Hb & H); exists a, b;
    (split; [exact Ha|]); (split; [exact Hb|]).
  - assert (clamp len a ∈ sp) as Pa.
    { apply elem_of_sortNumeric, elem_of_boundaryPoints. right; right.
      exists n. split; [exact Hn|]. left. eauto. }
    assert (clamp len b ∈ sp) as Pb.
    { apply elem_of_sortNumeric, elem_of_boundaryPoints. right; right.
      exists n. split; [exact Hn|]. right. eauto. }
    pose proof (sortedPoints_strict len sn) as Hsort. fold sp in Hsort.
    pose proof (sorted_no_point_between sp i s e _ Hsort Hs He Pa) as Ka.
    pose proof (sorted_no_point_between sp i s e _ Hsort Hs He Pb) as Kb.
    unfold clamp in *. lia.
  - unfold clamp in H. lia.
Qed.

End ResolverFacts.

Section ResolverTheorems.

Import TranscriptView.

(** C2.  The runs of a segment, read in order, give back the text of the
    segment; each run is the slice of the text between its bounds; every
    position of the text lies in exactly one run; and with [N] notes on the
    segment there are at most [2 N + 1] runs. *)
Theorem resolver_partition
  (notes : list Note) (segment : TranscriptSegment) (index : nat) :
  let runs := renderSegment notes segment index in
  let len := Z.of_nat (length (text segment)) in
  shownText runs = text segment /\
  Forall (fun r => 0 <= run_start r <= run_end r /\ run_end r <= len /\
                   partText r = substring (text segment) (run_start r) (run_end r))
         runs /\
  tiles len runs /\
  (length runs <= 2 * length (notesOfSegment notes index) + 1)%nat.
Proof.
  cbv zeta. split_and!.
  - apply render_shownText.
  - apply Forall_forall. intros r Hr. now apply (render_runs_slices notes segment index).
  - apply render_tiles.
  - apply render_count.
Qed.

(** C4.  When notes of the segment cover the midpoint of a run, the run
    carries one of them, and the note it carries is the one that comes last
    in the list of the notes of the segment among those that cover the
    midpoint.  With the ranges 0 to 5 and 3 to 8 added in this order on a text
    of 8 characters, the run from 3 to 5 carries the second note. *)
Theorem overlap_last_writer_wins :
  (forall (notes : list Note) (segment : TranscriptSegment) (index : nat)
          (r : Run),
      r ∈ renderSegment notes segment index ->
      (forall n, n ∈ notesOfSegment notes index -> covers n r ->
                 exists w, activeNote r = Some w) /\
      (forall w, activeNote r = Some w ->
                 exists earlier later,
                   notesOfSegment notes index = earlier ++ w :: later /\
                   covers w r /\ Forall (fun m => ~ covers m r) later)) /\
  renderSegment [first_note; second_note] eight_chars 0 !! 1%nat =
    Some {| run_start := 3; run_end := 5; partText := units "de";
            activeNote := Some second_note |}.
Proof.
  split; [|reflexivity]. intros notes segment index r Hr. split.
  - intros n Hn Hc. exact (cover_has_winner notes segment index r n Hr Hn Hc).
  - intros w Hw. exact (active_is_last_cover notes segment index r w Hr Hw).
Qed.

Lemma overlap_last_writer_wins_witness :
  overlap_run ∈ renderSegment [first_note; second_note] eight_chars 0 /\
  covers first_note overlap_run /\ covers second_note overlap_run /\
  exists earlier later,
    notesOfSegment [first_note; second_note] 0 = earlier ++ second_note :: later /\
    covers second_note overlap_run /\
    Forall (fun m => ~ covers m overlap_run) later.
Proof.
  assert (overlap_run ∈ renderSegment [first_note; second_note] eight_chars 0)
    as Hr.
  { apply list_elem_of_lookup. exists 1%nat. reflexivity. }
  split; [exact Hr|]. split; [reflexivity|]. split; [reflexivity|].
  destruct (proj1 overlap_last_writer_wins _ _ _ _ Hr) as [_ Hw].
  exact (Hw second_note eq_refl).
Defined.

(** C9.  A note whose clamped start lies after its clamped end is never the
    note of a run, and with it among the notes the runs still give back the
    whole text and every position still lies in exactly one run. *)
Theorem malformed_note_never_wins
  (notes : list Note) (segment : TranscriptSegment) (index : nat) (n : Note) :
  malformed (Z.of_nat (length (text segment))) n ->
  (forall r, r ∈ renderSegment notes segment index -> activeNote r <> Some n) /\
  shownText (renderSegment notes segment index) = text segment /\
  tiles (Z.of_nat (length (text segment))) (renderSegment notes segment index).
Proof.
  intros (a & b & Ha & Hb & Hab). split_and!.
  - intros r Hr Hn.
    destruct (active_is_last_cover notes segment index r n Hr Hn)
      as (_ & _ & _ & Hc & _).
    apply coversMid_iff in Hc as (a' & b' & Ha' & Hb' & H).
    rewrite Ha in Ha'. rewrite Hb in Hb'.
    injection Ha' as <-. injection Hb' as <-.
    unfold clamp in Hab. lia.
  - apply render_shownText.
  - apply render_tiles.
Qed.

Lemma malformed_note_never_wins_witness :
  malformed 8 inverted_note /\
  (forall r, r ∈ renderSegment [first_note; inverted_note] eight_chars 0 ->
             activeNote r <> Some inverted_note) /\
  shownText (renderSegment [first_note; inverted_note] eight_chars 0) =
    units "abcdefgh".
Proof.
  assert (malformed 8 inverted_note) as M.
  { exists 6, 2. split; [reflexivity|]. split; [reflexivity|].
    unfold clamp. lia. }
  split; [exact M|].
  destruct (malformed_note_never_wins [first_note; inverted_note]
              eight_chars 0 inverted_note M) as (H1 & H2 & _).
  split; [exact H1|exact H2].
Defined.

(** C10.  The note that a run carries spans the whole run: its clamped
    start is at or before the start of the run and its clamped end at or
    after the end of the run.  For every note of the segment, covering the
    midpoint of a run and spanning the run are equivalent. *)
Theorem winner_spans_run
  (notes : list Note) (segment : TranscriptSegment) (index : nat) (r : Run) :
  r ∈ renderSegment notes segment index ->
  (forall w, activeNote r = Some w ->
             spans (Z.of_nat (length (text segment))) w r) /\
  (forall n, n ∈ notesOfSegment notes index ->
             (covers n r <-> spans (Z.of_nat (length (text segment))) n r)).
Proof.
  intros Hr. split.
  - intros w Hw.
    destruct (active_is_last_cover notes segment index r w Hr Hw)
      as (l1 & l2 & E & Hc & _).
    assert (w ∈ notesOfSegment notes index) as Hin.
    { rewrite E. apply elem_of_app. right. apply elem_of_cons. now left. }
    exact (proj1 (covers_iff_spans notes segment index r w Hr Hin) Hc).
  - intros n Hn. exact (covers_iff_spans notes segment index r n Hr Hn).
Qed.

Lemma winner_spans_run_witness :
  overlap_run ∈ renderSegment [first_note; second_note] eight_chars 0 /\
  spans 8 second_note overlap_run.
Proof.
  assert (overlap_run ∈ renderSegment [first_note; second_note] eight_chars 0)
    as Hr.
  { apply list_elem_of_lookup. exists 1%nat. reflexivity. }
  split; [exact Hr|].
  exact (proj1 (winner_spans_run _ _ _ _ Hr) second_note eq_refl).
Defined.

End ResolverTheorems.

(** ** Sessions of the tracker *)

Section SessionFacts.

Import SpeechTracker Sessions.

Lemma trimStart_keeps (c : N) (s : jsstring) :
  isWhiteSpace c = false -> trimStart (c :: s) = c :: s.
Proof. intros H. simpl. now rewrite H. Qed.

Lemma trim_idempotent (s : jsstring) : trim (trim s) = trim s.
Proof.
  destruct (trim s) as [|c r] eqn:E; [reflexivity|].
  destruct (trim_ends _ _ _ E) as [Hc Hr].
  unfold trim, trimEnd. rewrite (trimStart_keeps c r Hc).
  destruct Hr as [->|(r' & d & -> & Hd)].
  - simpl. now rewrite Hc.
  - rewrite app_comm_cons, rev_unit, (trimStart_keeps d _ Hd).
    rewrite <- rev_unit. apply rev_involutive.
Qed.

(** What one entry of the results leaves alone. *)
Lemma handleResult_fields (s : State) (r : SpeechResult) :
  recognition (handleResult s r) = recognition s /\
  isListening (handleResult s r) = isListening s /\
  segments (handleResult s r) = segments s /\
  startTime (handleResult s r) = startTime s /\
  calls (handleResult s r) = calls s.
Proof.
  unfold handleResult.
  destruct (isFinal r), (truthy (trim (transcript r))); repeat split.
Qed.

Lemma handleResult_other (s : State) (r : SpeechResult) (l : nat) :
  l <> segments s -> arrays (handleResult s r) !! l = arrays s !! l.
Proof.
  intros Hl. unfold handleResult.
  destruct (isFinal r), (truthy (trim (transcript r))); try reflexivity.
  simpl. now rewrite lookup_alter_ne.
Qed.

Lemma fold_handleResult_fields (rs : list SpeechResult) (s : State) :
  recognition (fold_left handleResult rs s) = recognition s /\
  isListening (fold_left handleResult rs s) = isListening s /\
  segments (fold_left handleResult rs s) = segments s /\
  startTime (fold_left handleResult rs s) = startTime s /\
  calls (fold_left handleResult rs s) = calls s.
Proof.
  revert s. induction rs as [|r rs IH]; intros s; simpl; [repeat split|].
  destruct (IH (handleResult s r)) as (-> & -> & -> & -> & ->).
  apply handleResult_fields.
Qed.

Lemma fold_handleResult_other (rs : list SpeechResult) (s : State) (l : nat) :
  l <> segments s -> arrays (fold_left handleResult rs s) !! l = arrays s !! l.
Proof.
  revert s. induction rs as [|r rs IH]; intros s Hl; simpl; [reflexivity|].
  rewrite IH.
  - now apply handleResult_other.
  - now destruct (handleResult_fields s r) as (_ & _ & -> & _).
Qed.

Lemma deliver_fields (s : State) (c : Callback) :
  recognition (deliver s c) = recognition s /\
  isListening (deliver s c) = isListening s /\
  segments (deliver s c) = segments s /\
  startTime (deliver s c) = startTime s.
Proof.
  unfold deliver. destruct (recognition s) eqn:Hr; [|now rewrite Hr].
  destruct c as [event| |].
  - unfold onresult.
    destruct (fold_handleResult_fields
                (drop (resultIndex event) (results event)) s)
      as (-> & -> & -> & -> & _). now rewrite Hr.
  - unfold onerror. now rewrite Hr.
  - unfold onend. destruct (isListening s) eqn:Hl; simpl; now rewrite ?Hr, ?Hl.
Qed.

Lemma deliverAll_fields (cs : list Callback) (s : State) :
  recognition (deliverAll cs s) = recognition s /\
  isListening (deliverAll cs s) = isListening s /\
  segments (deliverAll cs s) = segments s /\
  startTime (deliverAll cs s) = startTime s.
Proof.
  revert s. induction cs as [|c cs IH]; intros s; simpl; [repeat split|].
  destruct (IH (deliver s c)) as (-> & -> & -> & ->). apply deliver_fields.
Qed.

Lemma deliver_other (s : State) (c : Callback) (l : nat) :
  l <> segments s -> arrays (deliver s c) !! l = arrays s !! l.
Proof.
  intros Hl. unfold deliver. destruct (recognition s); [|reflexivity].
  destruct c as [event| |].
  - now apply fold_handleResult_other.
  - reflexivity.
  - unfold onend. now destruct (isListening s).
Qed.

Lemma deliverAll_other (cs : list Callback) (s : State) (l : nat) :
  l <> segments s -> arrays (deliverAll cs s) !! l = arrays s !! l.
Proof.
  revert s. induction cs as [|c cs IH]; intros s Hl; simpl; [reflexivity|].
  rewrite IH.
  - now apply deliver_other.
  - now destruct (deliver_fields s c) as (_ & _ & -> & _).
Qed.

(** Induction over a session: a property of the working list and the cursor
    that survives the appending of a segment that starts at the cursor and
    carries a trimmed text with a word holds throughout. *)
Section SessionInduction.

Variable P : list TranscriptSegment -> Q -> Prop.

Hypothesis P_push :
  forall segs cur txt e,
    P segs cur -> txt <> [] -> trim txt = txt ->
    P (segs ++ [ {| Types.startTime := cur; Types.endTime := e;
                    Types.text := txt |} ]) e.

Lemma handleResult_holds (s : State) (r : SpeechResult) :
  holdsIn P s -> holdsIn P (handleResult s r).
Proof.
  intros (segs & Hl & HP).
  destruct (isFinal r) eqn:Hf.
  2:{ rewrite handleResult_blank by now left. now exists segs. }
  destruct (trim (transcript r)) as [|c w] eqn:Ht.
  { rewrite handleResult_blank by now right. now exists segs. }
  rewrite handleResult_word by (rewrite ?Ht; done).
  eexists. split.
  - simpl. rewrite lookup_alter_eq, Hl. reflexivity.
  - simpl. apply P_push; [exact HP|rewrite Ht; discriminate|].
    apply trim_idempotent.
Qed.

Lemma deliver_holds (s : State) (c : Callback) :
  holdsIn P s -> holdsIn P (deliver s c).
Proof.
  intros H. unfold deliver. destruct (recognition s); [|exact H].
  destruct c as [event| |].
  - unfold onresult.
    generalize (drop (resultIndex event) (results event)). intros rs.
    revert s H. induction rs as [|r rs IH]; intros s H; simpl; [exact H|].
    now apply IH, handleResult_holds.
  - exact H.
  - unfold onend. destruct (isListening s); [|exact H].
    destruct H as (segs & H). now exists segs.
Qed.

Lemma deliverAll_holds (cs : list Callback) (s : State) :
  holdsIn P s -> holdsIn P (deliverAll cs s).
Proof.
  revert s. induction cs as [|c cs IH]; intros s H; simpl; [exact H|].
  now apply IH, deliver_holds.
Qed.

Lemma session_holds (s0 : State) (t0 : Z) (cs : list Callback) :
  recognition s0 = true -> P [] 0%Q ->
  exists segs,
    read (fst (stop (deliverAll cs (start t0 s0))))
         (snd (stop (deliverAll cs (start t0 s0)))) = segs /\
    P segs (currentSegmentStart (deliverAll cs (start t0 s0))).
Proof.
  intros Hr H0. rewrite stop_read.
  destruct (deliverAll_holds cs (start t0 s0)) as (segs & Hl & HP).
  - exists []. unfold start. rewrite Hr. simpl.
    split; [apply lookup_insert_eq|exact H0].
  - exists segs. unfold read. rewrite Hl. split; [reflexivity|exact HP].
Qed.

End SessionInduction.

End SessionFacts.

Section SessionTheorems.

Import SpeakingSpeedView SpeechTracker Sessions.

(** X1.  In the list that [stop] returns after a session, the first segment
    starts at 0 and every other segment starts exactly where the one before
    it ended; the cursor stands at the end of the last segment.  No
    assumption on the clock is needed. *)
Theorem segments_abut (s0 : State) (t0 : Z) (cs : list Callback) :
  recognition s0 = true ->
  let s := deliverAll cs (start t0 s0) in
  abutting (read (fst (stop s)) (snd (stop s))) /\
  currentSegmentStart s = cursorAfter (read (fst (stop s)) (snd (stop s))).
Proof.
  intros Hr. cbv zeta.
  pose (P := fun (segs : list TranscriptSegment) (cur : Q) =>
               abutting segs /\ cur = cursorAfter segs).
  assert (forall segs cur txt e,
             P segs cur -> txt <> [] -> trim txt = txt ->
             P (segs ++ [ {| Types.startTime := cur; Types.endTime := e;
                             Types.text := txt |} ]) e) as Hstep.
  { intros segs cur txt e [[Hh Hn] Hc] _ _. split; [split|].
    - intros g Hg. destruct segs as [|g0 segs]; simpl in Hg.
      + injection Hg as <-. simpl. now rewrite Hc.
      + apply Hh. exact Hg.
    - intros i a b Ha Hb.
      apply lookup_snoc_Some in Hb as [[Hi Hb]|[Hi <-]].
      + rewrite lookup_app_l in Ha by lia. exact (Hn i a b Ha Hb).
      + rewrite lookup_app_l in Ha by lia. simpl.
        rewrite Hc. unfold cursorAfter. rewrite last_lookup.
        replace (Nat.pred (length segs)) with i by lia. now rewrite Ha.
    - unfold cursorAfter. now rewrite last_snoc. }
  assert (P [] 0%Q) as H0.
  { split; [|reflexivity]. split; [discriminate|].
    intros i a b Ha. rewrite lookup_nil in Ha. discriminate. }
  destruct (session_holds P Hstep s0 t0 cs Hr H0) as (segs & -> & H).
  exact H.
Qed.

Lemma segments_abut_witness :
  recognition (new true) = true /\
  abutting (read (fst (stop (deliverAll demo_callbacks demo_session)))
                 (snd (stop (deliverAll demo_callbacks demo_session)))).
Proof.
  split; [reflexivity|].
  apply (segments_abut (new true) 1000 demo_callbacks eq_refl).
Defined.

Lemma fold_handleResult_texts (rs : list SpeechResult) (s : State)
  (segs : list TranscriptSegment) :
  arrays s !! segments s = Some segs ->
  exists segs',
    arrays (fold_left handleResult rs s) !! segments s = Some segs' /\
    text <$> segs' = (text <$> segs) ++ spokenResults rs.
Proof.
  revert s segs. induction rs as [|r rs IH]; intros s segs Hl; simpl.
  - exists segs. split; [exact Hl|]. now rewrite app_nil_r.
  - unfold spokenResults. simpl. unfold yieldsSegment at 1.
    destruct (isFinal r) eqn:Hf; simpl.
    2:{ rewrite handleResult_blank by now left. now apply IH. }
    destruct (trim (transcript r)) as [|c w] eqn:Ht; simpl.
    { rewrite handleResult_blank by now right. now apply IH. }
    rewrite handleResult_word by (rewrite ?Ht; done).
    match goal with |- context [fold_left handleResult rs ?s1] =>
      destruct (IH s1 (segs ++ [ {| Types.startTime := currentSegmentStart s;
                                    Types.endTime :=
                                      elapsedSeconds (now r) (startTime s);
                                    Types.text := trim (transcript r) |} ]))
        as (segs' & Hl' & Ht')
    end.
    { simpl. rewrite lookup_alter_eq, Hl. reflexivity. }
    exists segs'. split; [exact Hl'|].
    rewrite Ht', fmap_app, <- app_assoc. simpl. now rewrite Ht.
Qed.

Lemma deliverAll_texts (cs : list Callback) (s : State)
  (segs : list TranscriptSegment) :
  recognition s = true ->
  arrays s !! segments s = Some segs ->
  exists segs',
    arrays (deliverAll cs s) !! segments s = Some segs' /\
    text <$> segs' = (text <$> segs) ++ allSpoken cs.
Proof.
  revert s segs. induction cs as [|c cs IH]; intros s segs Hr Hl; simpl.
  - exists segs. split; [exact Hl|]. unfold allSpoken. simpl.
    now rewrite app_nil_r.
  - destruct (deliver_fields s c) as (Hr' & _ & Hseg & _).
    assert (exists segs1, arrays (deliver s c) !! segments s = Some segs1 /\
                          text <$> segs1 = (text <$> segs) ++ spoken c)
      as (segs1 & Hl1 & Ht1).
    { unfold deliver. rewrite Hr. destruct c as [event| |]; simpl.
      - now apply fold_handleResult_texts.
      - exists segs. split; [exact Hl|]. now rewrite app_nil_r.
      - exists segs. rewrite app_nil_r. split; [|reflexivity].
        unfold onend. now destruct (isListening s). }
    destruct (IH (deliver s c) segs1) as (segs' & Hl' & Ht').
    { now rewrite Hr'. }
    { now rewrite Hseg. }
    exists segs'. rewrite <- Hseg. split; [exact Hl'|].
    rewrite Ht', Ht1, <- app_assoc. reflexivity.
Qed.

Lemma session_texts_trimmed (s0 : State) (t0 : Z) (cs : list Callback) :
  recognition s0 = true ->
  Forall (fun g => text g <> [] /\ trim (text g) = text g)
         (read (fst (stop (deliverAll cs (start t0 s0))))
               (snd (stop (deliverAll cs (start t0 s0))))).
Proof.
  intros Hr.
  pose (P := fun (segs : list TranscriptSegment) (_ : Q) =>
               Forall (fun g => text g <> [] /\ trim (text g) = text g) segs).
  assert (forall segs cur txt e,
             P segs cur -> txt <> [] -> trim txt = txt ->
             P (segs ++ [ {| Types.startTime := cur; Types.endTime := e;
                             Types.text := txt |} ]) e) as Hstep.
  { intros segs cur txt e H Hne Htrim. apply Forall_app. split; [exact H|].
    constructor; [|constructor]. simpl. now split. }
  destruct (session_holds P Hstep s0 t0 cs Hr ltac:(constructor))
    as (segs & -> & H).
  exact H.
Qed.

(** X2.  The texts of the list that [stop] returns are, in the order of
    their arrival, the trimmed texts of the final results that hold more
    than white space: one segment for each of them and none for any other
    result.  Every text is trimmed and not empty. *)
Theorem transcript_texts (s0 : State) (t0 : Z) (cs : list Callback) :
  recognition s0 = true ->
  let out := stop (deliverAll cs (start t0 s0)) in
  text <$> read (fst out) (snd out) = allSpoken cs /\
  Forall (fun g => text g <> [] /\ trim (text g) = text g)
         (read (fst out) (snd out)).
Proof.
  intros Hr. cbv zeta. split.
  - rewrite stop_read.
    destruct (deliverAll_fields cs (start t0 s0)) as (_ & _ & Hseg & _).
    destruct (deliverAll_texts cs (start t0 s0) []) as (segs & Hl & Ht).
    + unfold start. now rewrite Hr.
    + unfold start. rewrite Hr. simpl. apply lookup_insert_eq.
    + unfold read. rewrite Hseg, Hl. exact Ht.
  - now apply session_texts_trimmed.
Qed.

Lemma transcript_texts_witness :
  recognition (new true) = true /\
  text <$> read (fst (stop (deliverAll demo_callbacks demo_session)))
                (snd (stop (deliverAll demo_callbacks demo_session)))
  = [units "hello there"; units "world"].
Proof.
  split; [reflexivity|].
  apply (transcript_texts (new true) 1000 demo_callbacks eq_refl).
Defined.

Lemma split_ws_from_nonempty (in_sep : bool) (cur s : jsstring) :
  (1 <= length (split_ws_from in_sep cur s))%nat.
Proof.
  revert in_sep cur. induction s as [|c s IH]; intros in_sep cur; simpl; [lia|].
  destruct (isWhiteSpace c); [destruct in_sep|]; simpl; try apply IH; lia.
Qed.

(** X3.  Every segment that the tracker emits holds at least one word for
    the analyzer, and the word count of the analyzer on it is the number of
    its white-space delimited tokens; the blank texts on which the two
    differ never come from the tracker. *)
Theorem tracker_segments_have_words (s0 : State) (t0 : Z) (cs : list Callback) :
  recognition s0 = true ->
  let out := stop (deliverAll cs (start t0 s0)) in
  Forall (fun g => wordCount (text g) = whitespace_tokens (text g) /\
                   (1 <= whitespace_tokens (text g))%nat)
         (read (fst out) (snd out)).
Proof.
  intros Hr. cbv zeta.
  pose proof (session_texts_trimmed s0 t0 cs Hr) as H.
  eapply Forall_impl; [exact H|]. simpl. intros g [Hne Htrim].
  assert (wordCount (text g) = whitespace_tokens (text g)) as E.
  { rewrite wordCount_tokens by now rewrite Htrim. now rewrite Htrim. }
  split; [exact E|]. rewrite <- E. apply split_ws_from_nonempty.
Qed.

Lemma tracker_segments_have_words_witness :
  recognition (new true) = true /\
  Forall (fun g => wordCount (text g) = whitespace_tokens (text g) /\
                   (1 <= whitespace_tokens (text g))%nat)
         (read (fst (stop (deliverAll demo_callbacks demo_session)))
               (snd (stop (deliverAll demo_callbacks demo_session)))).
Proof.
  split; [reflexivity|].
  apply (tracker_segments_have_words (new true) 1000 demo_callbacks eq_refl).
Defined.

End SessionTheorems.

Section RecognizerTheorems.

Import SpeechTracker Sessions.

Lemma handleResult_sameButCalls (s s' : State) (r : SpeechResult) :
  sameButCalls s s' -> sameButCalls (handleResult s r) (handleResult s' r).
Proof.
  intros (H1 & H2 & H3 & H4 & H5 & H6). unfold handleResult.
  destruct s, s'. simpl in *. subst.
  destruct (isFinal r), (truthy (trim (transcript r))); repeat split.
Qed.

Lemma fold_handleResult_sameButCalls (rs : list SpeechResult) (s s' : State) :
  sameButCalls s s' ->
  sameButCalls (fold_left handleResult rs s) (fold_left handleResult rs s').
Proof.
  revert s s'. induction rs as [|r rs IH]; intros s s' H; simpl; [exact H|].
  now apply IH, handleResult_sameButCalls.
Qed.

Lemma deliver_sameButCalls (s s' : State) (c : Callback) :
  sameButCalls s s' -> sameButCalls (deliver s c) (deliver s' c).
Proof.
  intros H. pose proof H as (H1 & H2 & _). unfold deliver.
  rewrite <- H1. destruct (recognition s); [|exact H].
  destruct c as [event| |].
  - now apply fold_handleResult_sameButCalls.
  - exact H.
  - unfold onend. rewrite <- H2. destruct (isListening s); [|exact H].
    destruct H as (? & ? & ? & ? & ? & ?). repeat split; assumption.
Qed.

Lemma deliver_end_sameButCalls (s : State) (c : Callback) :
  isResult c = false -> sameButCalls (deliver s c) s.
Proof.
  intros Hc. unfold deliver. destruct (recognition s); [|repeat split].
  destruct c as [event| |]; [discriminate|repeat split|].
  unfold onend. destruct (isListening s); repeat split.
Qed.

Lemma sameButCalls_trans (a b c : State) :
  sameButCalls a b -> sameButCalls b c -> sameButCalls a c.
Proof.
  intros (? & ? & ? & ? & ? & ?) (? & ? & ? & ? & ? & ?).
  repeat split; congruence.
Qed.

(** X4.  End and error events never touch the transcript: the working list,
    every other array, the cursor and the flags are what they would be had
    only the result events been delivered. *)
Theorem ends_and_errors_invisible (cs : list Callback) (s : State) :
  sameButCalls (deliverAll cs s) (deliverAll (List.filter isResult cs) s).
Proof.
  assert (forall s s', sameButCalls s s' ->
            sameButCalls (deliverAll cs s)
                         (deliverAll (List.filter isResult cs) s')) as H.
  { induction cs as [|c cs IH]; intros s1 s2 H; simpl; [exact H|].
    destruct (isResult c) eqn:Hc; simpl.
    - now apply IH, deliver_sameButCalls.
    - apply IH. eapply sameButCalls_trans; [|exact H].
      now apply deliver_end_sameButCalls. }
  apply H. repeat split.
Qed.

Lemma deliver_calls (s : State) (c : Callback) :
  calls (deliver s c) =
  calls s ++ (if recognition s && isListening s && isEnd c
              then [RecStart] else []).
Proof.
  unfold deliver. destruct (recognition s); simpl; [|now rewrite app_nil_r].
  destruct c as [event| |]; simpl.
  - unfold onresult.
    destruct (fold_handleResult_fields
                (drop (resultIndex event) (results event)) s)
      as (_ & _ & _ & _ & ->).
    now rewrite andb_false_r, app_nil_r.
  - now rewrite andb_false_r, app_nil_r.
  - unfold onend. destruct (isListening s); simpl; [reflexivity|].
    now rewrite app_nil_r.
Qed.

(** X5.  While the session is listening every end event of the recognizer
    is answered by exactly one call of its [start], and nothing else is ever
    called; once the session is not listening (after [stop], or before the
    first [start]) no event makes the tracker call the recognizer. *)
Theorem restart_trace (cs : list Callback) (s : State) :
  calls (deliverAll cs s) =
  calls s ++ (if recognition s && isListening s
              then replicate (length (List.filter isEnd cs)) RecStart
              else []).
Proof.
  revert s. induction cs as [|c cs IH]; intros s; simpl.
  - destruct (recognition s && isListening s); now rewrite app_nil_r.
  - rewrite IH. destruct (deliver_fields s c) as (-> & -> & _).
    rewrite deliver_calls, <- app_assoc. f_equal.
    destruct (recognition s && isListening s); [|reflexivity].
    simpl. now destruct (isEnd c).
Qed.

(** X6.  Without a recognizer the tracker is inert: [start] does nothing,
    no callback changes it, and [stop] changes nothing and returns the list
    the tracker was built with, which is empty for a new tracker. *)
Theorem unsupported_tracker_inert (s : State) (t0 : Z) (cs : list Callback) :
  recognition s = false ->
  start t0 s = s /\
  deliverAll cs s = s /\
  stop s = (segments s, s) /\
  read (fst (stop (deliverAll cs (start t0 (new false)))))
       (snd (stop (deliverAll cs (start t0 (new false))))) = [].
Proof.
  intros Hr.
  assert (forall s, recognition s = false -> deliverAll cs s = s) as Hd.
  { clear. induction cs as [|c cs IH]; intros s Hr; simpl; [reflexivity|].
    assert (deliver s c = s) as -> by (unfold deliver; now rewrite Hr).
    now apply IH. }
  split_and!.
  - unfold start. now rewrite Hr.
  - now apply Hd.
  - unfold stop. now rewrite Hr.
  - unfold start. simpl. now rewrite Hd.
Qed.

Lemma unsupported_tracker_inert_witness :
  recognition (new false) = false /\
  deliverAll demo_callbacks (start 1000 (new false)) = new false.
Proof.
  split; [reflexivity|].
  destruct (unsupported_tracker_inert (new false) 1000 demo_callbacks eq_refl)
    as (E & D & _).
  now rewrite E.
Defined.

(** X7.  A later [start] begins a session of its own: it works on a new,
    empty list, and whatever is delivered afterwards, the list that the
    earlier [stop] returned is never written again. *)
Theorem new_session_disjoint (s : State) (t1 : Z) (cs : list Callback) :
  recognition s = true ->
  is_Some (arrays s !! segments s) ->
  let old := fst (stop s) in
  let s' := start t1 (snd (stop s)) in
  segments s' <> old /\
  read (segments s') s' = [] /\
  currentSegmentStart s' = 0%Q /\
  read old (deliverAll cs s') = read old s.
Proof.
  intros Hr Hsome. cbv zeta. unfold stop. rewrite Hr. simpl.
  unfold start. simpl. rewrite Hr. simpl.
  set (l := fresh (dom (arrays s))).
  assert (l <> segments s) as Hne.
  { intros E. apply (is_fresh (dom (arrays s))). fold l. rewrite E.
    now apply elem_of_dom. }
  split_and!.
  - exact Hne.
  - unfold read. simpl. now rewrite lookup_insert_eq.
  - reflexivity.
  - unfold read. rewrite deliverAll_other by (simpl; congruence).
    simpl. now rewrite lookup_insert_ne.
Qed.

Lemma new_session_disjoint_witness :
  recognition demo_session = true /\
  is_Some (arrays demo_session !! segments demo_session) /\
  read (fst (stop (deliverAll demo_callbacks demo_session)))
       (deliverAll [OnResult late_result]
          (start 9000 (snd (stop (deliverAll demo_callbacks demo_session)))))
  = read (fst (stop (deliverAll demo_callbacks demo_session)))
         (deliverAll demo_callbacks demo_session).
Proof.
  split; [reflexivity|]. split; [exists []; vm_compute; reflexivity|].
  assert (recognition (deliverAll demo_callbacks demo_session) = true) as Hr
    by reflexivity.
  assert (is_Some (arrays (deliverAll demo_callbacks demo_session)
                     !! segments (deliverAll demo_callbacks demo_session)))
    as Hs.
  { eexists. vm_compute. reflexivity. }
  apply (new_session_disjoint (deliverAll demo_callbacks demo_session) 9000
           [OnResult late_result] Hr Hs).
Defined.

End RecognizerTheorems.

(** ** Rates and categories *)

Section PaceTheorems.

Import SpeakingSpeedView Pace.

(** X8.  With fewer than [2^53] words and a duration between [2^-900] and
    [2^900] seconds the rate is an integer that is not negative, and it
    differs from the exact value of [words / duration * 60] by at most one
    half plus the relative error [2^-51] left by the two roundings of the
    quotient and of the product.  So the rate is not always the integer
    nearest to the exact value: 49 words in 24 seconds, exactly 122.5 words
    per minute, give 122. *)
Theorem wpm_near_exact_rate (words : nat) (duration : Q) :
  Z.of_nat words < 2 ^ 53 ->
  (pow2 (-900) <= duration)%Q -> (duration <= pow2 900)%Q ->
  let exact := (inject_Z (Z.of_nat words) / duration * 60)%Q in
  exists k : Z,
    wpmOf words (Fin duration) = Fin (inject_Z k) /\
    0 <= k /\
    (exact - (1 # 2) - exact * pow2 (-51) <= inject_Z k)%Q /\
    (inject_Z k <= exact + (1 # 2) + exact * pow2 (-51))%Q.
Proof.
  intros Hw Hl Hu. cbv zeta.
  assert (0 < duration)%Q as Hd.
  { eapply Qlt_le_trans; [apply pow2_pos|exact Hl]. }
  destruct (wpmOf_guarded words duration Hd) as [-> Hx].
  pose proof (quotient_bounded words duration Hw Hl) as Hq.
  set (x := (inject_Z (Z.of_nat words) / duration)%Q) in *.
  assert (exists y, num_mul (roundDouble x) (Fin 60) = Fin y /\
                    (x * 60 - x * 60 * pow2 (-51) <= y)%Q /\
                    (y <= x * 60 + x * 60 * pow2 (-51))%Q)
    as (y & -> & Y1 & Y2).
  { destruct (Z.eq_dec (Z.of_nat words) 0) as [E|E].
    - assert (x == 0)%Q as Ex by (unfold x; rewrite E; field; lra).
      rewrite (roundDouble_zero x Ex). exists 0%Q.
      split; [reflexivity|]. rewrite Ex. split; discriminate.
    - apply per_minute_error; [|exact Hq].
      apply Qle_shift_div_l; [exact Hd|].
      apply Qle_trans with (pow2 (-900) * pow2 900)%Q.
      + apply Qmult_le_l; [apply pow2_pos|exact Hu].
      + rewrite <- pow2_plus. change (pow2 (-900 + 900)) with (inject_Z 1).
        rewrite <- Zle_Qle. lia. }
  assert (0 <= x * 60 * pow2 (-51))%Q as He.
  { apply Qmult_le_0_compat; [lra|apply Qlt_le_weak, pow2_pos]. }
  cbn [num_round]. exists (Qfloor (y + (1 # 2))).
  pose proof (Qfloor_le (y + (1 # 2))) as F1.
  pose proof (Qlt_floor (y + (1 # 2))) as F2.
  rewrite inject_Z_plus in F2. change (inject_Z 1) with 1%Q in F2.
  split_and!; [reflexivity| |lra|lra].
  apply Qfloor_half_nonneg. rewrite pow2_51 in *. lra.
Qed.

Lemma wpm_near_exact_rate_witness :
  Z.of_nat 49 < 2 ^ 53 /\ (pow2 (-900) <= 24)%Q /\ (24 <= pow2 900)%Q /\
  (inject_Z (Z.of_nat 49) / 24 * 60 == 245 # 2)%Q /\
  wpmOf 49 (Fin 24) = Fin 122.
Proof.
  assert (Z.of_nat 49 < 2 ^ 53) as Hw by (vm_compute; reflexivity).
  assert (pow2 (-900) <= 24)%Q as Hl by (vm_compute; discriminate).
  assert (24 <= pow2 900)%Q as Hu by (vm_compute; discriminate).
  split; [exact Hw|]. split; [exact Hl|]. split; [exact Hu|].
  split; [reflexivity|].
  destruct (wpm_near_exact_rate 49 24 Hw Hl Hu) as (k & E & _).
  rewrite E. vm_compute in E. injection E as E. rewrite <- E. reflexivity.
Defined.

Lemma getSpeedCategory_integer (k : Z) :
  label (getSpeedCategory (Fin (inject_Z k))) = labelOfRate k.
Proof.
  unfold getSpeedCategory, labelOfRate, num_lt.
  assert (forall c : Z, Qle_bool (inject_Z c) (inject_Z k) = (c <=? k)) as H.
  { intros c. unfold Qle_bool. simpl. now rewrite !Z.mul_1_r. }
  change 110%Q with (inject_Z 110). change 130%Q with (inject_Z 130).
  change 160%Q with (inject_Z 160). rewrite !H.
  destruct (Z.leb_spec 110 k), (Z.leb_spec 130 k), (Z.leb_spec 160 k),
    (Z.leb_spec k 109), (Z.leb_spec k 129), (Z.leb_spec k 159);
    simpl; try reflexivity; lia.
Qed.

Lemma render_nonempty (transcript : list TranscriptSegment) :
  transcript <> [] ->
  render transcript =
  Analysis (wpm (stats transcript))
           (label (getSpeedCategory (wpm (stats transcript)))).
Proof. now destruct transcript. Qed.

(** X9.  The component shows the spinner for the empty transcript and for
    no other.  For a transcript that is not empty it shows the global rate
    and the pace that the rate decides: the rate is an integer that is not
    negative, with Slow up to 109, Moderate from 110 to 129, Conversational
    from 130 to 159 and Fast from 160 on, or it is the infinity, with Fast.
    A total duration that is not positive gives the rate 0 and Slow; with
    fewer than [2^53] words over at least [2^-900] seconds the rate is
    finite. *)
Theorem pace_of_transcript (transcript : list TranscriptSegment) :
  (render transcript = Analyzing <-> transcript = []) /\
  (transcript <> [] ->
   (exists k : Z,
       0 <= k /\
       render transcript = Analysis (Fin (inject_Z k)) (labelOfRate k)) \/
   render transcript = Analysis PosInf "Fast") /\
  (transcript <> [] ->
   (SpeakingSpeedView.duration (stats transcript) <= 0)%Q ->
   render transcript = Analysis (Fin 0) "Slow") /\
  (transcript <> [] ->
   Z.of_nat (totalWords (stats transcript)) < 2 ^ 53 ->
   (pow2 (-900) <= SpeakingSpeedView.duration (stats transcript))%Q ->
   exists k : Z,
     0 <= k /\
     render transcript = Analysis (Fin (inject_Z k)) (labelOfRate k)).
Proof.
  split_and!.
  - destruct transcript; split; intros H; try reflexivity; discriminate H.
  - intros Hne. rewrite (render_nonempty _ Hne), stats_wpm.
    destruct (wpmOf_rate (totalWords (stats transcript))
                (Fin (SpeakingSpeedView.duration (stats transcript))))
      as [->|(k & Hk & ->)].
    + now right.
    + left. exists k. split; [exact Hk|].
      now rewrite getSpeedCategory_integer.
  - intros Hne Hd. rewrite (render_nonempty _ Hne), stats_wpm.
    unfold wpmOf. simpl. rewrite (Qle_0_not_pos _ Hd). reflexivity.
  - intros Hne Hw Hd. rewrite (render_nonempty _ Hne), stats_wpm.
    destruct (wpmOf_finite _ _ Hw Hd) as (k & Hk & ->).
    exists k. split; [exact Hk|]. now rewrite getSpeedCategory_integer.
Qed.

Lemma pace_of_transcript_witness :
  pause_transcript <> [] /\
  Z.of_nat (totalWords (stats pause_transcript)) < 2 ^ 53 /\
  (pow2 (-900) <= SpeakingSpeedView.duration (stats pause_transcript))%Q /\
  render pause_transcript = Analysis (Fin 25) "Slow".
Proof.
  assert (pause_transcript <> []) as Hne by discriminate.
  assert (Z.of_nat (totalWords (stats pause_transcript)) < 2 ^ 53) as Hw
    by (vm_compute; reflexivity).
  assert (pow2 (-900) <= SpeakingSpeedView.duration (stats pause_transcript))%Q
    as Hd by (vm_compute; discriminate).
  split; [exact Hne|]. split; [exact Hw|]. split; [exact Hd|].
  destruct (proj2 (proj2 (proj2 (pace_of_transcript pause_transcript)))
              Hne Hw Hd) as (k & _ & E).
  rewrite E. vm_compute in E. injection E as E _. rewrite <- E. reflexivity.
Defined.

Lemma wordCount_positive (text : jsstring) : (1 <= wordCount text)%nat.
Proof. apply split_ws_from_nonempty. Qed.

Lemma wordCounts_cover (l : list TranscriptSegment) :
  (length l <= sum_list ((fun seg => wordCount (text seg)) <$> l))%nat.
Proof.
  induction l as [|h l IH]; [reflexivity|].
  rewrite fmap_cons. cbn [sum_list sum_list_with length].
  pose proof (wordCount_positive (text h)). unfold id, sum_list in *. lia.
Qed.

(** X10.  The statistics keep the transcript: there is one entry for each
    segment, in the same order and carrying the segment unchanged.  Every
    segment counts for at least one word, so the total of words is never
    below the number of segments. *)
Theorem stats_keep_segments (transcript : list TranscriptSegment) :
  seg <$> segments (stats transcript) = transcript /\
  (length transcript <= totalWords (stats transcript))%nat.
Proof.
  split.
  - rewrite stats_segments.
    induction transcript as [|g t IH]; [reflexivity|].
    rewrite !fmap_cons. cbn [seg]. now rewrite IH.
  - destruct transcript as [|g t]; [simpl; lia|].
    unfold stats. rewrite mapSegments_spec. cbn [totalWords].
    rewrite Nat.add_0_l. apply wordCounts_cover.
Qed.

End PaceTheorems.

(** ** Selections and new highlights *)

Section SelectionTheorems.

Import TranscriptView Selection.

Lemma textLength_cons (n : TextNode) (nodes : list TextNode) :
  textLength (n :: nodes) =
  Z.of_nat (length (textContent n)) + textLength nodes.
Proof.
  unfold textLength. rewrite fmap_cons. cbn [concat].
  rewrite length_app. lia.
Qed.

Lemma walkTextNodes_missing (nodes : list TextNode) (target : nat)
  (o offset : Z) :
  (forall n, n ∈ nodes -> node n <> target) ->
  walkTextNodes nodes target o offset = offset + textLength nodes.
Proof.
  revert offset. induction nodes as [|n nodes IH]; intros offset H; simpl.
  - unfold textLength. simpl. lia.
  - destruct (Nat.eqb_spec (node n) target) as [E|_].
    + exfalso. apply (H n); [apply elem_of_cons; now left|exact E].
    + rewrite IH, textLength_cons; [lia|].
      intros m Hm. apply H. apply elem_of_cons. now right.
Qed.

Lemma walkTextNodes_found (before : list TextNode) (n : TextNode)
  (after : list TextNode) (o offset : Z) :
  (forall m, m ∈ before -> node m <> node n) ->
  walkTextNodes (before ++ n :: after) (node n) o offset =
  offset + textLength before + o.
Proof.
  revert offset. induction before as [|m before IH]; intros offset H; simpl.
  - rewrite Nat.eqb_refl. unfold textLength. simpl. lia.
  - destruct (Nat.eqb_spec (node m) (node n)) as [E|_].
    + exfalso. apply (H m); [apply elem_of_cons; now left|exact E].
    + rewrite IH, textLength_cons; [lia|].
      intros k Hk. apply H. apply elem_of_cons. now right.
Qed.

(** X11.  [getRelativeOffset] returns the length of the text that precedes
    the target node in the container plus the offset inside the node; the
    node that counts is the first one with the identity of the target.  When
    the target is no text node of the container, the result is the length of
    the whole text of the container, whatever the offset inside the target
    is. *)
Theorem relative_offset
  (before : list TextNode) (n : TextNode) (after : list TextNode)
  (container : list TextNode) (target : nat) (o : Z) :
  ((forall m, m ∈ before -> node m <> node n) ->
   getRelativeOffset (before ++ n :: after) (node n) o =
   textLength before + o) /\
  ((forall m, m ∈ container -> node m <> target) ->
   getRelativeOffset container target o = textLength container).
Proof.
  split; intros H; unfold getRelativeOffset.
  - now rewrite walkTextNodes_found.
  - now rewrite walkTextNodes_missing.
Qed.

Lemma relative_offset_witness :
  getRelativeOffset
    [ {| node := 4; textContent := units "abc" |};
      {| node := 7; textContent := units "de" |};
      {| node := 9; textContent := units "fgh" |} ] 7 1 = 4 /\
  getRelativeOffset
    [ {| node := 4; textContent := units "abc" |};
      {| node := 7; textContent := units "de" |} ] 8 1 = 5.
Proof.
  split.
  - apply (proj1 (relative_offset
                    [ {| node := 4; textContent := units "abc" |} ]
                    {| node := 7; textContent := units "de" |}
                    [ {| node := 9; textContent := units "fgh" |} ] [] 0 1)).
    intros m Hm. apply list_elem_of_singleton in Hm as ->. discriminate.
  - apply (proj2 (relative_offset [] {| node := 0; textContent := [] |} []
                    [ {| node := 4; textContent := units "abc" |};
                      {| node := 7; textContent := units "de" |} ] 8 1)).
    intros m Hm. apply elem_of_cons in Hm as [->|Hm]; [discriminate|].
    apply list_elem_of_singleton in Hm as ->. discriminate.
Defined.

Lemma spanNodes_split (first i : nat) (runs : list Run) (r : Run) :
  runs !! i = Some r ->
  spanNodes first runs =
  spanNodes first (take i runs)
  ++ {| node := (first + i)%nat; textContent := partText r |}
  :: spanNodes (S (first + i)) (drop (S i) runs).
Proof.
  revert first i. induction runs as [|q runs IH]; intros first i Hi.
  - rewrite lookup_nil in Hi. discriminate.
  - destruct i as [|i]; simpl in *.
    + injection Hi as ->. now rewrite Nat.add_0_r.
    + rewrite (IH (S first) i Hi). now rewrite Nat.add_succ_r.
Qed.

Lemma spanNodes_ids (first : nat) (runs : list Run) (m : TextNode) :
  m ∈ spanNodes first runs ->
  (first <= node m < first + length runs)%nat.
Proof.
  revert first. induction runs as [|q runs IH]; intros first; simpl.
  - now rewrite elem_of_nil.
  - rewrite elem_of_cons. intros [->|H]; [simpl; lia|].
    apply IH in H. lia.
Qed.

Lemma spanNodes_textLength (first : nat) (runs : list Run) :
  textLength (spanNodes first runs) = Z.of_nat (length (shownText runs)).
Proof.
  revert first. induction runs as [|q runs IH]; intros first; [reflexivity|].
  cbn [spanNodes]. rewrite textLength_cons, IH. unfold shownText.
  rewrite fmap_cons. cbn [concat textContent]. rewrite length_app. lia.
Qed.

(** The runs before a run of a rendered segment hold as many characters as
    the start of the run says. *)
Lemma render_prefix_length
  (notes : list Note) (segment : TranscriptSegment) (index i : nat) (r : Run) :
  renderSegment notes segment index !! i = Some r ->
  Z.of_nat (length (shownText (take i (renderSegment notes segment index))))
  = run_start r.
Proof.
  destruct (renderSegment_cases notes segment index) as [[_ ->]|[_ ->]].
  - destruct i as [|i]; simpl; [now intros [= <-]|].
    intros H. rewrite lookup_nil in H. discriminate.
  - set (sn := notesOfSegment notes index).
    set (len := Z.of_nat (length (text segment))).
    set (sp := sortNumeric (boundaryPoints len sn)).
    set (runs := sliceRuns (text segment) sn sp).
    assert (0 <= len) as Hlen by (unfold len; lia).
    revert r. induction i as [|i IH]; intros r Hi.
    + apply (sliced_run notes segment index) in Hi as (a & b & Ha & _ & ->).
      fold sn len sp in Ha. simpl.
      pose proof (sortedPoints_head len Hlen sn) as Hh. fold sp in Hh.
      rewrite head_lookup in Hh. rewrite Hh in Ha. now injection Ha as <-.
    + destruct (runs !! i) as [q|] eqn:Hq.
      2:{ apply lookup_ge_None in Hq. apply lookup_lt_Some in Hi. lia. }
      rewrite (take_S_r _ _ _ Hq). unfold shownText.
      rewrite fmap_app, concat_app, length_app.
      fold (shownText (take i runs)). rewrite Nat2Z.inj_add, (IH q eq_refl).
      apply (sliced_run notes segment index) in Hq as (a & b & Ha & Hb & ->).
      apply (sliced_run notes segment index) in Hi as (a' & b' & Ha' & _ & ->).
      fold sn len sp in Ha, Hb, Ha'. rewrite Hb in Ha'. injection Ha' as <-.
      pose proof (neighbours_range notes segment index i a b Ha Hb) as Hr.
      simpl. rewrite app_nil_r.
      rewrite substring_length by (fold len; lia). lia.
Qed.

Lemma span_offset
  (notes : list Note) (segment : TranscriptSegment) (index i : nat)
  (r : Run) (o : Z) :
  renderSegment notes segment index !! i = Some r ->
  getRelativeOffset (segmentTextNodes (renderSegment notes segment index)) i o
  = run_start r + o.
Proof.
  intros Hi. unfold segmentTextNodes, getRelativeOffset.
  set (runs := renderSegment notes segment index) in *.
  rewrite (spanNodes_split 0 i runs r Hi), <- app_assoc.
  cbn [app Nat.add].
  etransitivity.
  - apply (walkTextNodes_found (spanNodes 0 (take i runs))
             {| node := i; textContent := partText r |}).
    intros m Hm. apply spanNodes_ids in Hm. simpl.
    rewrite length_take in Hm. lia.
  - rewrite spanNodes_textLength. unfold runs.
    rewrite (render_prefix_length notes segment index i r Hi). lia.
Qed.

Lemma span_offset_range
  (notes : list Note) (segment : TranscriptSegment) (index i : nat)
  (r : Run) (o : Z) :
  renderSegment notes segment index !! i = Some r ->
  0 <= o <= Z.of_nat (length (partText r)) ->
  0 <= run_start r + o <= Z.of_nat (length (text segment)).
Proof.
  intros Hi Ho.
  assert (r ∈ renderSegment notes segment index) as Hr
    by (apply list_elem_of_lookup; eauto).
  destruct (render_runs_slices notes segment index r Hr) as (H1 & H2 & H3).
  rewrite H3 in Ho. rewrite substring_length in Ho by lia. lia.
Qed.

(** X12.  On a rendered segment the offset computed for a position in the
    span of a run is the start of the run plus the offset in the span: it is
    the offset of the position in the full text of the segment, however the
    highlights cut the text into spans, and it lies between 0 and the length
    of the text.  A position in the space that follows the spans is counted
    from the length of the text on. *)
Theorem offset_in_rendered_segment
  (notes : list Note) (segment : TranscriptSegment) (index i : nat)
  (r : Run) (o : Z) :
  renderSegment notes segment index !! i = Some r ->
  0 <= o <= Z.of_nat (length (partText r)) ->
  let nodes := segmentTextNodes (renderSegment notes segment index) in
  let len := Z.of_nat (length (text segment)) in
  getRelativeOffset nodes i o = run_start r + o /\
  0 <= getRelativeOffset nodes i o <= len /\
  getRelativeOffset nodes (length (renderSegment notes segment index)) o
  = len + o.
Proof.
  intros Hi Ho. cbv zeta.
  pose proof (span_offset notes segment index i r o Hi) as E.
  split; [exact E|split].
  - rewrite E. now apply (span_offset_range notes segment index i).
  - unfold segmentTextNodes, getRelativeOffset.
    set (runs := renderSegment notes segment index) in *. etransitivity.
    + apply (walkTextNodes_found (spanNodes 0 runs)
               {| node := length runs; textContent := units " " |} []).
      intros m Hm. apply spanNodes_ids in Hm. simpl. lia.
    + rewrite spanNodes_textLength. unfold runs.
      rewrite render_shownText. lia.
Qed.

Lemma offset_in_rendered_segment_witness :
  renderSegment [first_note; second_note] eight_chars 0 !! 1%nat
  = Some overlap_run /\
  getRelativeOffset
    (segmentTextNodes (renderSegment [first_note; second_note] eight_chars 0))
    1 2 = 5.
Proof.
  split; [reflexivity|].
  apply (offset_in_rendered_segment [first_note; second_note] eight_chars 0 1
           overlap_run 2 eq_refl).
  simpl. lia.
Defined.

End SelectionTheorems.

Section HighlightTheorems.

Import TranscriptView Selection.

(** X13.  A selection whose two ends lie in spans of a rendered segment
    gives a range with [0 <= start <= end <= length of the text], in
    whichever direction it was drawn.  The note made from it is not
    malformed and clamping leaves its offsets as they are. *)
Theorem selection_is_well_formed
  (notes : list Note) (segment : TranscriptSegment) (index i j : nat)
  (ri rj : Run) (oi oj : Z) :
  renderSegment notes segment index !! i = Some ri ->
  renderSegment notes segment index !! j = Some rj ->
  0 <= oi <= Z.of_nat (length (partText ri)) ->
  0 <= oj <= Z.of_nat (length (partText rj)) ->
  let nodes := segmentTextNodes (renderSegment notes segment index) in
  let len := Z.of_nat (length (text segment)) in
  let range := selectionRange (getRelativeOffset nodes i oi)
                              (getRelativeOffset nodes j oj) in
  0 <= fst range <= snd range /\ snd range <= len /\
  clamp len (fst range) = fst range /\ clamp len (snd range) = snd range /\
  forall content color,
    ~ malformed len (highlightNote index content range color).
Proof.
  intros Hi Hj Hoi Hoj. cbv zeta.
  rewrite (span_offset notes segment index i ri oi Hi).
  rewrite (span_offset notes segment index j rj oj Hj).
  pose proof (span_offset_range notes segment index i ri oi Hi Hoi) as Ha.
  pose proof (span_offset_range notes segment index j rj oj Hj Hoj) as Hf.
  unfold selectionRange. cbn [fst snd].
  split_and!; try (unfold clamp; lia).
  intros content color (a & b & Ea & Eb & H). simpl in Ea, Eb.
  injection Ea as <-. injection Eb as <-. unfold clamp in H. lia.
Qed.

Lemma selection_is_well_formed_witness :
  renderSegment [first_note] eight_chars 0 !! 1%nat
  = Some {| run_start := 5; run_end := 8; partText := units "fgh";
            activeNote := None |} /\
  renderSegment [first_note] eight_chars 0 !! 0%nat
  = Some {| run_start := 0; run_end := 5; partText := units "abcde";
            activeNote := Some first_note |} /\
  selectionRange
    (getRelativeOffset
       (segmentTextNodes (renderSegment [first_note] eight_chars 0)) 1 3)
    (getRelativeOffset
       (segmentTextNodes (renderSegment [first_note] eight_chars 0)) 0 3)
  = (3, 8) /\
  ~ malformed 8 (highlightNote 0 "note" (3, 8) "#FDE047").
Proof.
  split; [reflexivity|]. split; [reflexivity|]. split; [reflexivity|].
  pose proof (selection_is_well_formed [first_note] eight_chars 0 1 0 _ _ 3 3
                eq_refl eq_refl ltac:(simpl; lia) ltac:(simpl; lia)) as H.
  cbv zeta in H. destruct H as (_ & _ & _ & _ & H).
  exact (H "note"%string "#FDE047"%string).
Defined.

Lemma notesOfSegment_snoc (notes : list Note) (n : Note) (index : nat) :
  transcriptSegmentIndex n = Some index ->
  notesOfSegment (notes ++ [n]) index = notesOfSegment notes index ++ [n].
Proof.
  intros H. unfold notesOfSegment. rewrite List.filter_app. simpl.
  now rewrite bool_decide_eq_true_2.
Qed.

Lemma findActiveNote_snoc (sn : list Note) (n : Note) (mid : Q) :
  findActiveNote (sn ++ [n]) mid =
  if coversMid mid n then Some n else findActiveNote sn mid.
Proof. unfold findActiveNote. now rewrite rev_unit. Qed.

(** X14.  The note added last on a segment shows on exactly its clamped
    range: every run that the range spans carries the note, every position
    of the range lies in such a run, and a run outside of the range carries
    the note that the earlier notes give it. *)
Theorem newest_highlight_shows
  (notes : list Note) (segment : TranscriptSegment) (index : nat)
  (n : Note) (a b : Z) :
  transcriptSegmentIndex n = Some index ->
  highlightStart n = Some a -> highlightEnd n = Some b ->
  let runs := renderSegment (notes ++ [n]) segment index in
  let len := Z.of_nat (length (text segment)) in
  (forall r, r ∈ runs -> spans len n r -> activeNote r = Some n) /\
  (forall r, r ∈ runs -> ~ spans len n r ->
             activeNote r =
             findActiveNote (notesOfSegment notes index)
                            (midpoint (run_start r) (run_end r))) /\
  (forall p, clamp len a <= p < clamp len b ->
             exists r, r ∈ runs /\ run_start r <= p < run_end r /\
                       activeNote r = Some n).
Proof.
  intros Hidx Ha Hb. cbv zeta.
  pose proof (notesOfSegment_snoc notes n index Hidx) as Hsn.
  assert (n ∈ notesOfSegment (notes ++ [n]) index) as Hin.
  { rewrite Hsn. apply elem_of_app. right. now apply list_elem_of_singleton. }
  assert (forall r, r ∈ renderSegment (notes ++ [n]) segment index ->
            activeNote r =
            if coversMid (midpoint (run_start r) (run_end r)) n then Some n
            else findActiveNote (notesOfSegment notes index)
                                (midpoint (run_start r) (run_end r))) as Hact.
  { intros r Hr.
    destruct (render_active (notes ++ [n]) segment index r Hr) as [E|[E _]].
    - now rewrite E, Hsn, findActiveNote_snoc.
    - rewrite E in Hin. now apply elem_of_nil in Hin. }
  assert (forall r, r ∈ renderSegment (notes ++ [n]) segment index ->
            spans (Z.of_nat (length (text segment))) n r ->
            activeNote r = Some n) as Hwin.
  { intros r Hr Hs. rewrite (Hact r Hr).
    apply (covers_iff_spans (notes ++ [n]) segment index r n Hr Hin) in Hs.
    unfold covers in Hs. now rewrite Hs. }
  split_and!.
  - exact Hwin.
  - intros r Hr Hs. rewrite (Hact r Hr).
    destruct (coversMid (midpoint (run_start r) (run_end r)) n) eqn:Hc;
      [|reflexivity].
    exfalso. apply Hs.
    now apply (covers_iff_spans (notes ++ [n]) segment index r n Hr Hin).
  - intros p Hp.
    set (len := Z.of_nat (length (text segment))) in *.
    assert (0 <= len) as Hlen by (unfold len; lia).
    pose proof (clamp_range len a Hlen). pose proof (clamp_range len b Hlen).
    destruct (render_tiles (notes ++ [n]) segment index p ltac:(fold len; lia))
      as (i & r & Hi & Hpr & _).
    assert (r ∈ renderSegment (notes ++ [n]) segment index) as Hr.
    { apply list_elem_of_lookup. eauto. }
    exists r. split; [exact Hr|]. split; [exact Hpr|].
    apply (Hwin r Hr). exists a, b. split; [exact Ha|]. split; [exact Hb|].
    destruct (renderSegment_cases (notes ++ [n]) segment index)
      as [[E _]|[_ Hrun]].
    { rewrite E in Hin. now apply elem_of_nil in Hin. }
    rewrite Hrun in Hi.
    apply (sliced_run (notes ++ [n]) segment index) in Hi
      as (s & e & Hs & He & ->).
    simpl in *. fold len in Hs, He.
    set (sp := sortNumeric
                 (boundaryPoints len (notesOfSegment (notes ++ [n]) index)))
      in *.
    assert (clamp len a ∈ sp) as Pa.
    { apply elem_of_sortNumeric, elem_of_boundaryPoints. right; right.
      exists n. split; [exact Hin|]. left. eauto. }
    assert (clamp len b ∈ sp) as Pb.
    { apply elem_of_sortNumeric, elem_of_boundaryPoints. right; right.
      exists n. split; [exact Hin|]. right. eauto. }
    pose proof (sortedPoints_strict len
                  (notesOfSegment (notes ++ [n]) index)) as Hsort.
    fold sp in Hsort.
    pose proof (sorted_no_point_between sp i s e _ Hsort Hs He Pa).
    pose proof (sorted_no_point_between sp i s e _ Hsort Hs He Pb).
    lia.
Qed.

Lemma newest_highlight_shows_witness :
  transcriptSegmentIndex second_note = Some 0%nat /\
  highlightStart second_note = Some 3 /\ highlightEnd second_note = Some 8 /\
  forall p, 3 <= p < 8 ->
    exists r, r ∈ renderSegment ([first_note] ++ [second_note]) eight_chars 0 /\
              run_start r <= p < run_end r /\ activeNote r = Some second_note.
Proof.
  split; [reflexivity|]. split; [reflexivity|]. split; [reflexivity|].
  pose proof (newest_highlight_shows [first_note] eight_chars 0 second_note
                3 8 eq_refl eq_refl eq_refl) as H.
  cbv zeta in H. destruct H as (_ & _ & H). exact H.
Defined.

(** X15.  A run is shown plain exactly when no note of the segment spans
    it. *)
Theorem plain_iff_unspanned
  (notes : list Note) (segment : TranscriptSegment) (index : nat) (r : Run) :
  r ∈ renderSegment notes segment index ->
  (activeNote r = None <->
   forall n, n ∈ notesOfSegment notes index ->
             ~ spans (Z.of_nat (length (text segment))) n r).
Proof.
  intros Hr. split.
  - intros Hnone n Hn Hs.
    apply (covers_iff_spans notes segment index r n Hr Hn) in Hs.
    destruct (cover_has_winner notes segment index r n Hr Hn Hs) as [w Hw].
    congruence.
  - intros H. destruct (activeNote r) as [w|] eqn:Hw; [|reflexivity].
    exfalso.
    destruct (active_is_last_cover notes segment index r w Hr Hw)
      as (l1 & l2 & E & Hc & _).
    assert (w ∈ notesOfSegment notes index) as Hin.
    { rewrite E. apply elem_of_app. right. apply elem_of_cons. now left. }
    apply (H w Hin).
    now apply (covers_iff_spans notes segment index r w Hr Hin).
Qed.

Lemma plain_iff_unspanned_witness :
  {| run_start := 5; run_end := 8; partText := units "fgh";
     activeNote := None |} ∈ renderSegment [first_note] eight_chars 0 /\
  forall n, n ∈ notesOfSegment [first_note] 0 ->
    ~ spans 8 n {| run_start := 5; run_end := 8; partText := units "fgh";
                   activeNote := None |}.
Proof.
  assert ({| run_start := 5; run_end := 8; partText := units "fgh";
             activeNote := None |} ∈ renderSegment [first_note] eight_chars 0)
    as Hr.
  { apply list_elem_of_lookup. exists 1%nat. reflexivity. }
  split; [exact Hr|].
  exact (proj1 (plain_iff_unspanned [first_note] eight_chars 0 _ Hr) eq_refl).
Defined.

End HighlightTheorems.

(** ** Local persistence *)

Section StorageFacts.

Import Storage.

Lemma find_app_None {A : Type} (f : A -> bool) (l l' : list A) :
  List.find f l = None -> List.find f (l ++ l') = List.find f l'.
Proof.
  induction l as [|x l IH]; simpl; [reflexivity|].
  destruct (f x); [discriminate|exact IH].
Qed.

Lemma find_all_false {A : Type} (f : A -> bool) (l : list A) :
  (forall x, x ∈ l -> f x = false) -> List.find f l = None.
Proof.
  induction l as [|x l IH]; intros H; simpl; [reflexivity|].
  rewrite (H x) by (apply elem_of_cons; now left).
  apply IH. intros y Hy. apply H. apply elem_of_cons. now right.
Qed.

Lemma filter_all_false {A : Type} (f : A -> bool) (l : list A) :
  (forall x, x ∈ l -> f x = false) -> List.filter f l = [].
Proof.
  induction l as [|x l IH]; intros H; simpl; [reflexivity|].
  rewrite (H x) by (apply elem_of_cons; now left).
  apply IH. intros y Hy. apply H. apply elem_of_cons. now right.
Qed.

Lemma filter_all_true {A : Type} (f : A -> bool) (l : list A) :
  (forall x, x ∈ l -> f x = true) -> List.filter f l = l.
Proof.
  induction l as [|x l IH]; intros H; simpl; [reflexivity|].
  rewrite (H x) by (apply elem_of_cons; now left).
  f_equal. apply IH. intros y Hy. apply H. apply elem_of_cons. now right.
Qed.

Lemma elem_of_List_filter {A : Type} (f : A -> bool) (l : list A) (x : A) :
  x ∈ List.filter f l <-> x ∈ l /\ f x = true.
Proof. rewrite !list_elem_of_In. apply filter_In. Qed.

Lemma filter_twice {A : Type} (f g : A -> bool) (l : list A) :
  List.filter f (List.filter g l) = List.filter (fun x => g x && f x) l.
Proof.
  induction l as [|x l IH]; simpl; [reflexivity|].
  destruct (g x); simpl; [|exact IH]. destruct (f x); now rewrite IH.
Qed.

(** What [findIndex] finds: the first project with the identifier. *)
Lemma findIndex_Some (id : string) (ps : list Project.t) (i : nat) :
  findIndex id ps = Some i ->
  exists l1 q l2,
    ps = l1 ++ q :: l2 /\ length l1 = i /\ Project.id q = id /\
    forall p, p ∈ l1 -> Project.id p <> id.
Proof.
  revert i. induction ps as [|p ps IH]; intros i; simpl; [discriminate|].
  destruct (String.eqb_spec (Project.id p) id) as [E|E].
  - intros [= <-]. exists [], p, ps. repeat split; [exact E|].
    intros q Hq. now apply elem_of_nil in Hq.
  - destruct (findIndex id ps) as [j|]; [|discriminate].
    intros [= <-]. destruct (IH j eq_refl) as (l1 & q & l2 & -> & Hl & Hq & Hn).
    exists (p :: l1), q, l2. repeat split; [simpl; now rewrite Hl|exact Hq|].
    intros r Hr. apply elem_of_cons in Hr as [->|Hr]; [exact E|now apply Hn].
Qed.

Lemma findIndex_None (id : string) (ps : list Project.t) :
  findIndex id ps = None -> forall p, p ∈ ps -> Project.id p <> id.
Proof.
  induction ps as [|p ps IH]; simpl; intros H q Hq.
  - now apply elem_of_nil in Hq.
  - destruct (String.eqb_spec (Project.id p) id) as [E|E]; [discriminate|].
    destruct (findIndex id ps); [discriminate|].
    apply elem_of_cons in Hq as [->|Hq]; [exact E|now apply IH].
Qed.

(** The list of the projects after [saveProject]. *)
Lemma saveProject_projects (project : Project.t) (ls : LocalStorage) :
  (exists l1 q l2,
      allProjects ls = l1 ++ q :: l2 /\
      Project.id q = Project.id project /\
      (forall p, p ∈ l1 -> Project.id p <> Project.id project) /\
      allProjects (saveProject project ls) = l1 ++ storedProject project :: l2)
  \/
  ((forall p, p ∈ allProjects ls -> Project.id p <> Project.id project) /\
   allProjects (saveProject project ls)
   = allProjects ls ++ [storedProject project]).
Proof.
  unfold saveProject.
  destruct (findIndex (Project.id project) (allProjects ls)) as [i|] eqn:E.
  - left. apply findIndex_Some in E as (l1 & q & l2 & Hps & Hl & Hq & Hn).
    exists l1, q, l2. repeat split; try assumption.
    unfold allProjects at 1. simpl. rewrite Hps.
    rewrite <- Hl, <- (Nat.add_0_r (length l1)), insert_app_r. reflexivity.
  - right. split; [exact (findIndex_None _ _ E)|reflexivity].
Qed.

Lemma insertByTimestamp_perm (x : StoredNote.t) (l : list StoredNote.t) :
  insertByTimestamp x l ≡ₚ x :: l.
Proof.
  induction l as [|y l IH]; simpl; [reflexivity|].
  destruct (Qle_bool _ _); [reflexivity|].
  rewrite IH. apply Permutation_swap.
Qed.

Lemma sortByTimestamp_perm (l : list StoredNote.t) : sortByTimestamp l ≡ₚ l.
Proof.
  induction l as [|x l IH]; simpl; [reflexivity|].
  now rewrite insertByTimestamp_perm, IH.
Qed.

Lemma insertByTimestamp_sorted (x : StoredNote.t) (l : list StoredNote.t) :
  StronglySorted byTimestamp l ->
  StronglySorted byTimestamp (insertByTimestamp x l).
Proof.
  induction l as [|y l IH]; simpl; intros Hs.
  - repeat constructor.
  - apply StronglySorted_inv in Hs as [Hs Hy].
    destruct (Qle_bool (StoredNote.timestamp x) (StoredNote.timestamp y)) eqn:E.
    + apply Qle_bool_iff in E. constructor; [now constructor|].
      constructor; [exact E|]. eapply Forall_impl; [exact Hy|].
      unfold byTimestamp. simpl. intros z Hz. eapply Qle_trans; eassumption.
    + assert (byTimestamp y x) as Hyx.
      { unfold byTimestamp. apply Qlt_le_weak, Qnot_le_lt. intros L.
        apply Qle_bool_iff in L. congruence. }
      constructor; [now apply IH|].
      rewrite insertByTimestamp_perm. now constructor.
Qed.

Lemma sortByTimestamp_sorted (l : list StoredNote.t) :
  StronglySorted byTimestamp (sortByTimestamp l).
Proof.
  induction l as [|x l IH]; simpl; [constructor|].
  now apply insertByTimestamp_sorted.
Qed.

End StorageFacts.

Section StorageTheorems.

Import Storage.

(** X16.  When no stored user has the e-mail address, [registerUser]
    succeeds and returns the user with the given identifier and the part of
    the address before the [@] as name.  Afterwards [loginUser] with the same
    address and password returns this user and makes it the current user, any
    other password is refused, a second registration of the address is
    refused, and the addresses of the stored users stay pairwise distinct. *)
Theorem register_then_login
  (uuid email password : string) (ls : LocalStorage) :
  (forall u, u ∈ getStoredUsers ls -> StoredUser.email u <> email) ->
  let user := {| User.id := uuid; User.email := email;
                 User.name := beforeAt email |} in
  exists ls',
    registerUser uuid email password ls = inr (user, ls') /\
    loginUser email password ls'
    = inr (user, set_CURRENT_USER (Some user) ls') /\
    (forall other, other <> password ->
                   loginUser email other ls' = inl "Invalid password"%string) /\
    (forall uuid' password',
        registerUser uuid' email password' ls'
        = inl "User already exists"%string) /\
    (distinctEmails ls -> distinctEmails ls').
Proof.
  intros Hfree. cbv zeta.
  set (newUser := {| StoredUser.id := uuid; StoredUser.email := email;
                     StoredUser.name := beforeAt email;
                     StoredUser.password := Some password |}).
  assert (List.find (fun u => String.eqb (StoredUser.email u) email)
                    (getStoredUsers ls) = None) as Hnone.
  { apply find_all_false. intros u Hu. apply String.eqb_neq. now apply Hfree. }
  assert (List.find (fun u => String.eqb (StoredUser.email u) email)
                    (getStoredUsers ls ++ [newUser]) = Some newUser) as Hfound.
  { rewrite find_app_None by exact Hnone. simpl. now rewrite String.eqb_refl. }
  exists (set_USERS (getStoredUsers ls ++ [newUser]) ls). split_and!.
  - unfold registerUser. now rewrite Hnone.
  - unfold loginUser. change (getStoredUsers (set_USERS ?v _)) with v.
    rewrite Hfound. simpl. now rewrite bool_decide_eq_true_2.
  - intros other Hother. unfold loginUser.
    change (getStoredUsers (set_USERS ?v _)) with v. rewrite Hfound. simpl.
    rewrite bool_decide_eq_false_2; [reflexivity|]. congruence.
  - intros uuid' password'. unfold registerUser.
    change (getStoredUsers (set_USERS ?v _)) with v. now rewrite Hfound.
  - unfold distinctEmails. change (getStoredUsers (set_USERS ?v _)) with v.
    intros Hd. rewrite fmap_app. apply NoDup_app. split; [exact Hd|].
    split; [|apply NoDup_singleton].
    intros e He He'. apply list_elem_of_singleton in He'. subst e.
    apply list_elem_of_fmap in He as (u & Hu & Hin).
    apply (Hfree u Hin). now symmetry.
Qed.

Lemma register_then_login_witness :
  (forall u, u ∈ getStoredUsers empty ->
             StoredUser.email u <> "ada@example.org"%string) /\
  loginUser "ada@example.org" "pw"
    (set_USERS [ {| StoredUser.id := "u1"; StoredUser.email := "ada@example.org";
                    StoredUser.name := "ada";
                    StoredUser.password := Some "pw"%string |} ] empty)
  = inr ({| User.id := "u1"; User.email := "ada@example.org";
            User.name := "ada" |},
         set_CURRENT_USER
           (Some {| User.id := "u1"; User.email := "ada@example.org";
                    User.name := "ada" |})
           (set_USERS [ {| StoredUser.id := "u1";
                           StoredUser.email := "ada@example.org";
                           StoredUser.name := "ada";
                           StoredUser.password := Some "pw"%string |} ] empty)).
Proof.
  assert (forall u, u ∈ getStoredUsers empty ->
                    StoredUser.email u <> "ada@example.org"%string) as H.
  { intros u Hu. now apply elem_of_nil in Hu. }
  split; [exact H|].
  destruct (register_then_login "u1" "ada@example.org" "pw" empty H)
    as (ls' & Hreg & Hlog & _).
  vm_compute in Hreg. injection Hreg as <-. exact Hlog.
Defined.

(** X17.  [initializeGuestSession] can be repeated: a second call returns
    the same user and leaves the storage as the first call left it.  The
    user it returns has the identifier of the guest and is the current user;
    at most one user is added; after [logoutUser] there is no current
    user. *)
Theorem guest_session_idempotent (ls : LocalStorage) :
  let out := initializeGuestSession ls in
  initializeGuestSession (snd out) = out /\
  User.id (fst out) = guestId /\
  getCurrentUser (snd out) = Some (fst out) /\
  (length (getStoredUsers (snd out)) <= S (length (getStoredUsers ls)))%nat /\
  getCurrentUser (logoutUser (snd out)) = None.
Proof.
  cbv zeta. unfold initializeGuestSession.
  destruct (List.find (fun u => String.eqb (StoredUser.id u) guestId)
                      (getStoredUsers ls)) as [guest|] eqn:E.
  - split_and!; try reflexivity.
    + cbn [snd]. change (getStoredUsers (set_CURRENT_USER ?v ?l))
        with (getStoredUsers l). now rewrite E.
    + simpl. apply find_some in E as [_ E]. now apply String.eqb_eq in E.
    + simpl. change (getStoredUsers (set_CURRENT_USER ?v ?l))
        with (getStoredUsers l). lia.
  - split_and!; try reflexivity.
    + cbn [snd].
      change (getStoredUsers (set_CURRENT_USER ?v (set_USERS ?u _))) with u.
      rewrite find_app_None by exact E. reflexivity.
    + cbn [snd].
      change (getStoredUsers (set_CURRENT_USER ?v (set_USERS ?u _))) with u.
      rewrite length_app. simpl. lia.
Qed.

Lemma saveProject_distinct (project : Project.t) (ls : LocalStorage) :
  distinctProjects ls -> distinctProjects (saveProject project ls).
Proof.
  unfold distinctProjects. intros Hd.
  destruct (saveProject_projects project ls)
    as [(l1 & q & l2 & Hps & Hq & Hn & ->)|[Hn ->]].
  - rewrite Hps, fmap_app, fmap_cons in Hd. rewrite fmap_app, fmap_cons.
    change (Project.id (storedProject project)) with (Project.id project).
    now rewrite <- Hq.
  - rewrite fmap_app. apply NoDup_app. split; [exact Hd|].
    split; [|apply NoDup_singleton].
    intros e He He'. apply list_elem_of_singleton in He'. subst e.
    apply list_elem_of_fmap in He as (p & Hp & Hin).
    apply (Hn p Hin). now rewrite <- Hp.
Qed.

(** X18.  [saveProject] stores a project under its identifier: when the
    identifiers of the stored projects are pairwise distinct they stay so,
    the stored form of the project is then the one and only project with its
    identifier, and the projects with other identifiers are kept as they
    were, in their order.  The stored form has neither file nor URL, and
    notes and users are untouched. *)
Theorem save_project_upsert (project : Project.t) (ls : LocalStorage) :
  distinctProjects ls ->
  let ls' := saveProject project ls in
  distinctProjects ls' /\
  List.filter (fun p => String.eqb (Project.id p) (Project.id project))
              (allProjects ls') = [storedProject project] /\
  List.filter (fun p => negb (String.eqb (Project.id p) (Project.id project)))
              (allProjects ls')
  = List.filter (fun p => negb (String.eqb (Project.id p) (Project.id project)))
                (allProjects ls) /\
  storedProject project ∈ getProjects (Project.userId project) ls' /\
  NOTES ls' = NOTES ls /\ USERS ls' = USERS ls.
Proof.
  intros Hd. cbv zeta. unfold distinctProjects in *.
  assert (NOTES (saveProject project ls) = NOTES ls /\
          USERS (saveProject project ls) = USERS ls) as Hkeep.
  { unfold saveProject. now destruct (findIndex _ _). }
  assert (Project.id (storedProject project) = Project.id project) as Hid
    by reflexivity.
  pose proof (saveProject_distinct project ls Hd) as Hdist.
  unfold distinctProjects in Hdist.
  destruct (saveProject_projects project ls)
    as [(l1 & q & l2 & Hps & Hq & Hn & Hnew)|[Hn Hnew]];
    unfold getProjects; rewrite !Hnew; rewrite Hnew in Hdist.
  - rewrite Hps, fmap_app, fmap_cons in Hd.
    apply NoDup_app in Hd as (Hd1 & Hd12 & Hd2).
    apply NoDup_cons in Hd2 as [Hq2 Hd2].
    assert (forall p, p ∈ l2 -> Project.id p <> Project.id project) as Hn2.
    { intros p Hp E. apply Hq2. rewrite Hq, <- E.
      now apply list_elem_of_fmap_2. }
    split_and!; try apply Hkeep.
    + exact Hdist.
    + rewrite List.filter_app. simpl. rewrite String.eqb_refl.
      rewrite !filter_all_false; [reflexivity| |].
      * intros p Hp. apply String.eqb_neq. now apply Hn2.
      * intros p Hp. apply String.eqb_neq. now apply Hn.
    + rewrite Hps, !List.filter_app. simpl.
      rewrite String.eqb_refl. simpl.
      replace (String.eqb (Project.id q) (Project.id project)) with true
        by (symmetry; now apply String.eqb_eq).
      reflexivity.
    + apply elem_of_List_filter. split.
      * apply elem_of_app. right. apply elem_of_cons. now left.
      * apply String.eqb_refl.
  - split_and!; try apply Hkeep.
    + exact Hdist.
    + rewrite List.filter_app. simpl. rewrite String.eqb_refl.
      rewrite filter_all_false; [reflexivity|].
      intros p Hp. apply String.eqb_neq. now apply Hn.
    + rewrite List.filter_app. simpl. rewrite String.eqb_refl. simpl.
      now rewrite app_nil_r.
    + apply elem_of_List_filter. split.
      * apply elem_of_app. right. now apply list_elem_of_singleton.
      * apply String.eqb_refl.
Qed.

End StorageTheorems.

Section StorageSequences.

Import Storage.

Lemma save_project_upsert_witness :
  distinctProjects with_notes /\
  allProjects (saveProject talk with_notes) = [storedProject talk] /\
  distinctProjects (saveProject talk with_notes).
Proof.
  assert (distinctProjects with_notes) as H.
  { unfold distinctProjects. vm_compute. repeat constructor.
    intros E. now apply elem_of_nil in E. }
  split; [exact H|]. split; [reflexivity|].
  apply (save_project_upsert talk with_notes H).
Defined.

Lemma saveProject_withoutBlobs (project : Project.t) (ls : LocalStorage) :
  withoutBlobs ls -> withoutBlobs (saveProject project ls).
Proof.
  unfold withoutBlobs. intros H.
  destruct (saveProject_projects project ls)
    as [(l1 & q & l2 & Hps & _ & _ & ->)|[_ ->]].
  - rewrite Hps in H. apply Forall_app in H as [H1 H2].
    apply Forall_cons in H2 as [_ H2].
    apply Forall_app. split; [exact H1|]. constructor; [now split|exact H2].
  - apply Forall_app. split; [exact H|]. constructor; [now split|constructor].
Qed.

Lemma Forall_List_filter {A : Type} (P : A -> Prop) (f : A -> bool) (l : list A) :
  Forall P l -> Forall P (List.filter f l).
Proof.
  intros H. apply Forall_forall. intros x Hx.
  apply elem_of_List_filter in Hx as [Hx _].
  rewrite Forall_forall in H. now apply H.
Qed.

Lemma NoDup_fmap_List_filter {A B : Type} (g : A -> B) (f : A -> bool)
  (l : list A) :
  NoDup (g <$> l) -> NoDup (g <$> List.filter f l).
Proof.
  induction l as [|x l IH]; simpl; intros H; [constructor|].
  apply NoDup_cons in H as [Hx H]. destruct (f x); [|now apply IH].
  rewrite fmap_cons. apply NoDup_cons. split; [|now apply IH].
  intros Hin. apply Hx. apply list_elem_of_fmap in Hin as (y & -> & Hy).
  apply elem_of_List_filter in Hy as [Hy _]. now apply list_elem_of_fmap_2.
Qed.

Lemma deleteProject_notes (projectId : string) (ls : LocalStorage) :
  allNotes (deleteProject projectId ls)
  = List.filter (fun n => negb (String.eqb (StoredNote.projectId n) projectId))
                (allNotes ls).
Proof. reflexivity. Qed.

Lemma deleteProject_projects (projectId : string) (ls : LocalStorage) :
  allProjects (deleteProject projectId ls)
  = List.filter (fun p => negb (String.eqb (Project.id p) projectId))
                (allProjects ls).
Proof. reflexivity. Qed.

(** X19.  Whatever projects and notes are saved and deleted, in whatever
    order, starting from an empty storage: no stored project ever carries a
    file or a blob URL, and no two stored projects ever share an
    identifier. *)
Theorem storage_invariants (cs : list Command) :
  withoutBlobs (executeAll cs empty) /\ distinctProjects (executeAll cs empty).
Proof.
  assert (forall ls, withoutBlobs ls /\ distinctProjects ls ->
                     withoutBlobs (executeAll cs ls) /\
                     distinctProjects (executeAll cs ls)) as H.
  { induction cs as [|c cs IH]; intros ls Hls; simpl; [exact Hls|].
    apply IH. destruct Hls as [Hb Hd]. destruct c; simpl.
    - split; [now apply saveProject_withoutBlobs|now apply saveProject_distinct].
    - split.
      + unfold withoutBlobs. rewrite deleteProject_projects.
        now apply Forall_List_filter.
      + unfold distinctProjects. rewrite deleteProject_projects.
        now apply NoDup_fmap_List_filter.
    - split; [exact Hb|exact Hd].
    - split; [exact Hb|exact Hd]. }
  apply H. split; [constructor|constructor].
Qed.

(** X20.  [deleteProject] removes the project and all the notes of the
    project and nothing else: no stored project has the identifier any more
    and the project has no notes left, while the notes of every other project
    and the projects of every user, the deleted one apart, are as before. *)
Theorem delete_project_removes (projectId : string) (ls : LocalStorage) :
  let ls' := deleteProject projectId ls in
  (forall p, p ∈ allProjects ls' -> Project.id p <> projectId) /\
  getNotes projectId ls' = [] /\
  (forall other, other <> projectId -> getNotes other ls' = getNotes other ls) /\
  (forall userId,
      getProjects userId ls'
      = List.filter (fun p => negb (String.eqb (Project.id p) projectId))
                    (getProjects userId ls)) /\
  USERS ls' = USERS ls /\ CURRENT_USER ls' = CURRENT_USER ls.
Proof.
  cbv zeta. split_and!; try reflexivity.
  - intros p Hp. rewrite deleteProject_projects in Hp.
    apply elem_of_List_filter in Hp as [_ Hp].
    apply negb_true_iff in Hp. now apply String.eqb_neq.
  - unfold getNotes. rewrite deleteProject_notes.
    rewrite filter_all_false; [reflexivity|].
    intros n Hn. apply elem_of_List_filter in Hn as [_ Hn].
    now apply negb_true_iff in Hn.
  - intros other Hother. unfold getNotes. rewrite deleteProject_notes.
    f_equal. rewrite filter_twice. apply filter_ext. intros n.
    destruct (String.eqb_spec (StoredNote.projectId n) other) as [E|E];
      [|now rewrite andb_false_r].
    rewrite andb_true_r. apply negb_true_iff, String.eqb_neq. congruence.
  - intros userId. unfold getProjects. rewrite deleteProject_projects.
    rewrite !filter_twice. apply filter_ext. intros p. apply andb_comm.
Qed.

Lemma delete_project_removes_witness :
  "p2"%string <> "p1"%string /\
  getNotes "p1" (deleteProject "p1" with_notes) = [] /\
  getNotes "p2" (deleteProject "p1" with_notes) = getNotes "p2" with_notes /\
  allProjects (deleteProject "p1" with_notes) = [].
Proof.
  assert ("p2"%string <> "p1"%string) as H by discriminate.
  split; [exact H|].
  destruct (delete_project_removes "p1" with_notes) as (_ & H1 & H2 & _).
  split; [exact H1|]. split; [exact (H2 "p2"%string H)|reflexivity].
Defined.

Lemma elem_of_getNotes (projectId : string) (ls : LocalStorage)
  (n : StoredNote.t) :
  n ∈ getNotes projectId ls <->
  n ∈ allNotes ls /\ StoredNote.projectId n = projectId.
Proof.
  unfold getNotes. rewrite sortByTimestamp_perm.
  rewrite elem_of_List_filter, String.eqb_eq. reflexivity.
Qed.

(** X21.  [getNotes] returns exactly the stored notes of the project, each
    as often as it is stored, in the order of their timestamps. *)
Theorem notes_sorted_by_time (projectId : string) (ls : LocalStorage) :
  StronglySorted byTimestamp (getNotes projectId ls) /\
  getNotes projectId ls
  ≡ₚ List.filter (fun n => String.eqb (StoredNote.projectId n) projectId)
                 (allNotes ls) /\
  (forall n, n ∈ getNotes projectId ls <->
             n ∈ allNotes ls /\ StoredNote.projectId n = projectId).
Proof.
  split_and!.
  - apply sortByTimestamp_sorted.
  - apply sortByTimestamp_perm.
  - intros n. apply elem_of_getNotes.
Qed.

Lemma saveNote_notes (note : StoredNote.t) (ls : LocalStorage) :
  allNotes (saveNote note ls) = allNotes ls ++ [note].
Proof. reflexivity. Qed.

Lemma deleteNote_notes (noteId : string) (ls : LocalStorage) :
  allNotes (deleteNote noteId ls)
  = List.filter (fun n => negb (String.eqb (StoredNote.id n) noteId))
                (allNotes ls).
Proof. reflexivity. Qed.

(** X22.  A note saved is a note of its project from then on, and the notes
    of the other projects are as before.  Deleting it again by its
    identifier, which no other stored note bears, gives back the notes that
    were stored before.  Projects and users are untouched by both. *)
Theorem save_then_delete_note (note : StoredNote.t) (ls : LocalStorage) :
  (forall m, m ∈ allNotes ls -> StoredNote.id m <> StoredNote.id note) ->
  note ∈ getNotes (StoredNote.projectId note) (saveNote note ls) /\
  (forall other, other <> StoredNote.projectId note ->
                 getNotes other (saveNote note ls) = getNotes other ls) /\
  allNotes (deleteNote (StoredNote.id note) (saveNote note ls)) = allNotes ls /\
  PROJECTS (deleteNote (StoredNote.id note) (saveNote note ls)) = PROJECTS ls /\
  USERS (deleteNote (StoredNote.id note) (saveNote note ls)) = USERS ls.
Proof.
  intros Hfresh. split_and!; try reflexivity.
  - apply elem_of_getNotes. split; [|reflexivity].
    rewrite saveNote_notes. apply elem_of_app. right.
    now apply list_elem_of_singleton.
  - intros other Hother. unfold getNotes. rewrite saveNote_notes.
    rewrite List.filter_app. cbn [List.filter].
    replace (String.eqb (StoredNote.projectId note) other) with false.
    + now rewrite app_nil_r.
    + symmetry. apply String.eqb_neq. congruence.
  - rewrite deleteNote_notes, saveNote_notes, List.filter_app.
    cbn [List.filter]. rewrite String.eqb_refl. cbn [negb].
    rewrite app_nil_r.
    apply filter_all_true. intros m Hm.
    apply negb_true_iff, String.eqb_neq. now apply Hfresh.
Qed.

Lemma save_then_delete_note_witness :
  (forall m, m ∈ allNotes with_notes ->
             StoredNote.id m <> StoredNote.id (remark "n4" "p1" 5)) /\
  getNotes "p1" (saveNote (remark "n4" "p1" 5) with_notes)
  = [remark "n3" "p1" 3; remark "n4" "p1" 5; remark "n1" "p1" 7] /\
  allNotes (deleteNote "n4" (saveNote (remark "n4" "p1" 5) with_notes))
  = allNotes with_notes.
Proof.
  assert (forall m, m ∈ allNotes with_notes ->
                    StoredNote.id m <> StoredNote.id (remark "n4" "p1" 5))
    as H.
  { intros m Hm. vm_compute in Hm.
    repeat (apply elem_of_cons in Hm as [->|Hm]; [discriminate|]).
    now apply elem_of_nil in Hm. }
  split; [exact H|]. split; [vm_compute; reflexivity|].
  apply (save_then_delete_note (remark "n4" "p1" 5) with_notes H).
Defined.

End StorageSequences.

(** ** The clock of the recorder *)

Section ClockTheorems.

Import VideoRecorder.

Lemma sixtieth (n : Z) :
  (inject_Z n / 60 == inject_Z (n / 60) + inject_Z (n mod 60) * (1 # 60))%Q.
Proof.
  rewrite (Z.div_mod n 60) at 1 by lia.
  rewrite inject_Z_plus, inject_Z_mult. field.
Qed.

(** The whole minutes: the rounding of the quotient by 60 does not reach
    the next integer. *)
Lemma floor_minutes (n : Z) :
  0 <= n < 2 ^ 53 ->
  num_floor (num_div (Fin (inject_Z n)) (Fin 60)) = Fin (inject_Z (n / 60)).
Proof.
  intros Hn. cbn [num_div]. change (Qzero 60) with false. cbv iota.
  pose proof (sixtieth n) as E.
  pose proof (Z.mod_pos_bound n 60 ltac:(lia)) as Hr.
  pose proof (Z.div_pos n 60 ltac:(lia) ltac:(lia)) as Hk.
  set (q := (inject_Z n / 60)%Q) in *.
  assert (inject_Z (n / 60) <= q)%Q as Lq.
  { rewrite E. assert (0 <= inject_Z (n mod 60))%Q
      by (change 0%Q with (inject_Z 0); rewrite <- Zle_Qle; lia). lra. }
  assert (q <= inject_Z (n / 60) + (59 # 60))%Q as Uq.
  { rewrite E. assert (inject_Z (n mod 60) <= 59)%Q
      by (change 59%Q with (inject_Z 59); rewrite <- Zle_Qle; lia). lra. }
  assert (0 <= q)%Q as H0.
  { eapply Qle_trans; [|exact Lq].
    change 0%Q with (inject_Z 0). now rewrite <- Zle_Qle. }
  destruct (Qlt_le_dec 0 q) as [Hp|Hz].
  2:{ rewrite roundDouble_zero by lra. cbn [num_floor]. do 2 f_equal.
      assert (inject_Z (n / 60) <= inject_Z 0)%Q as H
        by (change (inject_Z 0) with 0%Q; lra).
      rewrite <- Zle_Qle in H. change (Qfloor 0) with 0. lia. }
  assert (q < pow2 48)%Q as Hq.
  { assert (inject_Z (n / 60) < inject_Z (2 ^ 48 - 1))%Q.
    { rewrite <- Zlt_Qlt. apply Z.div_lt_upper_bound; lia. }
    rewrite <- pow2_inject by lia.
    assert (inject_Z (2 ^ 48 - 1) + 1 == inject_Z (2 ^ 48))%Q by reflexivity.
    lra. }
  destruct (floorLog2_spec q Hp) as [Le _].
  assert (floorLog2 q < 48)
    by (apply pow2_lt_inv; eapply Qle_lt_trans; eassumption).
  assert (ulp q <= -5) as Hu by (unfold ulp; lia).
  rewrite (roundDouble_positive q Hp). unfold roundPositive.
  pose proof (nearestMultiple_near q (ulp q)) as [_ U].
  pose proof (nearestMultiple_ge_int q (ulp q) (n / 60) ltac:(lia) Lq) as L.
  assert (pow2 (ulp q) <= 1 # 32)%Q as Hs.
  { change (1 # 32) with (pow2 (-5)). now apply pow2_le. }
  set (v := nearestMultiple q (ulp q)) in *.
  assert (v < pow2 48 + 1)%Q as Hv by lra.
  destruct (Qle_bool (pow2 1024) v) eqn:O.
  { apply Qle_bool_iff in O.
    assert (pow2 48 + 1 <= pow2 1024)%Q by (vm_compute; discriminate). lra. }
  cbn [num_floor]. do 2 f_equal. apply Qfloor_between; lra.
Qed.

Lemma Qred_integer (q : Q) (k : Z) : (q == inject_Z k)%Q -> Qred q = inject_Z k.
Proof.
  intros H. apply Qred_complete in H. rewrite H.
  apply Qcanon.Qred_identity. apply Z.gcd_1_r.
Qed.

(** The remaining seconds. *)
Lemma rem_seconds (n : Z) :
  0 <= n ->
  num_rem (Fin (inject_Z n)) (Fin 60) = Fin (inject_Z (n mod 60)).
Proof.
  intros Hn. cbn [num_rem]. change (Qzero 60) with false. cbv iota.
  f_equal. apply Qred_integer.
  pose proof (sixtieth n) as E.
  pose proof (Z.mod_pos_bound n 60 ltac:(lia)) as Hr.
  assert (0 <= inject_Z (n mod 60))%Q
    by (change 0%Q with (inject_Z 0); rewrite <- Zle_Qle; lia).
  assert (inject_Z (n mod 60) <= 59)%Q
    by (change 59%Q with (inject_Z 59); rewrite <- Zle_Qle; lia).
  assert (0 <= inject_Z (n / 60))%Q.
  { change 0%Q with (inject_Z 0). rewrite <- Zle_Qle.
    apply Z.div_pos; lia. }
  assert (Qtrunc (inject_Z n / 60) = n / 60) as ->.
  { unfold Qtrunc.
    assert (Qle_bool 0 (inject_Z n / 60) = true) as ->
      by (apply Qle_bool_iff; lra).
    apply Qfloor_between; lra. }
  rewrite (Z.div_mod n 60) at 1 by lia.
  rewrite inject_Z_plus, inject_Z_mult. change (inject_Z 60) with 60%Q. ring.
Qed.

Lemma toString_integer (q : Q) (k : Z) :
  (q == inject_Z k)%Q -> Z.abs k < 2 ^ 53 ->
  toString (Fin q) = Some (decimal k).
Proof.
  intros E Hk. unfold toString. cbv zeta.
  assert (Qfloor q = k) as -> by (rewrite E; apply Qfloor_Z).
  assert (Qeq_bool q (inject_Z k) = true) as -> by now apply Qeq_bool_iff.
  assert ((Z.abs k <? 2 ^ 53) = true) as -> by (apply Z.ltb_lt; exact Hk).
  reflexivity.
Qed.

Lemma two_digits (s : Z) :
  0 <= s < 60 ->
  padStart2 (decimal s)
  = [ (48 + Z.to_N (s / 10))%N; (48 + Z.to_N (s mod 10))%N ].
Proof.
  intros H. rewrite <- (Z2Nat.id s) by lia.
  assert (Z.to_nat s < 60)%nat as Hk by lia.
  generalize dependent (Z.to_nat s). clear H. intros k Hk.
  do 60 (destruct k as [|k]; [reflexivity|]). lia.
Qed.

(** X23.  For a whole number of seconds that is not negative and below
    [2^53] the clock of the recorder shows the whole minutes in decimal
    notation, a colon, and the remaining seconds, which are below 60, always
    with two digits. *)
Theorem recorder_clock (seconds : Z) :
  0 <= seconds < 2 ^ 53 ->
  formatTime (Fin (inject_Z seconds))
  = Some (decimal (seconds / 60) ++ [58%N]
          ++ [ (48 + Z.to_N ((seconds mod 60) / 10))%N;
               (48 + Z.to_N ((seconds mod 60) mod 10))%N ]) /\
  0 <= seconds mod 60 < 60 /\
  60 * (seconds / 60) + seconds mod 60 = seconds.
Proof.
  intros H. pose proof (Z.mod_pos_bound seconds 60 ltac:(lia)) as Hm.
  split; [|split; [exact Hm|]].
  - unfold formatTime. cbv zeta.
    rewrite floor_minutes by exact H. rewrite rem_seconds by lia.
    rewrite (toString_integer (inject_Z (seconds / 60)) (seconds / 60));
      [|reflexivity|].
    2:{ assert (0 <= seconds / 60 <= seconds)
          by (split; [apply Z.div_pos; lia|apply Z.div_le_upper_bound; lia]).
        lia. }
    rewrite (toString_integer (inject_Z (seconds mod 60)) (seconds mod 60));
      [|reflexivity|lia].
    simpl. now rewrite two_digits by lia.
  - pose proof (Z.div_mod seconds 60 ltac:(lia)). lia.
Qed.

Lemma recorder_clock_witness :
  0 <= 125 < 2 ^ 53 /\
  formatTime (Fin 125) = Some (units "2:05") /\
  formatTime (Fin 3599) = Some (units "59:59") /\
  formatTime (Fin 0) = Some (units "0:00").
Proof.
  split; [lia|]. split.
  - exact (proj1 (recorder_clock 125 ltac:(lia))).
  - split; vm_compute; reflexivity.
Defined.

End ClockTheorems.
